(** * Synchrotron: connection graph and tick/emit propagation

    A shallow embedding of [SynchrotronComponentList.hpp] (components whose
    edge lists are [std::list]) and [SynchrotronComponentFList.hpp]
    (components whose edge lists are [std::forward_list]).

    Components are C++ objects that point at each other, so the model keeps
    an explicit store: a finite map from addresses to component records.
    Every member function becomes a function that takes the address of
    [this] and the store and gives back the new store.  Dereferencing an
    address that holds no live component is undefined behaviour in C++; the
    model reports it as [Fault]. *)

From Stdlib Require Import ZArith Lia.
From stdpp Require Import gmap list.

Local Open Scope Z_scope.
Set Warnings "-clear-no-such-hyp".

(** ** Outcomes *)

(** [Done a]: the call returned.  [Fault]: the call touched an address that
    holds no live component.  [OutOfFuel]: the nesting of [tick] calls went
    deeper than the bound given to the model. *)
Inductive result (A : Type) : Type :=
  | Done (a : A)
  | Fault
  | OutOfFuel.
Arguments Done {A} a.
Arguments Fault {A}.
Arguments OutOfFuel {A}.

Definition result_bind_def {A B} (f : A → result B) (m : result A) : result B :=
  match m with
  | Done a => f a
  | Fault => Fault
  | OutOfFuel => OutOfFuel
  end.

#[global] Instance result_bind : MBind result := @result_bind_def.
#[global] Instance result_ret : MRet result := @Done.

(** ** Data model *)

(** The two source files differ in one respect only: [connectSlot] appends
    with [push_back] on [std::list] and prepends with [push_front] on
    [std::forward_list]. *)
Inductive Variant : Set := DList | FList.

(** The three data members of the class; [state] is the [std::bitset]
    read as a non-negative integer, bit [i] of the bitset being bit [i] of
    the integer. *)
Record Component : Set := mkComponent {
  state : Z;
  slotOutput : list nat;
  signalInput : list nat
}.

(** The store: addresses are natural numbers. *)
Abbreviation Heap := (gmap nat Component).

Inductive event : Set :=
  | EvTick (p : nat)
  | EvEmit (p : nat).

Definition size_t_bits : Z := 64.

(** [std::bitset<bit_width>(initial_value)]: the value arrives as a
    [size_t] and the bits at positions [>= bit_width] are dropped. *)
Definition bitset_of (bit_width : nat) (initial_value : Z) : Z :=
  Z.land (initial_value mod 2 ^ size_t_bits) (Z.ones (Z.of_nat bit_width)).

Definition set_state (s : Z) (c : Component) : Component :=
  mkComponent s (slotOutput c) (signalInput c).
Definition set_slotOutput (l : list nat) (c : Component) : Component :=
  mkComponent (state c) l (signalInput c).
Definition set_signalInput (l : list nat) (c : Component) : Component :=
  mkComponent (state c) (slotOutput c) l.

(** ** Store access *)

Definition deref (h : Heap) (p : nat) : result Component :=
  match h !! p with
  | Some c => Done c
  | None => Fault
  end.

(** [p->field = f (p->field)] *)
Definition update (f : Component → Component) (p : nat) (h : Heap) : result Heap :=
  c ← deref h p; Done (<[p := f c]> h).

(** A range-for loop whose body changes the store. *)
Fixpoint for_each (body : nat → Heap → result Heap) (l : list nat) (h : Heap)
  : result Heap :=
  match l with
  | [] => Done h
  | x :: l' => h' ← body x h; for_each body l' h'
  end.

(** ** Edge lists *)

(** [push_back] / [push_front] *)
Definition push (v : Variant) (x : nat) (l : list nat) : list nat :=
  match v with
  | DList => l ++ [x]
  | FList => x :: l
  end.

(** [std::list::remove] and [std::forward_list::remove]: every element equal
    to [x] goes, the others keep their order. *)
Definition list_remove (x : nat) (l : list nat) : list nat :=
  filter (λ y, y ≠ x) l.

(** ** Connection management *)

Definition connectSlot (v : Variant) (this s : nat) (h : Heap) : result Heap :=
  h1 ← update (λ c, set_slotOutput (push v s (slotOutput c)) c) this h;
  update (λ c, set_signalInput (push v this (signalInput c)) c) s h1.

Definition disconnectSlot (this s : nat) (h : Heap) : result Heap :=
  h1 ← update (λ c, set_slotOutput (list_remove s (slotOutput c)) c) this h;
  update (λ c, set_signalInput (list_remove this (signalInput c)) c) s h1.

Definition addInput (v : Variant) (this input : nat) (h : Heap) : result Heap :=
  connectSlot v input this h.

Definition addOutput (v : Variant) (this output : nat) (h : Heap) : result Heap :=
  connectSlot v this output h.

Definition removeInput (this input : nat) (h : Heap) : result Heap :=
  disconnectSlot input this h.

Definition removeOutput (this output : nat) (h : Heap) : result Heap :=
  disconnectSlot this output h.

(** The overloads taking a [std::initializer_list]. *)
Definition addInputs (v : Variant) (this : nat) (inputList : list nat) (h : Heap)
  : result Heap :=
  for_each (λ connection, addInput v this connection) inputList h.

Definition addOutputs (v : Variant) (this : nat) (outputList : list nat) (h : Heap)
  : result Heap :=
  for_each (λ connection, addOutput v this connection) outputList h.

(** ** Construction and destruction *)

(** Default constructor.  The address [this] is the one the new object gets;
    an object is never placed over a live one. *)
Definition construct (bit_width : nat) (this : nat) (initial_value : Z) (h : Heap)
  : result Heap :=
  match h !! this with
  | Some _ => Fault
  | None => Done (<[this := mkComponent (bitset_of bit_width initial_value) [] []]> h)
  end.

(** Copy constructor: delegates to the default constructor (so the state is
    that of [initial_value = 0]), then walks the source's inputs and, when
    asked, the source's outputs. *)
Definition copy_construct (v : Variant) (bit_width : nat) (this sc : nat)
    (duplicateAll_IO : bool) (h : Heap) : result Heap :=
  h0 ← construct bit_width this 0 h;
  src ← deref h0 sc;
  h1 ← for_each (λ sender, addInput v this sender) (signalInput src) h0;
  if duplicateAll_IO then
    src' ← deref h1 sc;
    for_each (λ connection, addOutput v this connection) (slotOutput src') h1
  else Done h1.

(** Connection constructor. *)
Definition construct_io (v : Variant) (bit_width : nat) (this : nat)
    (inputList outputList : list nat) (h : Heap) : result Heap :=
  h0 ← construct bit_width this 0 h;
  h1 ← addInputs v this inputList h0;
  addOutputs v this outputList h1.

(** Destructor; afterwards the address holds no component. *)
Definition destroy (this : nat) (h : Heap) : result Heap :=
  c ← deref h this;
  h1 ← for_each
         (λ connection, update (λ d, set_signalInput (list_remove this (signalInput d)) d) connection)
         (slotOutput c) h;
  c1 ← deref h1 this;
  h2 ← for_each
         (λ sender, update (λ d, set_slotOutput (list_remove this (slotOutput d)) d) sender)
         (signalInput c1) h1;
  Done (delete this h2).

(** ** Propagation *)

(** The body of the loop in [tick]: [this->state |= connection->getState()]. *)
Definition merge_input (this connection : nat) (h : Heap) : result Heap :=
  s ← deref h connection;
  update (λ c, set_state (Z.lor (state c) (state s)) c) this h.

(** The loop of [emit], over a callee for [connection->tick()].  The events
    of the calls are collected in call order. *)
Fixpoint emit_loop (tick_ : nat → Heap → result (Heap * list event))
    (l : list nat) (h : Heap) : result (Heap * list event) :=
  match l with
  | [] => Done (h, [])
  | connection :: l' =>
      '(h1, t1) ← tick_ connection h;
      '(h2, t2) ← emit_loop tick_ l' h1;
      Done (h2, t1 ++ t2)
  end.

Definition emit_with (tick_ : nat → Heap → result (Heap * list event))
    (this : nat) (h : Heap) : result (Heap * list event) :=
  c ← deref h this;
  '(h', t) ← emit_loop tick_ (slotOutput c) h;
  Done (h', EvEmit this :: t).

Definition tick_with (emit_ : nat → Heap → result (Heap * list event))
    (this : nat) (h : Heap) : result (Heap * list event) :=
  c ← deref h this;
  let prevState := state c in
  h1 ← for_each (merge_input this) (signalInput c) h;
  c1 ← deref h1 this;
  if decide (prevState ≠ state c1) then
    '(h2, t) ← emit_ this h1;
    Done (h2, EvTick this :: t)
  else Done (h1, [EvTick this]).

(** [tick] and [emit] call each other; [fuel] bounds how many [tick] calls
    may be open at once. *)
Fixpoint tick (fuel : nat) (this : nat) (h : Heap) : result (Heap * list event) :=
  match fuel with
  | O => OutOfFuel
  | S fuel' => tick_with (emit_with (tick fuel')) this h
  end.

Definition emit (fuel : nat) (this : nat) (h : Heap) : result (Heap * list event) :=
  emit_with (tick fuel) this h.

(** ** Specification-side notions *)

(** Bitwise inclusion: every bit set in [a] is set in [b]. *)
Definition bits_le (a b : Z) : Prop :=
  ∀ i, Z.testbit a i = true → Z.testbit b i = true.

(** What [tick] leaves in [this->state]: the old state with the state of
    every input, read from the store at the time of the call, or-ed in. *)
Definition merged_state (h : Heap) (c : Component) : Z :=
  fold_left (λ acc p, Z.lor acc (from_option state 0 (h !! p))) (signalInput c) (state c).

(** No edge list mentions an address without a live component. *)
Definition no_dangling (h : Heap) : Prop :=
  ∀ p c q, h !! p = Some c → q ∈ signalInput c ∨ q ∈ slotOutput c → is_Some (h !! q).

(** Invariant I1: [a] is among the inputs of [b] iff [b] is among the
    outputs of [a]. *)
Definition symmetric (h : Heap) : Prop :=
  ∀ a b ca cb, h !! a = Some ca → h !! b = Some cb →
    (a ∈ signalInput cb ↔ b ∈ slotOutput ca).

(** What [connectSlot this s] and [disconnectSlot this s] do to the
    component at address [p]: [fo] rewrites the outputs of [this], [fi] the
    inputs of [s]; the two may be the same object. *)
Definition rewire (fo fi : list nat → list nat) (this s p : nat) (c : Component)
  : Component :=
  mkComponent (state c)
    (if decide (p = this) then fo (slotOutput c) else slotOutput c)
    (if decide (p = s) then fi (signalInput c) else signalInput c).

(** The four single-edge member functions, as one family. *)
Inductive edge_op : Set := AddInput | AddOutput | RemoveInput | RemoveOutput.

Definition run_edge_op (v : Variant) (o : edge_op) (this other : nat) (h : Heap)
  : result Heap :=
  match o with
  | AddInput => addInput v this other h
  | AddOutput => addOutput v this other h
  | RemoveInput => removeInput this other h
  | RemoveOutput => removeOutput this other h
  end.

(** Small stores: a source with one subscriber, the two-component cycle,
    and two unconnected components. *)
Definition heap_source : Heap :=
  <[0%nat := mkComponent 5 [1%nat] []]> (<[1%nat := mkComponent 0 [] [0%nat]]> ∅).

Definition heap_pair : Heap :=
  <[0%nat := mkComponent 1 [1%nat] [1%nat]]> (<[1%nat := mkComponent 2 [0%nat] [0%nat]]> ∅).

Definition heap_two : Heap :=
  <[0%nat := mkComponent 1 [] []]> (<[1%nat := mkComponent 2 [] []]> ∅).

(** [h'] has the components of [h], with the same edge lists and with
    states that kept every bit they had. *)
Definition grows (h h' : Heap) : Prop :=
  ∀ p,
    match h !! p, h' !! p with
    | Some c, Some c' =>
        slotOutput c' = slotOutput c ∧ signalInput c' = signalInput c
        ∧ bits_le (state c) (state c')
    | None, None => True
    | _, _ => False
    end.

(** A sequence of [tick] calls made from outside, one after the other. *)
Definition tick_seq (fuel : nat) (ps : list nat) (h : Heap)
  : result (Heap * list event) :=
  emit_loop (tick fuel) ps h.

(** Every state fits the [bit_width] bits of the bitset. *)
Definition valid_states (bit_width : nat) (h : Heap) : Prop :=
  ∀ p c, h !! p = Some c → 0 ≤ state c < 2 ^ Z.of_nat bit_width.

(** How many of the [bit_width] bits of a state are still clear, and the
    sum of that over the store: the room left for states to grow. *)
Definition clear_bits (bit_width : nat) (s : Z) : nat :=
  length (filter (λ i, Z.testbit s (Z.of_nat i) = false) (seq 0 bit_width)).

Definition potential (bit_width : nat) (h : Heap) : nat :=
  map_fold (λ _ c acc, (clear_bits bit_width (state c) + acc)%nat) 0%nat h.

(** The relation kept by every step of a propagation pass on a store of
    [W]-bit states. *)
Definition settles (W : nat) (h h' : Heap) : Prop :=
  grows h h' ∧ (valid_states W h → valid_states W h') ∧
  (potential W h' ≤ potential W h)%nat.

(** What the destructor of [this] leaves of a neighbour: no entry for
    [this] in either list. *)
Definition purge (this : nat) (d : Component) : Component :=
  mkComponent (state d) (list_remove this (slotOutput d))
    (list_remove this (signalInput d)).

Definition well_formed (h : Heap) : Prop := no_dangling h ∧ symmetric h.

(** The graph [a → b → c], built with the public member functions. *)
Definition build_abc (v : Variant) (W : nat) (a b c : nat) (sA sB sC : Z)
  : result Heap :=
  h ← construct W a sA ∅;
  h ← construct W b sB h;
  h ← construct W c sC h;
  h ← addOutput v a b h;
  addOutput v b c h.

(** Two components, each the only input of the other; [a] starts with bit 0
    set and [b] with bit 1 set. *)
Definition build_cycle (v : Variant) (W : nat) (a b : nat) : result Heap :=
  h ← construct W a 1 ∅;
  h ← construct W b 2 h;
  h ← addInput v a b h;
  addInput v b a h.

(** The chain [0 → 1 → ... → N-1]: component [0] is constructed with the
    initial value [s], every other one with the default value, and each
    component [n > 0] takes [n-1] as its input. *)
Fixpoint build_chain (v : Variant) (W : nat) (s : Z) (N : nat) : result Heap :=
  match N with
  | O => Done ∅
  | S n =>
      h ← build_chain v W s n;
      h ← construct W n (match n with O => s | S _ => 0 end) h;
      match n with
      | O => Done h
      | S m => addInput v n m h
      end
  end.

(** The shape of such a chain, with [st i] the state of component [i]. *)
Definition chain_component (N : nat) (st : nat → Z) (i : nat) : Component :=
  mkComponent (st i)
    (if decide (S i < N)%nat then [S i] else [])
    (match i with O => [] | S j => [j] end).

Definition is_chain (h : Heap) (N : nat) (st : nat → Z) : Prop :=
  ∀ i, h !! i = if decide (i < N)%nat then Some (chain_component N st i) else None.

(** Replaying a list of connections, in order, onto an edge list. *)
Definition push_all (v : Variant) (xs : list nat) (l : list nat) : list nat :=
  fold_left (λ acc x, push v x acc) xs l.

Definition occurrences (p : nat) (l : list nat) : nat :=
  length (filter (λ y, y = p) l).

(** What the loop calling [this->addInput] on every sender in [l] does to the
    component at [p]: it gains [this] as an output once per occurrence of
    [p] in [l], and [this] itself gains the whole of [l] as inputs. *)
Definition conn_inputs (v : Variant) (this : nat) (l : list nat) (p : nat)
    (c : Component) : Component :=
  mkComponent (state c)
    (Nat.iter (occurrences p l) (push v this) (slotOutput c))
    (if decide (p = this) then push_all v l (signalInput c) else signalInput c).

(** The same for the loop calling [this->addOutput] on every connection
    in [l]. *)
Definition conn_outputs (v : Variant) (this : nat) (l : list nat) (p : nat)
    (c : Component) : Component :=
  mkComponent (state c)
    (if decide (p = this) then push_all v l (slotOutput c) else slotOutput c)
    (Nat.iter (occurrences p l) (push v this) (signalInput c)).

(** A component that is its own input. *)
Definition build_self_loop (v : Variant) (W : nat) (a : nat) (s : Z) : result Heap :=
  h ← construct W a s ∅; addInput v a a h.

(** ** What a propagation pass computes *)

(** The state found at an address (zero where there is no component). *)
Definition states_of (h : Heap) (p : nat) : Z := from_option state 0 (h !! p).

(** Under the state assignment [σ], component [y] already holds every bit
    of every one of its inputs. *)
Definition closed_at (h : Heap) (σ : nat → Z) (y : nat) : Prop :=
  ∀ cy x, h !! y = Some cy → x ∈ signalInput cy → bits_le (σ x) (σ y).

(** [σ] is a possible outcome of a pass over [h] that starts by ticking the
    components of [T]: no state lost a bit, every component of [T] is
    closed, and so is every output of every component whose state changed. *)
Definition stable (h : Heap) (T : list nat) (σ : nat → Z) : Prop :=
  (∀ p, bits_le (states_of h p) (σ p)) ∧
  (∀ y, y ∈ T → closed_at h σ y) ∧
  (∀ x cx y, h !! x = Some cx → σ x ≠ states_of h x → y ∈ slotOutput cx →
     closed_at h σ y).

Definition pass (h : Heap) (T : list nat) (h' : Heap) : Prop :=
  grows h h' ∧ stable h T (states_of h').

(** Two stores that agree on every state and, up to the order of the
    entries, on every edge list. *)
Definition similar (h1 h2 : Heap) : Prop :=
  ∀ p,
    match h1 !! p, h2 !! p with
    | Some c1, Some c2 =>
        state c1 = state c2 ∧ slotOutput c1 ≡ₚ slotOutput c2
        ∧ signalInput c1 ≡ₚ signalInput c2
    | None, None => True
    | _, _ => False
    end.

(** ** Programs over the public interface *)

(** One call of a public member function (or a constructor, or the
    destructor) from outside. *)
Inductive op : Set :=
  | Construct (this : nat) (initial_value : Z)
  | CopyConstruct (this sc : nat) (duplicateAll_IO : bool)
  | ConstructIO (this : nat) (inputList outputList : list nat)
  | Destroy (this : nat)
  | EdgeOp (o : edge_op) (this other : nat)
  | AddInputList (this : nat) (inputList : list nat)
  | AddOutputList (this : nat) (outputList : list nat)
  | Tick (this : nat)
  | Emit (this : nat).

Definition run_op (v : Variant) (W fuel : nat) (o : op) (h : Heap) : result Heap :=
  match o with
  | Construct this initial_value => construct W this initial_value h
  | CopyConstruct this sc d => copy_construct v W this sc d h
  | ConstructIO this inputList outputList => construct_io v W this inputList outputList h
  | Destroy this => destroy this h
  | EdgeOp o this other => run_edge_op v o this other h
  | AddInputList this inputList => addInputs v this inputList h
  | AddOutputList this outputList => addOutputs v this outputList h
  | Tick this => '(h', _) ← tick fuel this h; Done h'
  | Emit this => '(h', _) ← emit fuel this h; Done h'
  end.

Fixpoint run_ops (v : Variant) (W fuel : nat) (os : list op) (h : Heap) : result Heap :=
  match os with
  | [] => Done h
  | o :: os' => h' ← run_op v W fuel o h; run_ops v W fuel os' h'
  end.

(** What holds of every store a program can reach. *)
Definition sound (W : nat) (h : Heap) : Prop := well_formed h ∧ valid_states W h.

(** One component given two outputs, one after the other. *)
Definition two_outputs : list op :=
  [Construct 0%nat 0; Construct 1%nat 0; Construct 2%nat 0;
   EdgeOp AddOutput 0%nat 1%nat; EdgeOp AddOutput 0%nat 2%nat].

(** ** Accessors *)

(** [getState], [getIputs], [getOutputs] read a member of a live component;
    [getBitWidth] returns the template argument. *)
Definition getState (h : Heap) (this : nat) : result Z :=
  c ← deref h this; Done (state c).

Definition getIputs (h : Heap) (this : nat) : result (list nat) :=
  c ← deref h this; Done (signalInput c).

Definition getOutputs (h : Heap) (this : nat) : result (list nat) :=
  c ← deref h this; Done (slotOutput c).

Definition getBitWidth (bit_width : nat) : nat := bit_width.

(** ** Further specification-side notions *)

(** How many [emit] calls a trace holds. *)
Definition is_emit (e : event) : bool :=
  match e with
  | EvEmit _ => true
  | EvTick _ => false
  end.

Definition emit_count (t : list event) : nat := length (filter (λ e, is_emit e = true) t).

(** Two stores that agree on every state and in which corresponding edge
    lists have the same members, whatever their order and however often an
    entry is repeated. *)
Definition alike (h1 h2 : Heap) : Prop :=
  ∀ p,
    match h1 !! p, h2 !! p with
    | Some c1, Some c2 =>
        state c1 = state c2
        ∧ (∀ x, x ∈ slotOutput c1 ↔ x ∈ slotOutput c2)
        ∧ (∀ x, x ∈ signalInput c1 ↔ x ∈ signalInput c2)
    | None, None => True
    | _, _ => False
    end.

(** Edges are counted the same from both ends: [a] occurs among the inputs
    of [b] as often as [b] occurs among the outputs of [a]. *)
Definition balanced (h : Heap) : Prop :=
  ∀ a b ca cb, h !! a = Some ca → h !! b = Some cb →
    occurrences a (signalInput cb) = occurrences b (slotOutput ca).

(** The two-component cycle and a three-component chain, as programs. *)
Definition prog_cycle : list op :=
  [Construct 0%nat 1; Construct 1%nat 2;
   EdgeOp AddInput 0%nat 1%nat; EdgeOp AddInput 1%nat 0%nat].

Definition prog_chain : list op :=
  [Construct 0%nat 5; Construct 1%nat 0; Construct 2%nat 0;
   EdgeOp AddInput 1%nat 0%nat; EdgeOp AddInput 2%nat 1%nat].

Definition heap_chain : Heap :=
  <[0%nat := mkComponent 5 [1%nat] []]>
    (<[1%nat := mkComponent 0 [2%nat] [0%nat]]>
       (<[2%nat := mkComponent 0 [] [1%nat]]> ∅)).

(** The chain after the state of its head has run down to the end. *)
Definition heap_chain_settled : Heap :=
  <[0%nat := mkComponent 5 [1%nat] []]>
    (<[1%nat := mkComponent 5 [2%nat] [0%nat]]>
       (<[2%nat := mkComponent 5 [] [1%nat]]> ∅)).

(** The cycle with its edges entered two and three times. *)
Definition heap_pair_dup : Heap :=
  <[0%nat := mkComponent 1 [1%nat; 1%nat] [1%nat; 1%nat; 1%nat]]>
    (<[1%nat := mkComponent 2 [0%nat; 0%nat; 0%nat] [0%nat; 0%nat]]> ∅).

(** * Properties *)

(** ** The outcome monad *)

Lemma bind_Done {A B} (f : A → result B) (m : result A) (b : B) :
  m ≫= f = Done b ↔ ∃ a, m = Done a ∧ f a = Done b.
Proof.
  destruct m; simpl; split; try (intros [? [? ?]]); try discriminate; eauto.
  simplify_eq. done.
Qed.

Lemma bind_Done_l {A B} (f : A → result B) (a : A) : Done a ≫= f = f a.
Proof. reflexivity. Qed.

Lemma deref_Done h p c : deref h p = Done c ↔ h !! p = Some c.
Proof. unfold deref. destruct (h !! p); split; intros; simplify_eq; done. Qed.

Lemma deref_live h p c : h !! p = Some c → deref h p = Done c.
Proof. apply deref_Done. Qed.

Lemma update_Done f p h h' :
  update f p h = Done h' ↔ ∃ c, h !! p = Some c ∧ h' = <[p := f c]> h.
Proof.
  unfold update. rewrite bind_Done. split.
  - intros (c & Hc & Heq). rewrite deref_Done in Hc. exists c. by simplify_eq.
  - intros (c & Hc & ->). exists c. by rewrite (deref_live _ _ c).
Qed.

Lemma update_live f p h c :
  h !! p = Some c → update f p h = Done (<[p := f c]> h).
Proof. intros. apply update_Done. eauto. Qed.

Lemma set_state_id c : set_state (state c) c = c.
Proof. by destruct c. Qed.

(** ** Bit algebra *)

Lemma bits_le_refl a : bits_le a a.
Proof. by intros i. Qed.

Lemma bits_le_trans a b c : bits_le a b → bits_le b c → bits_le a c.
Proof. intros Hab Hbc i Hi. auto. Qed.

Lemma bits_le_lor_l a b : bits_le a (Z.lor a b).
Proof. intros i Hi. rewrite Z.lor_spec, Hi. done. Qed.

Lemma bits_le_lor_r a b : bits_le b (Z.lor a b).
Proof. intros i Hi. rewrite Z.lor_spec, Hi. apply orb_true_r. Qed.

Lemma bits_le_lor a b : bits_le a b ↔ Z.lor b a = b.
Proof.
  split.
  - intros H. apply Z.bits_inj'. intros i _. rewrite Z.lor_spec.
    specialize (H i). destruct (Z.testbit a i), (Z.testbit b i); auto.
    discriminate H; done.
  - intros <-. apply bits_le_lor_r.
Qed.

Lemma bits_le_lub a b c : bits_le a c → bits_le b c → bits_le (Z.lor a b) c.
Proof.
  intros Ha Hb i. rewrite Z.lor_spec. intros [?|?]%orb_true_iff; auto.
Qed.

Lemma bits_le_antisym a b : bits_le a b → bits_le b a → a = b.
Proof.
  intros Hab Hba. apply Z.bits_inj'. intros i _.
  specialize (Hab i). specialize (Hba i).
  destruct (Z.testbit a i), (Z.testbit b i); auto. symmetry; auto.
Qed.

(** ** The merge loop of [tick] *)

Lemma merge_input_live this x h c cx :
  h !! this = Some c → h !! x = Some cx →
  merge_input this x h = Done (<[this := set_state (Z.lor (state c) (state cx)) c]> h).
Proof.
  intros Hc Hx. unfold merge_input. rewrite (deref_live _ _ cx) by done.
  rewrite bind_Done_l. by rewrite (update_live _ _ _ c).
Qed.

(** The loop only ever writes [this->state]; reading [this] itself as an
    input or-s the running value into itself. *)
Lemma merge_loop_acc h this c l acc :
  h !! this = Some c →
  bits_le (state c) acc →
  (∀ p, p ∈ l → is_Some (h !! p)) →
  for_each (merge_input this) l (<[this := set_state acc c]> h) =
  Done (<[this := set_state
        (fold_left (λ a p, Z.lor a (from_option state 0 (h !! p))) l acc) c]> h).
Proof.
  intros Hc. revert acc. induction l as [|x l IH]; intros acc Hacc Hlive; [done|].
  cbn [for_each fold_left].
  assert (Hx : is_Some (h !! x)) by (apply Hlive; left).
  destruct Hx as [cx Hx]. rewrite Hx. cbn [from_option].
  destruct (decide (x = this)) as [->|Hne].
  - rewrite (merge_input_live this this _ (set_state acc c) (set_state acc c))
      by apply lookup_insert_eq.
    rewrite bind_Done_l, insert_insert_eq. cbn [set_state state slotOutput signalInput].
    assert (cx = c) as -> by congruence.
    rewrite Z.lor_diag.
    replace (Z.lor acc (state c)) with acc
      by (symmetry; by apply bits_le_lor).
    apply (IH acc); [done|]. intros p Hp. apply Hlive. by right.
  - rewrite (merge_input_live this x _ (set_state acc c) cx)
      by (by rewrite ?lookup_insert_eq, ?lookup_insert_ne).
    rewrite bind_Done_l, insert_insert_eq. cbn [set_state state slotOutput signalInput].
    apply (IH (Z.lor acc (state cx))).
    + eapply bits_le_trans; [exact Hacc|apply bits_le_lor_l].
    + intros p Hp. apply Hlive. by right.
Qed.

Lemma merge_loop h this c :
  h !! this = Some c →
  (∀ p, p ∈ signalInput c → is_Some (h !! p)) →
  for_each (merge_input this) (signalInput c) h =
  Done (<[this := set_state (merged_state h c) c]> h).
Proof.
  intros Hc Hlive.
  pose proof (merge_loop_acc h this c (signalInput c) (state c) Hc
                (bits_le_refl _) Hlive) as H.
  rewrite set_state_id, insert_id in H by done. exact H.
Qed.

Lemma fold_lor_ge (h : Heap) (l : list nat) acc a :
  bits_le a acc →
  bits_le a (fold_left (λ acc p, Z.lor acc (from_option state 0 (h !! p))) l acc).
Proof.
  revert acc. induction l as [|x l IH]; intros acc Ha; [done|]. simpl. apply IH.
  eapply bits_le_trans; [exact Ha|apply bits_le_lor_l].
Qed.

Lemma merged_state_ge h c : bits_le (state c) (merged_state h c).
Proof. apply fold_lor_ge, bits_le_refl. Qed.

(** ** One call of [tick] and of [emit] *)

Lemma tick_unfold fuel this h c :
  h !! this = Some c →
  (∀ p, p ∈ signalInput c → is_Some (h !! p)) →
  tick (S fuel) this h =
    if decide (state c ≠ merged_state h c) then
      '(h2, t) ← emit fuel this (<[this := set_state (merged_state h c) c]> h);
      Done (h2, EvTick this :: t)
    else Done (h, [EvTick this]).
Proof.
  intros Hc Hlive. cbn [tick]. unfold tick_with.
  rewrite (deref_live _ _ c) by done. rewrite bind_Done_l.
  rewrite merge_loop by done. rewrite bind_Done_l.
  rewrite (deref_live _ _ (set_state (merged_state h c) c)) by apply lookup_insert_eq.
  rewrite bind_Done_l. cbn [set_state state].
  destruct (decide (state c ≠ merged_state h c)) as [Hne|Heq]; [done|].
  apply dec_stable in Heq. rewrite <- Heq, set_state_id, insert_id; done.
Qed.

Lemma emit_with_events tick_ this h h' t :
  emit_with tick_ this h = Done (h', t) → ∃ t', t = EvEmit this :: t'.
Proof.
  unfold emit_with. intros (c & _ & H)%bind_Done.
  apply bind_Done in H as ([h2 t2] & _ & H). simplify_eq. eauto.
Qed.

(** ** Edge-list primitives *)

Lemma elem_of_push v x y l : x ∈ push v y l ↔ x = y ∨ x ∈ l.
Proof.
  destruct v; simpl.
  - rewrite elem_of_app, list_elem_of_singleton. tauto.
  - apply elem_of_cons.
Qed.

Lemma elem_of_list_remove x y l : x ∈ list_remove y l ↔ x ≠ y ∧ x ∈ l.
Proof. unfold list_remove. by rewrite list_elem_of_filter. Qed.

Lemma list_remove_absent x l : x ∉ l → list_remove x l = l.
Proof.
  unfold list_remove. induction l as [|y l IH]; intros Hx; [done|].
  rewrite not_elem_of_cons in Hx. destruct Hx as [Hne Hx].
  rewrite filter_cons_True by done. by rewrite IH.
Qed.

Lemma list_remove_gone x l : x ∉ list_remove x l.
Proof. rewrite elem_of_list_remove. tauto. Qed.

Lemma list_remove_idemp x l : list_remove x (list_remove x l) = list_remove x l.
Proof. apply list_remove_absent, list_remove_gone. Qed.

Lemma push_Permutation v x l : push v x l ≡ₚ x :: l.
Proof. destruct v; simpl; [|done]. by rewrite Permutation_app_comm. Qed.

Lemma two_updates fo fi this s (h : Heap) ct cs :
  h !! this = Some ct → h !! s = Some cs →
  ∃ h', (h1 ← update (λ c, set_slotOutput (fo (slotOutput c)) c) this h;
         update (λ c, set_signalInput (fi (signalInput c)) c) s h1) = Done h'
    ∧ ∀ p, h' !! p = rewire fo fi this s p <$> h !! p.
Proof.
  intros Ht Hs. rewrite (update_live _ _ _ ct) by done. rewrite bind_Done_l.
  destruct (decide (s = this)) as [->|Hne].
  - erewrite update_live by apply lookup_insert_eq. eexists; split; [done|].
    intros p. rewrite insert_insert_eq. destruct (decide (p = this)) as [->|Hp].
    + rewrite lookup_insert_eq, Ht. unfold rewire. simpl.
      by rewrite !decide_True by done.
    + rewrite lookup_insert_ne by done. destruct (h !! p) as [c|]; [|done].
      unfold rewire. simpl. rewrite !decide_False by done. by destruct c.
  - erewrite update_live by (rewrite lookup_insert_ne by done; exact Hs).
    eexists; split; [done|]. intros p.
    destruct (decide (p = s)) as [->|Hps].
    + rewrite lookup_insert_eq, Hs. unfold rewire. simpl.
      rewrite decide_False by done. by rewrite decide_True by done.
    + rewrite lookup_insert_ne by done. destruct (decide (p = this)) as [->|Hpt].
      * rewrite lookup_insert_eq, Ht. unfold rewire. simpl.
        rewrite decide_True by done. by rewrite decide_False by done.
      * rewrite lookup_insert_ne by done. destruct (h !! p) as [c|]; [|done].
        unfold rewire. simpl. rewrite !decide_False by done. by destruct c.
Qed.

Lemma two_updates_inv fo fi this s (h h' : Heap) :
  (h1 ← update (λ c, set_slotOutput (fo (slotOutput c)) c) this h;
   update (λ c, set_signalInput (fi (signalInput c)) c) s h1) = Done h' →
  is_Some (h !! this) ∧ is_Some (h !! s) ∧
  ∀ p, h' !! p = rewire fo fi this s p <$> h !! p.
Proof.
  intros H. pose proof H as H0.
  apply bind_Done in H as (h1 & (ct & Ht & ->)%update_Done & (cs & Hs & ->)%update_Done).
  assert (is_Some (h !! s)) as [cs' Hs'].
  { destruct (decide (s = this)) as [->|Hne]; [by eexists|].
    rewrite lookup_insert_ne in Hs by done. by eexists. }
  split; [by eexists|]. split; [by eexists|].
  destruct (two_updates fo fi this s h ct cs' Ht Hs') as (h'' & Heq & Hl).
  rewrite H0 in Heq. by simplify_eq.
Qed.

Lemma connectSlot_live v this s (h : Heap) :
  is_Some (h !! this) → is_Some (h !! s) →
  ∃ h', connectSlot v this s h = Done h'
    ∧ ∀ p, h' !! p = rewire (push v s) (push v this) this s p <$> h !! p.
Proof. intros [ct Ht] [cs Hs]. by eapply two_updates. Qed.

Lemma connectSlot_inv v this s (h h' : Heap) :
  connectSlot v this s h = Done h' →
  is_Some (h !! this) ∧ is_Some (h !! s) ∧
  ∀ p, h' !! p = rewire (push v s) (push v this) this s p <$> h !! p.
Proof. apply two_updates_inv. Qed.

Lemma disconnectSlot_live this s (h : Heap) :
  is_Some (h !! this) → is_Some (h !! s) →
  ∃ h', disconnectSlot this s h = Done h'
    ∧ ∀ p, h' !! p = rewire (list_remove s) (list_remove this) this s p <$> h !! p.
Proof. intros [ct Ht] [cs Hs]. by eapply two_updates. Qed.

Lemma disconnectSlot_inv this s (h h' : Heap) :
  disconnectSlot this s h = Done h' →
  is_Some (h !! this) ∧ is_Some (h !! s) ∧
  ∀ p, h' !! p = rewire (list_remove s) (list_remove this) this s p <$> h !! p.
Proof. apply two_updates_inv. Qed.

(** ** Invariants of the connection graph under connect and disconnect *)

Lemma rewire_live fo fi this s (h h' : Heap) :
  (∀ p, h' !! p = rewire fo fi this s p <$> h !! p) →
  ∀ p, is_Some (h' !! p) ↔ is_Some (h !! p).
Proof. intros Hl p. by rewrite Hl, fmap_is_Some. Qed.

Lemma rewire_lookup_inv fo fi this s (h h' : Heap) p c' :
  (∀ p, h' !! p = rewire fo fi this s p <$> h !! p) →
  h' !! p = Some c' → ∃ c, h !! p = Some c ∧ c' = rewire fo fi this s p c.
Proof. intros Hl H. rewrite Hl in H. by apply fmap_Some in H. Qed.

Lemma elem_of_rewire_out fo fi this s p c q :
  q ∈ slotOutput (rewire fo fi this s p c) ↔
  (p = this ∧ q ∈ fo (slotOutput c)) ∨ (p ≠ this ∧ q ∈ slotOutput c).
Proof. unfold rewire; simpl. case_decide; naive_solver. Qed.

Lemma elem_of_rewire_in fo fi this s p c q :
  q ∈ signalInput (rewire fo fi this s p c) ↔
  (p = s ∧ q ∈ fi (signalInput c)) ∨ (p ≠ s ∧ q ∈ signalInput c).
Proof. unfold rewire; simpl. case_decide; naive_solver. Qed.

Lemma connect_no_dangling v this s (h h' : Heap) :
  is_Some (h !! this) → is_Some (h !! s) →
  (∀ p, h' !! p = rewire (push v s) (push v this) this s p <$> h !! p) →
  no_dangling h → no_dangling h'.
Proof.
  intros Ht Hs Hl Hnd p c' q Hp Hq.
  destruct (rewire_lookup_inv _ _ _ _ _ _ _ _ Hl Hp) as (c & Hc & ->).
  rewrite (rewire_live _ _ _ _ _ _ Hl).
  rewrite elem_of_rewire_in, elem_of_rewire_out, !elem_of_push in Hq.
  destruct Hq as [[[? [->|?]]|[? ?]]|[[? [->|?]]|[? ?]]]; eauto.
Qed.

Lemma connect_symmetric v this s (h h' : Heap) :
  (∀ p, h' !! p = rewire (push v s) (push v this) this s p <$> h !! p) →
  symmetric h → symmetric h'.
Proof.
  intros Hl Hsym a b ca' cb' Ha Hb.
  destruct (rewire_lookup_inv _ _ _ _ _ _ _ _ Hl Ha) as (ca & Hca & ->).
  destruct (rewire_lookup_inv _ _ _ _ _ _ _ _ Hl Hb) as (cb & Hcb & ->).
  rewrite elem_of_rewire_in, elem_of_rewire_out, !elem_of_push.
  specialize (Hsym a b ca cb Hca Hcb).
  destruct (decide (a = this)), (decide (b = s)); naive_solver.
Qed.

Lemma disconnect_no_dangling this s (h h' : Heap) :
  (∀ p, h' !! p = rewire (list_remove s) (list_remove this) this s p <$> h !! p) →
  no_dangling h → no_dangling h'.
Proof.
  intros Hl Hnd p c' q Hp Hq.
  destruct (rewire_lookup_inv _ _ _ _ _ _ _ _ Hl Hp) as (c & Hc & ->).
  rewrite (rewire_live _ _ _ _ _ _ Hl).
  rewrite elem_of_rewire_in, elem_of_rewire_out, !elem_of_list_remove in Hq.
  apply (Hnd p c q Hc). naive_solver.
Qed.

Lemma disconnect_symmetric this s (h h' : Heap) :
  (∀ p, h' !! p = rewire (list_remove s) (list_remove this) this s p <$> h !! p) →
  symmetric h → symmetric h'.
Proof.
  intros Hl Hsym a b ca' cb' Ha Hb.
  destruct (rewire_lookup_inv _ _ _ _ _ _ _ _ Hl Ha) as (ca & Hca & ->).
  destruct (rewire_lookup_inv _ _ _ _ _ _ _ _ Hl Hb) as (cb & Hcb & ->).
  rewrite elem_of_rewire_in, elem_of_rewire_out, !elem_of_list_remove.
  specialize (Hsym a b ca cb Hca Hcb).
  destruct (decide (a = this)), (decide (b = s)); naive_solver.
Qed.

Lemma rewire_id_eq fo fi this s (h h' : Heap) ct cs :
  (∀ p, h' !! p = rewire fo fi this s p <$> h !! p) →
  h !! this = Some ct → h !! s = Some cs →
  fo (slotOutput ct) = slotOutput ct → fi (signalInput cs) = signalInput cs →
  h' = h.
Proof.
  intros Hl Ht Hs Ho Hi. apply map_eq. intros p. rewrite Hl.
  destruct (h !! p) as [c|] eqn:Hp; [|done]. simpl. f_equal.
  unfold rewire. destruct c as [st o i]; simpl. f_equal.
  - case_decide; [|done]. subst. rewrite Ht in Hp. by simplify_eq.
  - case_decide; [|done]. subst. rewrite Hs in Hp. by simplify_eq.
Qed.

(** ** A single call *)

Lemma tick_without_inputs fuel (h : Heap) this c :
  h !! this = Some c → signalInput c = [] →
  tick (S fuel) this h = Done (h, [EvTick this]).
Proof.
  intros Hc Hin. rewrite (tick_unfold fuel this h c Hc).
  - unfold merged_state. rewrite Hin. simpl. by rewrite decide_False by auto.
  - rewrite Hin. by intros p ?%elem_of_nil.
Qed.

(** C10: a component whose input list is empty keeps its state when ticked
    and does not call [emit], whatever its state and its outputs are: the
    call returns the store it was given, and the only event is the [tick]
    itself. *)
Theorem tick_no_inputs fuel (h : Heap) this c :
  h !! this = Some c → signalInput c = [] →
  ∃ t, tick (S fuel) this h = Done (h, t) ∧ t = [EvTick this] ∧ ∀ p, EvEmit p ∉ t.
Proof.
  intros Hc Hin. exists [EvTick this].
  split; [by apply (tick_without_inputs fuel h this c)|]. split; [done|].
  intros p Hp. apply list_elem_of_singleton in Hp. discriminate.
Qed.

Lemma tick_no_inputs_witness :
  ∃ t, tick 1 0%nat heap_source = Done (heap_source, t) ∧ t = [EvTick 0%nat]
    ∧ ∀ p, EvEmit p ∉ t.
Proof.
  apply (tick_no_inputs 0 heap_source 0%nat (mkComponent 5 [1%nat] [])); reflexivity.
Defined.

(** C1: [tick] keeps the old state as [prev], or-s the state of every input
    into the state, and calls [emit] exactly when the outcome differs from
    [prev]; when it does not differ nothing else happens. *)
Theorem tick_spec fuel (h : Heap) this c :
  h !! this = Some c →
  (∀ p, p ∈ signalInput c → is_Some (h !! p)) →
  let prev := state c in
  let new := merged_state h c in
  (new = prev → tick (S fuel) this h = Done (h, [EvTick this])) ∧
  (new ≠ prev →
     tick (S fuel) this h =
       '(h2, t) ← emit fuel this (<[this := set_state new c]> h);
       Done (h2, EvTick this :: t)) ∧
  (∀ h' t, tick (S fuel) this h = Done (h', t) → (EvEmit this ∈ t ↔ new ≠ prev)).
Proof.
  intros Hc Hlive prev new. rewrite (tick_unfold fuel this h c Hc Hlive).
  fold new. fold prev. destruct (decide (prev ≠ new)) as [Hne|Heq].
  - split; [congruence|]. split; [done|].
    intros h' t ([h2 t2] & He & Heq)%bind_Done. simplify_eq.
    apply emit_with_events in He as [t' ->].
    split; [congruence|]. intros _. right. left.
  - apply dec_stable in Heq. split; [done|]. split; [congruence|].
    intros h' t Ht. simplify_eq. split; [|congruence].
    intros Hin. apply list_elem_of_singleton in Hin. discriminate.
Qed.

Lemma tick_spec_witness :
  ∃ r, tick 3 0%nat heap_pair = Done r ∧ EvEmit 0%nat ∈ r.2.
Proof.
  destruct (tick_spec 2 heap_pair 0%nat (mkComponent 1 [1%nat] [1%nat]))
    as (_ & Hchg & Hiff).
  - reflexivity.
  - intros p Hp. apply list_elem_of_singleton in Hp. subst p. by eexists.
  - eexists. split; [vm_compute; reflexivity|]. simpl.
    eapply Hiff; [vm_compute; reflexivity|]. vm_compute. discriminate.
Defined.

(** C8: [a.removeInput(b)] takes every [b] out of the inputs of [a] and every
    [a] out of the outputs of [b], leaving the other entries as they were;
    it always returns; when neither list held such an entry the store is
    left as it was; a second call changes nothing; [removeOutput] is the
    same operation seen from the other end. *)
Theorem removal_all_and_idempotent (h : Heap) a b ca cb :
  h !! a = Some ca → h !! b = Some cb →
  ∃ h' ca' cb', removeInput a b h = Done h'
    ∧ h' !! a = Some ca' ∧ h' !! b = Some cb'
    ∧ signalInput ca' = list_remove b (signalInput ca)
    ∧ slotOutput cb' = list_remove a (slotOutput cb)
    ∧ (b ∉ signalInput ca') ∧ (a ∉ slotOutput cb')
    ∧ (∀ p, p ≠ a → p ≠ b → h' !! p = h !! p)
    ∧ (b ∉ signalInput ca → a ∉ slotOutput cb → h' = h)
    ∧ removeInput a b h' = Done h'
    ∧ removeOutput b a h = Done h'.
Proof.
  intros Ha Hb.
  destruct (disconnectSlot_live b a h) as (h' & Hrun & Hl); [by eexists..|].
  exists h', (rewire (list_remove a) (list_remove b) b a a ca),
    (rewire (list_remove a) (list_remove b) b a b cb).
  split; [done|]. rewrite !Hl, Ha, Hb. split; [done|]. split; [done|].
  split; [unfold rewire; simpl; by rewrite decide_True by done|].
  split; [unfold rewire; simpl; by rewrite decide_True by done|].
  split; [rewrite elem_of_rewire_in, elem_of_list_remove; naive_solver|].
  split; [rewrite elem_of_rewire_out, elem_of_list_remove; naive_solver|].
  split.
  { intros p Hpa Hpb. rewrite Hl. destruct (h !! p) as [c|]; [|done].
    simpl. unfold rewire. rewrite !decide_False by done. by destruct c. }
  split.
  { intros Hi Ho. eapply rewire_id_eq; eauto using list_remove_absent. }
  split; [|done].
  destruct (disconnectSlot_live b a h') as (h'' & Hrun' & Hl');
    [rewrite Hl, ?Ha, ?Hb; by eexists..|].
  unfold removeInput. rewrite Hrun'. f_equal.
  eapply rewire_id_eq; [exact Hl'|rewrite Hl, Hb; reflexivity|rewrite Hl, Ha; reflexivity|..].
  - unfold rewire; simpl. rewrite decide_True by done. apply list_remove_idemp.
  - unfold rewire; simpl. rewrite decide_True by done. apply list_remove_idemp.
Qed.

Lemma removal_all_and_idempotent_witness :
  ∃ h' ca' cb', removeInput 0%nat 1%nat heap_pair = Done h'
    ∧ h' !! 0%nat = Some ca' ∧ h' !! 1%nat = Some cb'
    ∧ signalInput ca' = [] ∧ slotOutput cb' = []
    ∧ removeInput 0%nat 1%nat h' = Done h'.
Proof.
  destruct (removal_all_and_idempotent heap_pair 0%nat 1%nat
              (mkComponent 1 [1%nat] [1%nat]) (mkComponent 2 [0%nat] [0%nat]))
    as (h' & ca' & cb' & H1 & H2 & H3 & H4 & H5 & _ & _ & _ & _ & H6 & _);
    [reflexivity..|].
  exists h', ca', cb'. by repeat split.
Defined.

(** ** Loops *)

Lemma for_each_inv (I : Heap → Prop) body l (h h' : Heap) :
  (∀ x h1 h2, x ∈ l → I h1 → body x h1 = Done h2 → I h2) →
  I h → for_each body l h = Done h' → I h'.
Proof.
  revert h. induction l as [|x l IH]; intros h Hstep Hh Hrun; simpl in Hrun.
  - by simplify_eq.
  - apply bind_Done in Hrun as (h1 & Hx & Hrest).
    apply (IH h1); [|by eapply Hstep; [left|..]|done].
    intros y h2 h3 Hy. apply Hstep. by right.
Qed.

Lemma for_each_progress (I : Heap → Prop) body l (h : Heap) :
  (∀ x h1, x ∈ l → I h1 → ∃ h2, body x h1 = Done h2 ∧ I h2) →
  I h → ∃ h', for_each body l h = Done h' ∧ I h'.
Proof.
  revert h. induction l as [|x l IH]; intros h Hstep Hh; simpl.
  - eauto.
  - destruct (Hstep x h) as (h1 & -> & Hh1); [left|done|].
    rewrite bind_Done_l. apply IH; [|done].
    intros y h2 Hy. apply Hstep. by right.
Qed.

Lemma emit_loop_inv (I : Heap → Prop) tick_ l (h h' : Heap) t :
  (∀ x h1 h2 t', x ∈ l → I h1 → tick_ x h1 = Done (h2, t') → I h2) →
  I h → emit_loop tick_ l h = Done (h', t) → I h'.
Proof.
  revert h t. induction l as [|x l IH]; intros h t Hstep Hh Hrun; simpl in Hrun.
  - by simplify_eq.
  - apply bind_Done in Hrun as ([h1 t1] & Hx & Hrest).
    apply bind_Done in Hrest as ([h2 t2] & Hrest & Heq). simplify_eq.
    apply (IH h1 t2); [|by eapply Hstep; [left|..]|done].
    intros y h3 h4 t' Hy. apply Hstep. by right.
Qed.

Lemma emit_loop_progress (I : Heap → Prop) tick_ l (h : Heap) :
  (∀ x h1, x ∈ l → I h1 → ∃ h2 t, tick_ x h1 = Done (h2, t) ∧ I h2) →
  I h → ∃ h' t, emit_loop tick_ l h = Done (h', t) ∧ I h'.
Proof.
  revert h. induction l as [|x l IH]; intros h Hstep Hh; simpl.
  - eauto.
  - destruct (Hstep x h) as (h1 & t1 & -> & Hh1); [left|done|].
    rewrite bind_Done_l.
    destruct (IH h1) as (h2 & t2 & -> & Hh2); [|done|].
    { intros y h3 Hy. apply Hstep. by right. }
    rewrite bind_Done_l. eauto.
Qed.

(** ** States only grow *)

Lemma grows_refl h : grows h h.
Proof. intros p. destruct (h !! p); auto using bits_le_refl. Qed.

Lemma grows_trans h1 h2 h3 : grows h1 h2 → grows h2 h3 → grows h1 h3.
Proof.
  intros H12 H23 p. specialize (H12 p). specialize (H23 p).
  destruct (h1 !! p), (h2 !! p), (h3 !! p); try done.
  destruct H12 as (? & ? & ?), H23 as (? & ? & ?).
  repeat split; try congruence. by eapply bits_le_trans.
Qed.

Lemma grows_set_state (h : Heap) p c s :
  h !! p = Some c → bits_le (state c) s → grows h (<[p := set_state s c]> h).
Proof.
  intros Hc Hs q. destruct (decide (q = p)) as [->|Hne].
  - rewrite lookup_insert_eq, Hc. by simpl.
  - rewrite lookup_insert_ne by done. destruct (h !! q); auto using bits_le_refl.
Qed.

Lemma grows_lookup h h' p c :
  grows h h' → h !! p = Some c →
  ∃ c', h' !! p = Some c' ∧ slotOutput c' = slotOutput c
    ∧ signalInput c' = signalInput c ∧ bits_le (state c) (state c').
Proof.
  intros Hg Hc. specialize (Hg p). rewrite Hc in Hg.
  destruct (h' !! p) as [c'|]; [|done]. eauto.
Qed.

Lemma grows_lookup_rev h h' p c' :
  grows h h' → h' !! p = Some c' →
  ∃ c, h !! p = Some c ∧ slotOutput c' = slotOutput c
    ∧ signalInput c' = signalInput c ∧ bits_le (state c) (state c').
Proof.
  intros Hg Hc. specialize (Hg p). rewrite Hc in Hg.
  destruct (h !! p) as [c|]; [|done]. eauto.
Qed.

Lemma grows_live h h' p : grows h h' → is_Some (h' !! p) ↔ is_Some (h !! p).
Proof.
  intros Hg. specialize (Hg p).
  destruct (h !! p), (h' !! p); try done; split; intros [? ?]; done.
Qed.

Lemma merge_input_grows this x (h h' : Heap) :
  merge_input this x h = Done h' → grows h h'.
Proof.
  unfold merge_input. intros (s & _ & (c & Hc & ->)%update_Done)%bind_Done.
  apply grows_set_state; [done|apply bits_le_lor_l].
Qed.

(** Any relation between stores that is a preorder and holds across one
    step of the merge loop holds across [tick], [emit] and sequences of
    [tick]. *)
Section tick_rel.
Variable R : Heap → Heap → Prop.
Hypothesis R_refl : ∀ h, R h h.
Hypothesis R_trans : ∀ h1 h2 h3, R h1 h2 → R h2 h3 → R h1 h3.
Hypothesis R_merge : ∀ (h : Heap) p c x cx,
  h !! p = Some c → h !! x = Some cx →
  R h (<[p := set_state (Z.lor (state c) (state cx)) c]> h).

Lemma merge_input_rel this x (h h' : Heap) :
  merge_input this x h = Done h' → R h h'.
Proof.
  unfold merge_input.
  intros (s & Hs%deref_Done & (c & Hc & ->)%update_Done)%bind_Done.
  by eapply R_merge.
Qed.

Lemma emit_loop_rel tick_ l (h h' : Heap) t :
  (∀ x h1 h2 t', tick_ x h1 = Done (h2, t') → R h1 h2) →
  emit_loop tick_ l h = Done (h', t) → R h h'.
Proof.
  intros Htick Hrun.
  eapply (emit_loop_inv (R h)); [|apply R_refl|exact Hrun].
  intros x h4 h5 t' _ Hh4 Hstep. eapply R_trans; [exact Hh4|].
  by eapply Htick.
Qed.

Lemma tick_rel fuel this (h h' : Heap) t :
  tick fuel this h = Done (h', t) → R h h'.
Proof.
  revert this h h' t. induction fuel as [|fuel IH]; intros this h h' t Hrun; [done|].
  cbn [tick] in Hrun. unfold tick_with in Hrun.
  apply bind_Done in Hrun as (c & Hc & Hrun).
  apply bind_Done in Hrun as (h1 & Hmerge & Hrun).
  apply bind_Done in Hrun as (c1 & Hc1 & Hrun).
  assert (R h h1) as Hg1.
  { eapply (for_each_inv (R h)); [|apply R_refl|exact Hmerge].
    intros x h2 h3 _ Hh2 Hstep. eapply R_trans; [exact Hh2|].
    by eapply merge_input_rel. }
  case_decide; [|by simplify_eq].
  apply bind_Done in Hrun as ([h2 t2] & Hemit & Heq). simplify_eq.
  unfold emit_with in Hemit.
  apply bind_Done in Hemit as (c2 & Hc2 & Hemit).
  apply bind_Done in Hemit as ([h3 t3] & Hloop & Heq). simplify_eq.
  eapply R_trans; [exact Hg1|]. eapply emit_loop_rel; [|exact Hloop].
  intros x h4 h5 t'. apply IH.
Qed.

Lemma emit_rel fuel this (h h' : Heap) t :
  emit fuel this h = Done (h', t) → R h h'.
Proof.
  unfold emit, emit_with. intros (c & Hc & Hemit)%bind_Done.
  apply bind_Done in Hemit as ([h3 t3] & Hloop & Heq). simplify_eq.
  eapply emit_loop_rel; [|exact Hloop]. intros x h4 h5 t'. apply tick_rel.
Qed.

Lemma tick_seq_rel fuel ps (h h' : Heap) t :
  tick_seq fuel ps h = Done (h', t) → R h h'.
Proof.
  intros Hrun. eapply emit_loop_rel; [|exact Hrun].
  intros x h4 h5 t'. apply tick_rel.
Qed.
End tick_rel.

Lemma grows_merge (h : Heap) p c x cx :
  h !! p = Some c → h !! x = Some cx →
  grows h (<[p := set_state (Z.lor (state c) (state cx)) c]> h).
Proof. intros Hc _. apply grows_set_state; [done|apply bits_le_lor_l]. Qed.

Lemma tick_grows fuel this (h h' : Heap) t :
  tick fuel this h = Done (h', t) → grows h h'.
Proof. apply (tick_rel grows grows_refl grows_trans grows_merge). Qed.

Lemma emit_grows fuel this (h h' : Heap) t :
  emit fuel this h = Done (h', t) → grows h h'.
Proof. apply (emit_rel grows grows_refl grows_trans grows_merge). Qed.

Lemma tick_seq_grows fuel ps (h h' : Heap) t :
  tick_seq fuel ps h = Done (h', t) → grows h h'.
Proof. apply (tick_seq_rel grows grows_refl grows_trans grows_merge). Qed.

Lemma grows_no_dangling h h' : grows h h' → no_dangling h → no_dangling h'.
Proof.
  intros Hg Hnd p c' q Hp Hq.
  destruct (grows_lookup_rev _ _ _ _ Hg Hp) as (c & Hc & Ho & Hi & _).
  rewrite Ho, Hi in Hq. rewrite (grows_live _ _ _ Hg). eauto.
Qed.

Lemma grows_symmetric h h' : grows h h' → symmetric h → symmetric h'.
Proof.
  intros Hg Hsym a b ca' cb' Ha Hb.
  destruct (grows_lookup_rev _ _ _ _ Hg Ha) as (ca & Hca & Ho & _ & _).
  destruct (grows_lookup_rev _ _ _ _ Hg Hb) as (cb & Hcb & _ & Hi & _).
  rewrite Ho, Hi. eauto.
Qed.

(** ** Bounded states and the room left to grow *)

Lemma in_range_land W s : 0 ≤ s < 2 ^ Z.of_nat W ↔ Z.land s (Z.ones (Z.of_nat W)) = s.
Proof.
  rewrite Z.land_ones by lia. split.
  - intros H. by apply Z.mod_small.
  - intros <-. apply Z.mod_pos_bound. apply Z.pow_pos_nonneg; lia.
Qed.

Lemma in_range_lor W a b :
  0 ≤ a < 2 ^ Z.of_nat W → 0 ≤ b < 2 ^ Z.of_nat W → 0 ≤ Z.lor a b < 2 ^ Z.of_nat W.
Proof.
  rewrite !in_range_land. intros Ha Hb.
  by rewrite Z.land_lor_distr_l, Ha, Hb.
Qed.

Lemma in_range_high_bits W s i :
  0 ≤ s < 2 ^ Z.of_nat W → Z.of_nat W ≤ i → Z.testbit s i = false.
Proof.
  intros Hs Hi. apply in_range_land in Hs. rewrite <- Hs.
  rewrite Z.land_spec, Z.testbit_ones by lia.
  assert ((i <? Z.of_nat W) = false) as -> by (apply Z.ltb_ge; lia).
  by rewrite !andb_false_r.
Qed.

Lemma bitset_of_range W v : 0 ≤ bitset_of W v < 2 ^ Z.of_nat W.
Proof.
  apply in_range_land. unfold bitset_of.
  by rewrite <- Z.land_assoc, Z.land_diag.
Qed.

Lemma clear_bits_mono W s s' : bits_le s s' → (clear_bits W s' ≤ clear_bits W s)%nat.
Proof.
  intros Hle. unfold clear_bits.
  replace (filter (λ i, Z.testbit s' (Z.of_nat i) = false) (seq 0 W))
    with (filter (λ i, Z.testbit s' (Z.of_nat i) = false)
            (filter (λ i, Z.testbit s (Z.of_nat i) = false) (seq 0 W))).
  { apply length_filter. }
  rewrite list_filter_filter. apply list_filter_iff. intros i. split; [tauto|].
  intros Hi. split; [done|]. specialize (Hle (Z.of_nat i)).
  destruct (Z.testbit s (Z.of_nat i)); [|done]. rewrite Hle in Hi; done.
Qed.

Lemma bits_differ W s s' :
  0 ≤ s < 2 ^ Z.of_nat W → 0 ≤ s' < 2 ^ Z.of_nat W → bits_le s s' → s ≠ s' →
  ∃ i, i ∈ seq 0 W ∧ Z.testbit s (Z.of_nat i) = false ∧ Z.testbit s' (Z.of_nat i) = true.
Proof.
  intros Hs Hs' Hle Hne.
  destruct (decide (Exists (λ i, Z.testbit s (Z.of_nat i) = false
                               ∧ Z.testbit s' (Z.of_nat i) = true) (seq 0 W)))
    as [Hex|Hnex].
  - apply Exists_exists in Hex. naive_solver.
  - exfalso. apply Hne. apply bits_le_antisym; [done|].
    intros i Hi. destruct (decide (0 ≤ i < Z.of_nat W)) as [Hin|Hout].
    + destruct (Z.testbit s i) eqn:Hsi; [done|]. exfalso. apply Hnex.
      apply Exists_exists. exists (Z.to_nat i).
      rewrite elem_of_seq, Z2Nat.id by lia. split; [lia|done].
    + destruct (decide (i < 0)) as [Hneg|Hpos].
      * by rewrite Z.testbit_neg_r in Hi.
      * rewrite (in_range_high_bits W s' i) in Hi by (done || lia). done.
Qed.

Lemma clear_bits_strict W s s' :
  0 ≤ s < 2 ^ Z.of_nat W → 0 ≤ s' < 2 ^ Z.of_nat W → bits_le s s' → s ≠ s' →
  (clear_bits W s' < clear_bits W s)%nat.
Proof.
  intros Hs Hs' Hle Hne.
  destruct (bits_differ W s s' Hs Hs' Hle Hne) as (i & Hi & Hsi & Hs'i).
  unfold clear_bits.
  replace (filter (λ i, Z.testbit s' (Z.of_nat i) = false) (seq 0 W))
    with (filter (λ i, Z.testbit s' (Z.of_nat i) = false)
            (filter (λ i, Z.testbit s (Z.of_nat i) = false) (seq 0 W))).
  { apply (length_filter_lt _ _ i).
    - by apply list_elem_of_filter.
    - by rewrite Hs'i. }
  rewrite list_filter_filter. apply list_filter_iff. intros j. split; [tauto|].
  intros Hj. split; [done|]. specialize (Hle (Z.of_nat j)).
  destruct (Z.testbit s (Z.of_nat j)); [|done]. rewrite Hle in Hj; done.
Qed.

Lemma potential_insert W (h : Heap) p c c' :
  h !! p = Some c →
  (potential W (<[p := c']> h) + clear_bits W (state c)
   = potential W h + clear_bits W (state c'))%nat.
Proof.
  intros Hc. unfold potential.
  rewrite (map_fold_delete_L _ _ p c h); [|intros; lia|done].
  rewrite <- (insert_delete_eq h p c').
  rewrite (map_fold_insert_L _ _ p c' (delete p h));
    [|intros; lia|apply lookup_delete_eq].
  lia.
Qed.

Lemma potential_set_state W (h : Heap) p c s :
  h !! p = Some c → bits_le (state c) s →
  (potential W (<[p := set_state s c]> h) ≤ potential W h)%nat.
Proof.
  intros Hc Hle. pose proof (potential_insert W h p c (set_state s c) Hc) as H.
  pose proof (clear_bits_mono W _ _ Hle). simpl in *. lia.
Qed.

Lemma potential_set_state_strict W (h : Heap) p c s :
  h !! p = Some c → bits_le (state c) s → state c ≠ s →
  0 ≤ state c < 2 ^ Z.of_nat W → 0 ≤ s < 2 ^ Z.of_nat W →
  (potential W (<[p := set_state s c]> h) < potential W h)%nat.
Proof.
  intros Hc Hle Hne Hr Hr'.
  pose proof (potential_insert W h p c (set_state s c) Hc) as H.
  pose proof (clear_bits_strict W _ _ Hr Hr' Hle Hne). simpl in *. lia.
Qed.

Lemma valid_states_insert W (h : Heap) p c :
  valid_states W h → 0 ≤ state c < 2 ^ Z.of_nat W → valid_states W (<[p := c]> h).
Proof.
  intros Hv Hc q d Hq. destruct (decide (q = p)) as [->|Hne].
  - rewrite lookup_insert_eq in Hq. by simplify_eq.
  - rewrite lookup_insert_ne in Hq by done. eauto.
Qed.

Lemma merged_state_range W (h : Heap) c :
  valid_states W h → 0 ≤ state c < 2 ^ Z.of_nat W →
  0 ≤ merged_state h c < 2 ^ Z.of_nat W.
Proof.
  intros Hv. unfold merged_state. generalize (state c) as acc.
  induction (signalInput c) as [|x l IH]; intros acc Hacc; [done|].
  simpl. apply IH. apply in_range_lor; [done|].
  destruct (h !! x) as [cx|] eqn:Hx; simpl; [eauto|].
  split; [done|]. apply Z.pow_pos_nonneg; lia.
Qed.

Lemma settles_refl W h : settles W h h.
Proof. split; [apply grows_refl|]. split; [done|lia]. Qed.

Lemma settles_trans W h1 h2 h3 : settles W h1 h2 → settles W h2 h3 → settles W h1 h3.
Proof.
  intros (? & ? & ?) (? & ? & ?). split; [by eapply grows_trans|].
  split; [auto|lia].
Qed.

Lemma settles_merge W (h : Heap) p c x cx :
  h !! p = Some c → h !! x = Some cx →
  settles W h (<[p := set_state (Z.lor (state c) (state cx)) c]> h).
Proof.
  intros Hc Hx. split; [by eapply grows_merge|]. split.
  - intros Hv. apply valid_states_insert; [done|]. simpl.
    apply in_range_lor; eauto.
  - apply potential_set_state; [done|apply bits_le_lor_l].
Qed.

Lemma tick_settles W fuel this (h h' : Heap) t :
  tick fuel this h = Done (h', t) → settles W h h'.
Proof.
  apply (tick_rel (settles W) (settles_refl W) (settles_trans W) (settles_merge W)).
Qed.

(** ** Every propagation pass ends *)

(** On a store without dangling edges whose states fit [W] bits, a call of
    [tick] returns as soon as the fuel exceeds the number of bits still
    clear in the store: every nested [emit] is paid for by a bit that was
    set. *)
Lemma tick_terminates W fuel this (h : Heap) :
  no_dangling h → valid_states W h → is_Some (h !! this) →
  (potential W h < fuel)%nat →
  ∃ h' t, tick fuel this h = Done (h', t).
Proof.
  revert this h. induction fuel as [|fuel IH]; intros this h Hnd Hv [c Hc] Hpot; [lia|].
  rewrite (tick_unfold fuel this h c Hc) by (intros p Hp; eapply Hnd; eauto).
  case_decide as Hchg; [|eauto].
  set (h1 := <[this := set_state (merged_state h c) c]> h).
  assert (grows h h1) as Hg1 by (apply grows_set_state; [done|apply merged_state_ge]).
  assert (valid_states W h1) as Hv1.
  { apply valid_states_insert; [done|]. simpl. apply merged_state_range; eauto. }
  assert (potential W h1 < potential W h)%nat as Hpot1.
  { apply potential_set_state_strict; eauto using merged_state_ge, merged_state_range. }
  unfold emit, emit_with.
  rewrite (deref_live _ _ (set_state (merged_state h c) c)) by apply lookup_insert_eq.
  rewrite bind_Done_l. cbn [set_state slotOutput].
  destruct (emit_loop_progress
              (λ h', settles W h1 h') (tick fuel) (slotOutput c) h1)
    as (h2 & t2 & -> & _); [|apply settles_refl|].
  - intros x h' Hx (Hg & Hv' & Hp').
    destruct (IH x h') as (h'' & t'' & Hrun).
    + eapply grows_no_dangling; [|exact Hnd]. by eapply grows_trans.
    + auto.
    + rewrite (grows_live h1 h' x Hg), (grows_live h h1 x Hg1). eapply Hnd; eauto.
    + lia.
    + exists h'', t''. split; [done|]. eapply settles_trans; [done|].
      by eapply tick_settles.
  - rewrite !bind_Done_l. eauto.
Qed.

Lemma emit_terminates W fuel this (h : Heap) :
  no_dangling h → valid_states W h → is_Some (h !! this) →
  (potential W h < fuel)%nat →
  ∃ h' t, emit fuel this h = Done (h', t).
Proof.
  intros Hnd Hv [c Hc] Hpot. unfold emit, emit_with.
  rewrite (deref_live _ _ c) by done. rewrite bind_Done_l.
  destruct (emit_loop_progress
              (λ h', settles W h h') (tick fuel) (slotOutput c) h)
    as (h2 & t2 & -> & _); [|apply settles_refl|].
  - intros x h' Hx (Hg & Hv' & Hp').
    destruct (tick_terminates W fuel x h') as (h'' & t'' & Hrun).
    + by eapply grows_no_dangling.
    + auto.
    + rewrite (grows_live h h' x Hg). eapply Hnd; eauto.
    + lia.
    + exists h'', t''. split; [done|]. eapply settles_trans; [done|].
      by eapply tick_settles.
  - rewrite !bind_Done_l. eauto.
Qed.

(** More fuel never changes the outcome of a call that returned. *)
Lemma tick_fuel_mono fuel fuel' this (h : Heap) r :
  (fuel ≤ fuel')%nat → tick fuel this h = Done r → tick fuel' this h = Done r.
Proof.
  revert fuel' this h r. induction fuel as [|fuel IH]; intros fuel' this h r Hle Hrun; [done|].
  destruct fuel' as [|fuel']; [lia|].
  assert (∀ l h r, emit_loop (tick fuel) l h = Done r → emit_loop (tick fuel') l h = Done r)
    as Hloop.
  { induction l as [|x l IHl]; intros h0 r0 Hr; [done|]. simpl in *.
    apply bind_Done in Hr as ([h1 t1] & Hx & Hr).
    apply bind_Done in Hr as ([h2 t2] & Hl & Hr).
    rewrite (IH fuel' x h0 (h1, t1)) by (lia || done). rewrite bind_Done_l.
    rewrite (IHl h1 (h2, t2)) by done. by rewrite bind_Done_l. }
  cbn [tick] in *. unfold tick_with in *.
  apply bind_Done in Hrun as (c & Hc & Hrun). rewrite Hc, bind_Done_l.
  apply bind_Done in Hrun as (h1 & Hmerge & Hrun). rewrite Hmerge, bind_Done_l.
  apply bind_Done in Hrun as (c1 & Hc1 & Hrun). rewrite Hc1, bind_Done_l.
  case_decide; [|done].
  apply bind_Done in Hrun as ([h2 t2] & Hemit & Hrun).
  unfold emit_with in *.
  apply bind_Done in Hemit as (c2 & Hc2 & Hemit). rewrite Hc2, bind_Done_l.
  apply bind_Done in Hemit as ([h3 t3] & Hl & Hemit).
  rewrite (Hloop _ _ _ Hl), bind_Done_l. by simplify_eq.
Qed.

(** ** Sequences of calls *)

(** C5: across any sequence of [tick] calls, on any graph, every component
    is still there afterwards and every bit of its state that was set is
    still set; on a store of [W]-bit states the states still fit [W]
    bits. *)
Theorem tick_never_clears_a_bit W fuel ps (h h' : Heap) t :
  tick_seq fuel ps h = Done (h', t) →
  (∀ p c, h !! p = Some c →
     ∃ c', h' !! p = Some c' ∧
       ∀ i, Z.testbit (state c) i = true → Z.testbit (state c') i = true) ∧
  (valid_states W h → valid_states W h').
Proof.
  intros Hrun. split.
  - intros p c Hc. apply tick_seq_grows in Hrun.
    destruct (grows_lookup _ _ _ _ Hrun Hc) as (c' & Hc' & _ & _ & Hle). eauto.
  - apply (tick_seq_rel (settles W) (settles_refl W) (settles_trans W) (settles_merge W))
      in Hrun. apply Hrun.
Qed.

Lemma tick_never_clears_a_bit_witness :
  ∃ c', ∃ h' t, tick_seq 3 [0%nat; 1%nat] heap_pair = Done (h', t) ∧
    h' !! 0%nat = Some c' ∧ Z.testbit (state c') 0 = true.
Proof.
  destruct (tick_seq 3 [0%nat; 1%nat] heap_pair) as [[h' t]| |] eqn:Hrun;
    [|vm_compute in Hrun; discriminate..].
  destruct (tick_never_clears_a_bit 2 3 [0%nat; 1%nat] heap_pair h' t Hrun)
    as [Hbits _].
  destruct (Hbits 0%nat (mkComponent 1 [1%nat] [1%nat])) as (c' & Hc' & Hb);
    [reflexivity|].
  exists c', h', t. split; [done|]. split; [done|]. by apply Hb.
Defined.

(** ** The destructor *)

Lemma for_each_update (g : Component → Component) l (h : Heap) :
  (∀ c, g (g c) = g c) →
  (∀ p, p ∈ l → is_Some (h !! p)) →
  ∃ h', for_each (update g) l h = Done h' ∧
    ∀ p, h' !! p = (if decide (p ∈ l) then g else id) <$> h !! p.
Proof.
  intros Hg. revert h. induction l as [|x l IH]; intros h Hlive.
  - exists h. split; [done|]. intros p. rewrite decide_False by apply not_elem_of_nil.
    by destruct (h !! p).
  - destruct (Hlive x) as [cx Hx]; [left|]. cbn [for_each].
    rewrite (update_live _ _ _ cx) by done. rewrite bind_Done_l.
    destruct (IH (<[x := g cx]> h)) as (h' & -> & Hl).
    { intros p Hp. destruct (decide (p = x)) as [->|Hne].
      - rewrite lookup_insert_eq. by eexists.
      - rewrite lookup_insert_ne by done. apply Hlive. by right. }
    exists h'. split; [done|]. intros p. rewrite Hl.
    destruct (decide (p = x)) as [->|Hne].
    + rewrite lookup_insert_eq, Hx. simpl. rewrite (decide_True _ _ (list_elem_of_here x l)).
      case_decide; simpl; by rewrite ?Hg.
    + rewrite lookup_insert_ne by done.
      destruct (decide (p ∈ l)) as [Hin|Hnin].
      * by rewrite decide_True by (by right).
      * rewrite decide_False; [done|]. rewrite elem_of_cons. naive_solver.
Qed.

Lemma destroy_spec this (h : Heap) :
  no_dangling h → symmetric h → is_Some (h !! this) →
  ∃ h', destroy this h = Done h' ∧
    ∀ p, h' !! p = if decide (p = this) then None else purge this <$> h !! p.
Proof.
  intros Hnd Hsym [c Hc]. unfold destroy.
  rewrite (deref_live _ _ c) by done. rewrite bind_Done_l.
  set (g_in := λ d, set_signalInput (list_remove this (signalInput d)) d).
  set (g_out := λ d, set_slotOutput (list_remove this (slotOutput d)) d).
  destruct (for_each_update g_in (slotOutput c) h) as (h1 & Hrun1 & Hl1).
  { intros d. unfold g_in. destruct d; simpl. unfold set_signalInput; simpl.
    by rewrite list_remove_idemp. }
  { intros p Hp. eapply Hnd; eauto. }
  change (for_each _ (slotOutput c) h) with (for_each (update g_in) (slotOutput c) h).
  rewrite Hrun1, bind_Done_l.
  assert (∃ c1, h1 !! this = Some c1 ∧
            ∀ p, p ≠ this → p ∈ signalInput c1 ↔ p ∈ signalInput c) as (c1 & Hc1 & Hin1).
  { rewrite Hl1, Hc. eexists. split; [done|]. intros p Hp.
    case_decide; [|done]. unfold g_in; simpl.
    rewrite elem_of_list_remove. naive_solver. }
  rewrite (deref_live _ _ c1) by done. rewrite bind_Done_l.
  destruct (for_each_update g_out (signalInput c1) h1) as (h2 & Hrun2 & Hl2).
  { intros d. unfold g_out. destruct d; simpl. unfold set_slotOutput; simpl.
    by rewrite list_remove_idemp. }
  { intros p Hp. rewrite Hl1, fmap_is_Some.
    destruct (decide (p = this)) as [->|Hne]; [by eexists|].
    apply Hin1 in Hp; [|done]. eapply Hnd; eauto. }
  change (for_each _ (signalInput c1) h1) with (for_each (update g_out) (signalInput c1) h1).
  rewrite Hrun2, bind_Done_l. eexists. split; [done|].
  intros p. destruct (decide (p = this)) as [->|Hne].
  { apply lookup_delete_eq. }
  rewrite lookup_delete_ne by done. rewrite Hl2, Hl1.
  destruct (h !! p) as [d|] eqn:Hd; [|done]. simpl. f_equal.
  pose proof (Hsym this p c d Hc Hd) as Hs1.
  pose proof (Hsym p this d c Hd Hc) as Hs2.
  unfold purge. destruct d as [st o i]; simpl in *.
  destruct (decide (p ∈ slotOutput c)) as [Ho|Ho];
    destruct (decide (p ∈ signalInput c1)) as [Hi|Hi];
    unfold g_in, g_out, set_signalInput, set_slotOutput; simpl; f_equal;
    try (rewrite Hin1 in Hi by done);
    try (symmetry; apply list_remove_absent; naive_solver).
Qed.

Lemma elem_of_purge_out this d q :
  q ∈ slotOutput (purge this d) ↔ q ≠ this ∧ q ∈ slotOutput d.
Proof. apply elem_of_list_remove. Qed.

Lemma elem_of_purge_in this d q :
  q ∈ signalInput (purge this d) ↔ q ≠ this ∧ q ∈ signalInput d.
Proof. apply elem_of_list_remove. Qed.

Lemma purged_lookup_inv this (h h' : Heap) p d' :
  (∀ p, h' !! p = if decide (p = this) then None else purge this <$> h !! p) →
  h' !! p = Some d' → p ≠ this ∧ ∃ d, h !! p = Some d ∧ d' = purge this d.
Proof.
  intros Hl Hp. rewrite Hl in Hp. case_decide; [done|].
  apply fmap_Some in Hp as (d & ? & ?). eauto.
Qed.

Lemma purged_no_dangling this (h h' : Heap) :
  (∀ p, h' !! p = if decide (p = this) then None else purge this <$> h !! p) →
  no_dangling h → no_dangling h'.
Proof.
  intros Hl Hnd p d' q Hp Hq.
  destruct (purged_lookup_inv _ _ _ _ _ Hl Hp) as (Hne & d & Hd & ->).
  rewrite elem_of_purge_in, elem_of_purge_out in Hq.
  rewrite Hl. rewrite decide_False by naive_solver. rewrite fmap_is_Some.
  eapply Hnd; [exact Hd|]. naive_solver.
Qed.

Lemma purged_symmetric this (h h' : Heap) :
  (∀ p, h' !! p = if decide (p = this) then None else purge this <$> h !! p) →
  symmetric h → symmetric h'.
Proof.
  intros Hl Hsym a b ca' cb' Ha Hb.
  destruct (purged_lookup_inv _ _ _ _ _ Hl Ha) as (Hna & ca & Hca & ->).
  destruct (purged_lookup_inv _ _ _ _ _ Hl Hb) as (Hnb & cb & Hcb & ->).
  rewrite elem_of_purge_in, elem_of_purge_out.
  specialize (Hsym a b ca cb Hca Hcb). naive_solver.
Qed.

(** ** Construction *)

Lemma construct_fresh W this v (h : Heap) :
  h !! this = None →
  construct W this v h = Done (<[this := mkComponent (bitset_of W v) [] []]> h).
Proof. intros H. unfold construct. by rewrite H. Qed.

Lemma construct_inv W this v (h h' : Heap) :
  construct W this v h = Done h' →
  h !! this = None ∧ h' = <[this := mkComponent (bitset_of W v) [] []]> h.
Proof. unfold construct. destruct (h !! this); intros; by simplify_eq. Qed.

Lemma fresh_well_formed (h : Heap) this s :
  h !! this = None → well_formed h →
  well_formed (<[this := mkComponent s [] []]> h).
Proof.
  intros Hfresh [Hnd Hsym]. split.
  - intros p c q Hp Hq. destruct (decide (p = this)) as [->|Hne].
    + rewrite lookup_insert_eq in Hp. simplify_eq. simpl in Hq.
      destruct Hq as [Hq|Hq]; by apply elem_of_nil in Hq.
    + rewrite lookup_insert_ne in Hp by done.
      destruct (decide (q = this)) as [->|Hq'].
      * rewrite lookup_insert_eq. by eexists.
      * rewrite lookup_insert_ne by done. eauto.
  - intros a b ca cb Ha Hb.
    destruct (decide (a = this)) as [->|Hna], (decide (b = this)) as [->|Hnb].
    + rewrite lookup_insert_eq in Ha, Hb. by simplify_eq.
    + rewrite lookup_insert_eq in Ha. rewrite lookup_insert_ne in Hb by done.
      simplify_eq. simpl. split; [|by intros ?%elem_of_nil]. intros Hin.
      destruct (Hnd b cb this Hb) as [? ?]; [by left|congruence].
    + rewrite lookup_insert_eq in Hb. rewrite lookup_insert_ne in Ha by done.
      simplify_eq. simpl. split; [by intros ?%elem_of_nil|]. intros Hin.
      destruct (Hnd a ca this Ha) as [? ?]; [by right|congruence].
    + rewrite lookup_insert_ne in Ha, Hb by done. eauto.
Qed.

Lemma empty_well_formed : well_formed (∅ : Heap).
Proof.
  split.
  - intros p c q Hp. by rewrite lookup_empty in Hp.
  - intros a b ca cb Ha. by rewrite lookup_empty in Ha.
Qed.

Lemma connect_well_formed v this s (h h' : Heap) :
  connectSlot v this s h = Done h' → well_formed h → well_formed h'.
Proof.
  intros (Ht & Hs & Hl)%connectSlot_inv [Hnd Hsym]. split.
  - exact (connect_no_dangling v this s h h' Ht Hs Hl Hnd).
  - exact (connect_symmetric v this s h h' Hl Hsym).
Qed.

Lemma disconnect_well_formed this s (h h' : Heap) :
  disconnectSlot this s h = Done h' → well_formed h → well_formed h'.
Proof.
  intros (Ht & Hs & Hl)%disconnectSlot_inv [Hnd Hsym]. split.
  - exact (disconnect_no_dangling this s h h' Hl Hnd).
  - exact (disconnect_symmetric this s h h' Hl Hsym).
Qed.

Lemma grows_well_formed h h' : grows h h' → well_formed h → well_formed h'.
Proof. intros Hg [? ?]. split; eauto using grows_no_dangling, grows_symmetric. Qed.

Lemma push_nil v x : push v x [] = [x].
Proof. by destruct v. Qed.

Lemma build_abc_spec v W a b c sA sB sC :
  a ≠ b → b ≠ c → a ≠ c →
  ∃ h0, build_abc v W a b c sA sB sC = Done h0
    ∧ h0 !! a = Some (mkComponent (bitset_of W sA) [b] [])
    ∧ h0 !! b = Some (mkComponent (bitset_of W sB) [c] [a])
    ∧ h0 !! c = Some (mkComponent (bitset_of W sC) [] [b])
    ∧ well_formed h0.
Proof.
  intros Hab Hbc Hac. unfold build_abc.
  rewrite construct_fresh by apply lookup_empty. rewrite bind_Done_l.
  rewrite construct_fresh by (by rewrite lookup_insert_ne, lookup_empty).
  rewrite bind_Done_l.
  rewrite construct_fresh by (by rewrite !lookup_insert_ne, lookup_empty).
  rewrite bind_Done_l.
  set (h3 := <[c := _]> _).
  assert (h3 !! a = Some (mkComponent (bitset_of W sA) [] [])) as Ha3.
  { unfold h3. by rewrite !lookup_insert_ne, lookup_insert_eq by done. }
  assert (h3 !! b = Some (mkComponent (bitset_of W sB) [] [])) as Hb3.
  { unfold h3. by rewrite lookup_insert_ne, lookup_insert_eq by done. }
  assert (h3 !! c = Some (mkComponent (bitset_of W sC) [] [])) as Hc3.
  { unfold h3. by rewrite lookup_insert_eq. }
  assert (well_formed h3) as Hwf3.
  { unfold h3. repeat apply fresh_well_formed;
      rewrite ?lookup_insert_ne, ?lookup_empty by done; auto using empty_well_formed. }
  unfold addOutput.
  destruct (connectSlot_live v a b h3) as (h4 & Hrun4 & Hl4); [by eexists..|].
  rewrite Hrun4, bind_Done_l.
  destruct (connectSlot_live v b c h4) as (h5 & Hrun5 & Hl5);
    [rewrite Hl4, ?Hb3, ?Hc3; by eexists..|].
  exists h5. split; [done|].
  rewrite !Hl5, !Hl4, Ha3, Hb3, Hc3. unfold rewire; simpl.
  repeat (rewrite ?decide_True by done; rewrite ?decide_False by done).
  rewrite !push_nil. repeat split; try done;
    eapply connect_well_formed; eauto; eapply connect_well_formed; eauto.
Qed.

(** C6: destroying a component severs every edge that touches it.  On any
    well-formed store the destructor of [b] returns, [b] is gone, and no
    remaining component has [b] among its inputs or outputs.  For the graph
    [a → b → c] in particular: afterwards [a] has no outputs, [c] has no
    inputs, and neither [tick] nor [emit] on [a] changes anything. *)
Theorem destructor_disconnects :
  (∀ (h : Heap) b, well_formed h → is_Some (h !! b) →
     ∃ h', destroy b h = Done h' ∧ h' !! b = None ∧ well_formed h' ∧
       ∀ q d, h' !! q = Some d → (b ∉ signalInput d) ∧ (b ∉ slotOutput d)) ∧
  (∀ v W a b c sA sB sC, a ≠ b → b ≠ c → a ≠ c →
     ∃ h0 h1 cA cC, build_abc v W a b c sA sB sC = Done h0 ∧ destroy b h0 = Done h1
       ∧ h1 !! b = None
       ∧ h1 !! a = Some cA ∧ slotOutput cA = []
       ∧ h1 !! c = Some cC ∧ signalInput cC = []
       ∧ ∀ fuel, tick (S fuel) a h1 = Done (h1, [EvTick a])
                 ∧ emit fuel a h1 = Done (h1, [EvEmit a])).
Proof.
  split.
  - intros h b [Hnd Hsym] Hb.
    destruct (destroy_spec b h Hnd Hsym Hb) as (h' & Hrun & Hl).
    exists h'. split; [done|]. split; [by rewrite Hl, decide_True|].
    split; [split; eauto using purged_no_dangling, purged_symmetric|].
    intros q d Hq.
    destruct (purged_lookup_inv _ _ _ _ _ Hl Hq) as (_ & d0 & _ & ->).
    rewrite elem_of_purge_in, elem_of_purge_out. naive_solver.
  - intros v W a b c sA sB sC Hab Hbc Hac.
    destruct (build_abc_spec v W a b c sA sB sC Hab Hbc Hac)
      as (h0 & Hbuild & Ha & Hb & Hc & [Hnd Hsym]).
    destruct (destroy_spec b h0 Hnd Hsym) as (h1 & Hrun & Hl); [by eexists|].
    exists h0, h1, (purge b (mkComponent (bitset_of W sA) [b] [])),
      (purge b (mkComponent (bitset_of W sC) [] [b])).
    assert (h1 !! a = Some (purge b (mkComponent (bitset_of W sA) [b] []))) as Ha1.
    { by rewrite Hl, decide_False, Ha. }
    assert (list_remove b [b] = []) as Hrm.
    { unfold list_remove. by rewrite filter_cons_False, filter_nil by naive_solver. }
    repeat split; try done.
    + by rewrite Hl, decide_True.
    + by rewrite Hl, decide_False, Hc.
    + by eapply tick_without_inputs.
    + unfold emit, emit_with. rewrite (deref_live _ _ _ Ha1).
      rewrite bind_Done_l. simpl. by rewrite Hrm.
Qed.

Lemma destructor_disconnects_witness :
  ∃ h0 h', build_abc DList 8 0%nat 1%nat 2%nat 1 0 0 = Done h0 ∧
    destroy 1%nat h0 = Done h' ∧ h' !! 1%nat = None ∧
    ∀ q d, h' !! q = Some d → (1%nat ∉ signalInput d) ∧ (1%nat ∉ slotOutput d).
Proof.
  destruct destructor_disconnects as [Hgen _].
  destruct (build_abc_spec DList 8 0%nat 1%nat 2%nat 1 0 0)
    as (h0 & Hbuild & Ha & Hb & Hc & Hwf); [lia..|].
  destruct (Hgen h0 1%nat) as (h' & Hrun & Hgone & _ & Hedges);
    [done|by eexists|].
  exists h0, h'. eauto.
Defined.

(** ** The two-component cycle *)

Lemma bitset_of_small W v :
  0 ≤ v < 2 ^ Z.of_nat W → v < 2 ^ size_t_bits → bitset_of W v = v.
Proof.
  intros Hv Hv'. unfold bitset_of. rewrite Z.mod_small by lia.
  by apply in_range_land.
Qed.

Lemma emit_unfold fuel this (h : Heap) c :
  h !! this = Some c →
  emit fuel this h =
    '(h', t) ← emit_loop (tick fuel) (slotOutput c) h; Done (h', EvEmit this :: t).
Proof. intros Hc. unfold emit, emit_with. by rewrite (deref_live _ _ c). Qed.

Lemma build_cycle_spec v W a b :
  a ≠ b → (2 ≤ W)%nat →
  ∃ h0, build_cycle v W a b = Done h0
    ∧ h0 !! a = Some (mkComponent 1 [b] [b])
    ∧ h0 !! b = Some (mkComponent 2 [a] [a])
    ∧ well_formed h0.
Proof.
  intros Hab HW. unfold build_cycle.
  assert (4 ≤ 2 ^ Z.of_nat W) as Hpow.
  { change 4 with (2 ^ 2). apply Z.pow_le_mono_r; lia. }
  rewrite construct_fresh by apply lookup_empty. rewrite bind_Done_l.
  rewrite construct_fresh by (by rewrite lookup_insert_ne, lookup_empty).
  rewrite bind_Done_l.
  rewrite !bitset_of_small by (unfold size_t_bits; lia).
  set (h2 := <[b := _]> _).
  assert (h2 !! a = Some (mkComponent 1 [] [])) as Ha2.
  { unfold h2. by rewrite lookup_insert_ne, lookup_insert_eq by done. }
  assert (h2 !! b = Some (mkComponent 2 [] [])) as Hb2.
  { unfold h2. by rewrite lookup_insert_eq. }
  assert (well_formed h2) as Hwf2.
  { unfold h2. repeat apply fresh_well_formed;
      rewrite ?lookup_insert_ne, ?lookup_empty by done; auto using empty_well_formed. }
  unfold addInput.
  destruct (connectSlot_live v b a h2) as (h3 & Hrun3 & Hl3); [by eexists..|].
  rewrite Hrun3, bind_Done_l.
  destruct (connectSlot_live v a b h3) as (h4 & Hrun4 & Hl4);
    [rewrite Hl3, ?Ha2, ?Hb2; by eexists..|].
  exists h4. split; [done|].
  rewrite !Hl4, !Hl3, Ha2, Hb2. unfold rewire; simpl.
  repeat (rewrite ?decide_True by done; rewrite ?decide_False by done).
  rewrite !push_nil. repeat split; try done;
    eapply connect_well_formed; eauto; eapply connect_well_formed; eauto.
Qed.

(** One pass over a store holding the two-component cycle, started at [x];
    [y] is the other component. *)
Lemma cycle_pass fuel (h0 : Heap) x y sx sy :
  x ≠ y →
  h0 !! x = Some (mkComponent sx [y] [y]) →
  h0 !! y = Some (mkComponent sy [x] [x]) →
  Z.lor sx sy ≠ sx → Z.lor sx sy ≠ sy →
  tick (S (S (S fuel))) x h0 =
    Done (<[y := mkComponent (Z.lor sx sy) [x] [x]]>
            (<[x := mkComponent (Z.lor sx sy) [y] [y]]> h0),
          [EvTick x; EvEmit x; EvTick y; EvEmit y; EvTick x]).
Proof.
  intros Hxy Hx Hy Hnx Hny.
  rewrite (tick_unfold _ x h0 _ Hx).
  2:{ simpl. intros p ->%list_elem_of_singleton. by eexists. }
  unfold merged_state; simpl. rewrite Hy; simpl.
  rewrite decide_True by congruence. unfold set_state; simpl.
  set (h1 := <[x := _]> h0).
  assert (h1 !! x = Some (mkComponent (Z.lor sx sy) [y] [y])) as Hx1
    by apply lookup_insert_eq.
  assert (h1 !! y = Some (mkComponent sy [x] [x])) as Hy1
    by (unfold h1; by rewrite lookup_insert_ne).
  rewrite (emit_unfold _ x h1 _ Hx1). cbn [slotOutput emit_loop].
  rewrite (tick_unfold _ y h1 _ Hy1).
  2:{ simpl. intros p ->%list_elem_of_singleton. by eexists. }
  unfold merged_state; simpl. rewrite Hx1; simpl.
  assert (Z.lor sy (Z.lor sx sy) = Z.lor sx sy) as ->.
  { rewrite Z.lor_comm, <- Z.lor_assoc. by rewrite Z.lor_diag. }
  rewrite decide_True by congruence. unfold set_state; simpl.
  set (h2 := <[y := _]> h1).
  assert (h2 !! y = Some (mkComponent (Z.lor sx sy) [x] [x])) as Hy2
    by apply lookup_insert_eq.
  assert (h2 !! x = Some (mkComponent (Z.lor sx sy) [y] [y])) as Hx2
    by (unfold h2; by rewrite lookup_insert_ne).
  rewrite (emit_unfold _ y h2 _ Hy2). cbn [slotOutput emit_loop].
  rewrite (tick_unfold _ x h2 _ Hx2).
  2:{ simpl. intros p ->%list_elem_of_singleton. by eexists. }
  unfold merged_state; simpl. rewrite Hy2; simpl. rewrite Z.lor_diag.
  rewrite decide_False by auto. by rewrite !bind_Done_l.
Qed.

(** C4: in the cycle of two components seeded with bit 0 and bit 1, a pass
    started by ticking either of them returns, after three nested [tick]
    calls, and leaves both with exactly the bits 0 and 1 set. *)
Theorem cycle_stabilizes v W a b :
  a ≠ b → (2 ≤ W)%nat →
  ∃ h0, build_cycle v W a b = Done h0 ∧
    ∀ start, start = a ∨ start = b →
      ∃ h' t cA cB, (∀ fuel, (3 ≤ fuel)%nat → tick fuel start h0 = Done (h', t))
        ∧ h' !! a = Some cA ∧ h' !! b = Some cB
        ∧ state cA = 3 ∧ state cB = 3
        ∧ (∀ i, Z.testbit (state cA) i = true ↔ i = 0 ∨ i = 1)
        ∧ (∀ fuel p, (0 < fuel)%nat → p = a ∨ p = b →
             tick fuel p h' = Done (h', [EvTick p])).
Proof.
  intros Hab HW.
  destruct (build_cycle_spec v W a b Hab HW) as (h0 & Hbuild & Ha & Hb & Hwf).
  exists h0. split; [done|].
  assert (∀ i, Z.testbit 3 i = true ↔ i = 0 ∨ i = 1) as Hbits.
  { intros i. split.
    - intros Hi. destruct (decide (i < 0)); [by rewrite Z.testbit_neg_r in Hi|].
      destruct (decide (i = 0)); [auto|]. destruct (decide (i = 1)); [auto|].
      rewrite (in_range_high_bits 2 3 i) in Hi by lia. done.
    - by intros [-> | ->]. }
  assert (∀ (h : Heap) x y p fuel, x ≠ y →
            h !! x = Some (mkComponent 3 [y] [y]) →
            h !! y = Some (mkComponent 3 [x] [x]) →
            p = x ∨ p = y → (0 < fuel)%nat →
            tick fuel p h = Done (h, [EvTick p])) as Hfix.
  { intros h x y p [|fuel] Hxy Hx Hy Hp Hfuel; [lia|].
    destruct Hp as [-> | ->].
    - rewrite (tick_unfold _ x h _ Hx).
      2:{ simpl. intros p ->%list_elem_of_singleton. by eexists. }
      unfold merged_state; simpl. rewrite Hy; simpl.
      first [done | by rewrite decide_False by auto].
    - rewrite (tick_unfold _ y h _ Hy).
      2:{ simpl. intros p ->%list_elem_of_singleton. by eexists. }
      unfold merged_state; simpl. rewrite Hx; simpl.
      first [done | by rewrite decide_False by auto]. }
  assert (3 = Z.lor 1 2) as H3 by done.
  intros start [-> | ->].
  - exists (<[b := mkComponent 3 [a] [a]]> (<[a := mkComponent 3 [b] [b]]> h0)),
      [EvTick a; EvEmit a; EvTick b; EvEmit b; EvTick a],
      (mkComponent 3 [b] [b]), (mkComponent 3 [a] [a]).
    assert ((<[b := mkComponent 3 [a] [a]]> (<[a := mkComponent 3 [b] [b]]> h0)) !! a
            = Some (mkComponent 3 [b] [b])) as Ha'
      by (by rewrite lookup_insert_ne, lookup_insert_eq).
    assert ((<[b := mkComponent 3 [a] [a]]> (<[a := mkComponent 3 [b] [b]]> h0)) !! b
            = Some (mkComponent 3 [a] [a])) as Hb'
      by (by rewrite lookup_insert_eq).
    split.
    { intros [|[|[|fuel]]] Hfuel; try lia. rewrite H3.
      by apply (cycle_pass fuel h0 a b 1 2 Hab Ha Hb). }
    repeat split; try done; try apply Hbits.
    intros fuel p Hfuel Hp. by apply (Hfix _ a b).
  - exists (<[a := mkComponent 3 [b] [b]]> (<[b := mkComponent 3 [a] [a]]> h0)),
      [EvTick b; EvEmit b; EvTick a; EvEmit a; EvTick b],
      (mkComponent 3 [b] [b]), (mkComponent 3 [a] [a]).
    assert ((<[a := mkComponent 3 [b] [b]]> (<[b := mkComponent 3 [a] [a]]> h0)) !! a
            = Some (mkComponent 3 [b] [b])) as Ha'
      by (by rewrite lookup_insert_eq).
    assert ((<[a := mkComponent 3 [b] [b]]> (<[b := mkComponent 3 [a] [a]]> h0)) !! b
            = Some (mkComponent 3 [a] [a])) as Hb'
      by (by rewrite lookup_insert_ne, lookup_insert_eq).
    split.
    { intros [|[|[|fuel]]] Hfuel; try lia.
      change 3 with (Z.lor 2 1).
      by apply (cycle_pass fuel h0 b a 2 1 (not_eq_sym Hab) Hb Ha). }
    repeat split; try done; try apply Hbits.
    intros fuel p Hfuel Hp. by apply (Hfix _ a b).
Qed.

Lemma cycle_stabilizes_witness :
  ∃ h0, build_cycle FList 2 0%nat 1%nat = Done h0 ∧
    ∃ h' t cA cB, tick 3 0%nat h0 = Done (h', t)
      ∧ h' !! 0%nat = Some cA ∧ h' !! 1%nat = Some cB
      ∧ state cA = 3 ∧ state cB = 3.
Proof.
  destruct (cycle_stabilizes FList 2 0%nat 1%nat) as (h0 & Hbuild & Hpass);
    [lia|lia|].
  exists h0. split; [done|].
  destruct (Hpass 0%nat) as (h' & t & cA & cB & Hrun & HA & HB & HsA & HsB & _);
    [by left|].
  exists h', t, cA, cB. split; [apply Hrun; lia|done].
Defined.

(** ** Chains *)

Lemma bitset_of_0 W : bitset_of W 0 = 0.
Proof. unfold bitset_of. by rewrite Z.mod_0_l, Z.land_0_l by done. Qed.

Lemma build_chain_spec v W s N :
  ∃ h, build_chain v W s N = Done h ∧
    is_chain h N (λ i, match i with O => bitset_of W s | S _ => 0 end).
Proof.
  induction N as [|n (h & Hrun & Hch)].
  - exists ∅. split; [done|]. intros i. rewrite lookup_empty.
    by rewrite decide_False by lia.
  - cbn [build_chain]. rewrite Hrun, bind_Done_l.
    assert (h !! n = None) as Hfresh by (rewrite Hch; by rewrite decide_False by lia).
    rewrite construct_fresh by done. rewrite bind_Done_l.
    destruct n as [|m].
    + eexists. split; [done|]. intros i. destruct (decide (i = 0%nat)) as [->|Hi].
      * rewrite lookup_insert_eq. rewrite decide_True by lia.
        unfold chain_component. by rewrite decide_False by lia.
      * rewrite lookup_insert_ne by done. rewrite Hch.
        rewrite !decide_False by lia. done.
    + rewrite bitset_of_0. unfold addInput.
      set (h1 := <[S m := _]> h).
      destruct (connectSlot_live v m (S m) h1) as (h2 & Hrun2 & Hl2).
      { unfold h1. rewrite lookup_insert_ne by lia. rewrite Hch.
        rewrite decide_True by lia. by eexists. }
      { unfold h1. rewrite lookup_insert_eq. by eexists. }
      exists h2. split; [done|]. intros i. rewrite Hl2. unfold h1.
      destruct (decide (i = S m)) as [->|Hi].
      * rewrite lookup_insert_eq. simpl. rewrite decide_True by lia.
        unfold rewire, chain_component; simpl.
        rewrite (decide_False (P := S m = m)) by lia.
        rewrite (decide_True (P := S m = S m)) by lia.
        rewrite decide_False by lia. by rewrite push_nil.
      * rewrite lookup_insert_ne by done. rewrite Hch.
        destruct (decide (i < S m)%nat) as [Hlt|Hge].
        -- rewrite decide_True by lia. simpl. f_equal.
           unfold rewire, chain_component; simpl.
           rewrite (decide_False (P := i = S m)) by lia.
           destruct (decide (i = m)) as [->|Him].
           ++ rewrite decide_False by lia. rewrite decide_True by lia.
              by rewrite push_nil.
           ++ destruct (decide (S i < S m)%nat); [|lia].
              by rewrite decide_True by lia.
        -- by rewrite decide_False by lia.
Qed.

Lemma is_chain_set_state (h : Heap) N st k s :
  is_chain h N st → (k < N)%nat →
  is_chain (<[k := set_state s (chain_component N st k)]> h) N
    (λ j, if decide (j = k) then s else st j).
Proof.
  intros Hch Hk i. destruct (decide (i = k)) as [->|Hne].
  - rewrite lookup_insert_eq. rewrite decide_True by done.
    unfold chain_component, set_state; simpl.
    by rewrite (decide_True (P := k = k)) by done.
  - rewrite lookup_insert_ne by done. rewrite Hch. case_decide; [|done].
    unfold chain_component. by rewrite (decide_False (P := i = k)) by done.
Qed.

Lemma is_chain_ext (h : Heap) N st st' :
  is_chain h N st → (∀ i, (i < N)%nat → st i = st' i) → is_chain h N st'.
Proof.
  intros Hch Heq i. rewrite Hch. case_decide; [|done].
  unfold chain_component. by rewrite Heq.
Qed.

(** Ticking component [S k] of a chain whose component [k] holds [s] while
    the [d] components from [S k] on hold nothing: [s] runs down to the
    end, within [d] nested calls. *)
Lemma chain_tick N s d : ∀ k (h : Heap) st fuel,
  is_chain h N st → s ≠ 0 →
  (S k + d = N)%nat → (0 < d)%nat → (d ≤ fuel)%nat →
  st k = s → (∀ j, (k < j < N)%nat → st j = 0) →
  ∃ h' t, tick fuel (S k) h = Done (h', t) ∧
    is_chain h' N (λ j, if decide (k < j)%nat then s else st j).
Proof.
  induction d as [|d IH]; intros k h st fuel Hch Hs Hkd Hd Hfuel Hk Hzero; [lia|].
  destruct fuel as [|fuel]; [lia|].
  assert (S k < N)%nat as Hlt by lia.
  assert (h !! S k = Some (chain_component N st (S k))) as HSk
    by (rewrite Hch; by rewrite decide_True by lia).
  assert (h !! k = Some (chain_component N st k)) as Hk'
    by (rewrite Hch; by rewrite decide_True by lia).
  rewrite (tick_unfold fuel (S k) h _ HSk).
  2:{ simpl. intros p ->%list_elem_of_singleton. by eexists. }
  unfold merged_state. cbn [chain_component signalInput state fold_left].
  rewrite Hk'. cbn [from_option chain_component state].
  rewrite (Hzero (S k)) by lia. rewrite Z.lor_0_l, Hk.
  rewrite decide_True by congruence.
  pose proof (is_chain_set_state h N st (S k) s Hch Hlt) as Hch1.
  set (h1 := <[S k := _]> h) in *.
  rewrite (emit_unfold fuel (S k) h1 (set_state s (chain_component N st (S k))))
    by apply lookup_insert_eq.
  cbn [set_state chain_component slotOutput].
  destruct (decide (S (S k) < N)%nat) as [Hlt2|Hge2].
  - destruct (IH (S k) h1 (λ j, if decide (j = S k) then s else st j) fuel)
      as (h2 & t2 & Hrun2 & Hch2); try done; try lia.
    + by rewrite decide_True.
    + intros j Hj. rewrite decide_False by lia. apply Hzero. lia.
    + cbn [emit_loop]. rewrite Hrun2, !bind_Done_l. eexists _, _. split; [done|].
      eapply is_chain_ext; [exact Hch2|]. intros i Hi. simpl.
      repeat case_decide; try done; lia.
  - cbn [emit_loop]. rewrite !bind_Done_l. eexists _, _. split; [done|].
    eapply is_chain_ext; [exact Hch1|]. intros i Hi. simpl.
    repeat case_decide; try done; lia.
Qed.

(** C3, as the code has it: in a chain [0 → 1 → ... → N-1] whose head was
    constructed with a nonzero state and whose other components hold the
    default state, [tick] on the head changes nothing and calls no [emit]
    (the head has no inputs).  What starts the cascade is [emit] on the
    head: it returns within [N-1] nested [tick] calls and leaves the head's
    state on every one of the [N] components.  After that, [tick] on the
    head still calls no [emit], and a second [emit] on the head goes no
    further than one [tick] of component [1]. *)
Theorem chain_fixed_point v W s N :
  (0 < N)%nat → bitset_of W s ≠ 0 →
  ∃ h0, build_chain v W s N = Done h0 ∧
    (∀ fuel, tick (S fuel) 0%nat h0 = Done (h0, [EvTick 0%nat])) ∧
    ∀ fuel, (N - 1 ≤ fuel)%nat →
      ∃ h1 t, emit fuel 0%nat h0 = Done (h1, t)
        ∧ (∀ i, (i < N)%nat → ∃ c, h1 !! i = Some c ∧ state c = bitset_of W s)
        ∧ (∀ fuel', tick (S fuel') 0%nat h1 = Done (h1, [EvTick 0%nat]))
        ∧ (∀ fuel', emit (S fuel') 0%nat h1 =
             Done (h1, EvEmit 0%nat :: if decide (1 < N)%nat then [EvTick 1%nat] else [])).
Proof.
  intros HN Hs. destruct (build_chain_spec v W s N) as (h0 & Hbuild & Hch).
  exists h0. split; [done|].
  assert (h0 !! 0%nat = Some (chain_component N
            (λ i, match i with O => bitset_of W s | S _ => 0 end) 0%nat)) as H0
    by (rewrite Hch; by rewrite decide_True by lia).
  split; [intros fuel; by eapply tick_without_inputs|].
  intros fuel Hfuel.
  assert (∃ h1 t, emit fuel 0%nat h0 = Done (h1, t) ∧
            is_chain h1 N (λ _, bitset_of W s)) as (h1 & t & Hrun & Hch1).
  { rewrite (emit_unfold fuel 0%nat h0 _ H0). cbn [chain_component slotOutput].
    destruct (decide (1 < N)%nat) as [Hlt|Hge].
    - destruct (chain_tick N (bitset_of W s) (N - 1) 0%nat h0 _ fuel Hch Hs)
        as (h1 & t & Hrun & Hch1); try done; try lia.
      { by intros [|j] Hj; [lia|]. }
      cbn [emit_loop]. rewrite Hrun, !bind_Done_l. eexists _, _. split; [done|].
      eapply is_chain_ext; [exact Hch1|]. intros [|i] Hi; [done|].
      cbv beta. by rewrite decide_True by lia.
    - cbn [emit_loop]. rewrite !bind_Done_l. eexists _, _. split; [done|].
      eapply is_chain_ext; [exact Hch|]. intros [|i] Hi; simpl; [done|lia]. }
  exists h1, t. split; [done|].
  assert (h1 !! 0%nat = Some (chain_component N (λ _, bitset_of W s) 0%nat)) as H0'
    by (rewrite Hch1; by rewrite decide_True by lia).
  split; [|split].
  - intros i Hi. eexists. split; [rewrite Hch1; by rewrite decide_True by lia|done].
  - intros fuel'. by eapply tick_without_inputs.
  - intros fuel'. rewrite (emit_unfold _ 0%nat h1 _ H0'). cbn [chain_component slotOutput].
    destruct (decide (1 < N)%nat) as [Hlt|Hge]; [|done].
    cbn [emit_loop].
    assert (h1 !! 1%nat = Some (chain_component N (λ _, bitset_of W s) 1%nat)) as H1
      by (rewrite Hch1; by rewrite decide_True by lia).
    rewrite (tick_unfold fuel' 1%nat h1 _ H1).
    2:{ simpl. intros p ->%list_elem_of_singleton. by eexists. }
    unfold merged_state. cbn [chain_component signalInput state fold_left].
    rewrite H0'. cbn [from_option chain_component state]. rewrite Z.lor_diag.
    by rewrite decide_False by auto.
Qed.

Lemma chain_fixed_point_witness :
  ∃ h0 h1 t, build_chain DList 8 5 3 = Done h0 ∧ emit 2 0%nat h0 = Done (h1, t) ∧
    ∀ i, (i < 3)%nat → ∃ c, h1 !! i = Some c ∧ state c = 5.
Proof.
  destruct (chain_fixed_point DList 8 5 3) as (h0 & Hbuild & _ & Hpass);
    [lia|by vm_compute|].
  destruct (Hpass 2%nat) as (h1 & t & Hrun & Hall & _); [simpl; lia|].
  exists h0, h1, t. split; [done|]. split; [done|]. exact Hall.
Defined.

(** C3 as stated fails: in the chain [0 → 1] with the head seeded with [1],
    one [tick] on the head returns with component [1] still at zero. *)
Lemma chain_tick_on_head_counterexample :
  ∃ h0 c0 c1, build_chain DList 8 1 2 = Done h0 ∧
    tick 2 0%nat h0 = Done (h0, [EvTick 0%nat]) ∧
    h0 !! 0%nat = Some c0 ∧ h0 !! 1%nat = Some c1 ∧
    state c0 = 1 ∧ state c1 = 0 ∧ state c1 ≠ state c0.
Proof.
  eexists _, _, _. split; [vm_compute; reflexivity|].
  split; [vm_compute; reflexivity|]. split; [vm_compute; reflexivity|].
  split; [vm_compute; reflexivity|]. by vm_compute.
Qed.

(** ** Replaying connections: the loops of the copy constructor *)

Lemma occurrences_cons p x l :
  occurrences p (x :: l) = if decide (x = p) then S (occurrences p l) else occurrences p l.
Proof.
  unfold occurrences. case_decide.
  - by rewrite filter_cons_True.
  - by rewrite filter_cons_False.
Qed.

Lemma occurrences_0 p l : occurrences p l = 0%nat ↔ p ∉ l.
Proof.
  induction l as [|x l IH].
  - split; [intros _; apply not_elem_of_nil|done].
  - rewrite occurrences_cons, not_elem_of_cons. case_decide; [|naive_solver].
    split; [lia|naive_solver].
Qed.

Lemma iter_push_comm v x n l :
  Nat.iter n (push v x) (push v x l) = push v x (Nat.iter n (push v x) l).
Proof. induction n as [|n IH]; [done|]. simpl. by rewrite IH. Qed.

Lemma elem_of_iter_push v x n l q :
  q ∈ Nat.iter n (push v x) l ↔ q ∈ l ∨ (q = x ∧ (0 < n)%nat).
Proof.
  induction n as [|n IH]; simpl.
  - split; [auto|]. intros [?|[_ ?]]; [done|lia].
  - rewrite elem_of_push, IH. split; [|naive_solver].
    intros [->|[?|[-> ?]]]; auto with lia.
Qed.

Lemma elem_of_push_all v xs l q : q ∈ push_all v xs l ↔ q ∈ xs ∨ q ∈ l.
Proof.
  unfold push_all. revert l. induction xs as [|x xs IH]; intros l; simpl.
  - rewrite elem_of_nil. tauto.
  - rewrite IH, elem_of_push, elem_of_cons. tauto.
Qed.

Lemma push_all_DList xs l : push_all DList xs l = l ++ xs.
Proof.
  unfold push_all. revert l. induction xs as [|x xs IH]; intros l; simpl.
  - by rewrite app_nil_r.
  - by rewrite IH, <- app_assoc.
Qed.

Lemma push_all_FList xs l : push_all FList xs l = reverse xs ++ l.
Proof.
  unfold push_all. revert l. induction xs as [|x xs IH]; intros l; simpl; [done|].
  by rewrite IH, reverse_cons, <- app_assoc.
Qed.

Lemma push_all_Permutation v xs l : push_all v xs l ≡ₚ xs ++ l.
Proof.
  destruct v.
  - rewrite push_all_DList. apply Permutation_app_comm.
  - rewrite push_all_FList. by rewrite reverse_Permutation.
Qed.

Lemma for_each_addInput v this l (h : Heap) :
  is_Some (h !! this) → (∀ p, p ∈ l → is_Some (h !! p)) →
  ∃ h', for_each (λ sender, addInput v this sender) l h = Done h' ∧
    ∀ p, h' !! p = conn_inputs v this l p <$> h !! p.
Proof.
  revert h. induction l as [|x l IH]; intros h Hthis Hlive.
  - exists h. split; [done|]. intros p. destruct (h !! p) as [c|]; [|done].
    simpl. f_equal. unfold conn_inputs; simpl. destruct c; simpl.
    by case_decide.
  - cbn [for_each].
    destruct (connectSlot_live v x this h) as (h1 & Hrun1 & Hl1); [apply Hlive; left|done|].
    change (addInput v this x h) with (connectSlot v x this h).
    rewrite Hrun1, bind_Done_l.
    destruct (IH h1) as (h2 & Hrun & Hl2).
    { by rewrite Hl1, fmap_is_Some. }
    { intros p Hp. rewrite Hl1, fmap_is_Some. apply Hlive. by right. }
    exists h2. split; [done|]. intros p. rewrite Hl2, Hl1.
    destruct (h !! p) as [c|]; [|done]. simpl. f_equal.
    unfold conn_inputs, rewire; simpl. rewrite occurrences_cons. f_equal.
    + destruct (decide (p = x)) as [->|Hne].
      * rewrite decide_True by done. simpl. by rewrite iter_push_comm.
      * by rewrite decide_False by done.
    + by case_decide.
Qed.

Lemma for_each_addOutput v this l (h : Heap) :
  is_Some (h !! this) → (∀ p, p ∈ l → is_Some (h !! p)) →
  ∃ h', for_each (λ connection, addOutput v this connection) l h = Done h' ∧
    ∀ p, h' !! p = conn_outputs v this l p <$> h !! p.
Proof.
  revert h. induction l as [|x l IH]; intros h Hthis Hlive.
  - exists h. split; [done|]. intros p. destruct (h !! p) as [c|]; [|done].
    simpl. f_equal. unfold conn_outputs; simpl. destruct c; simpl.
    by case_decide.
  - cbn [for_each].
    destruct (connectSlot_live v this x h) as (h1 & Hrun1 & Hl1); [done|apply Hlive; left|].
    change (addOutput v this x h) with (connectSlot v this x h).
    rewrite Hrun1, bind_Done_l.
    destruct (IH h1) as (h2 & Hrun & Hl2).
    { by rewrite Hl1, fmap_is_Some. }
    { intros p Hp. rewrite Hl1, fmap_is_Some. apply Hlive. by right. }
    exists h2. split; [done|]. intros p. rewrite Hl2, Hl1.
    destruct (h !! p) as [c|]; [|done]. simpl. f_equal.
    unfold conn_outputs, rewire; simpl. rewrite occurrences_cons. f_equal.
    + by case_decide.
    + destruct (decide (p = x)) as [->|Hne].
      * rewrite decide_True by done. simpl. by rewrite iter_push_comm.
      * by rewrite decide_False by done.
Qed.

Lemma for_each_connect_well_formed v (f : nat → nat * nat) l (h h' : Heap) :
  for_each (λ x, connectSlot v (f x).1 (f x).2) l h = Done h' →
  well_formed h → well_formed h'.
Proof.
  intros Hrun Hwf. eapply (for_each_inv well_formed); [|exact Hwf|exact Hrun].
  intros x h1 h2 _ Hwf1 Hstep.
  exact (connect_well_formed v (f x).1 (f x).2 h1 h2 Hstep Hwf1).
Qed.

Lemma addInputs_well_formed v this l (h h' : Heap) :
  for_each (λ sender, addInput v this sender) l h = Done h' →
  well_formed h → well_formed h'.
Proof. apply (for_each_connect_well_formed v (λ x, (x, this))). Qed.

Lemma addOutputs_well_formed v this l (h h' : Heap) :
  for_each (λ connection, addOutput v this connection) l h = Done h' →
  well_formed h → well_formed h'.
Proof. apply (for_each_connect_well_formed v (λ x, (this, x))). Qed.

Lemma occurrences_pos p l : (0 < occurrences p l)%nat ↔ p ∈ l.
Proof.
  pose proof (occurrences_0 p l) as H. destruct (decide (p ∈ l)) as [Hin|Hnin].
  - split; [done|]. intros _. destruct (occurrences p l); [|lia].
    exfalso. by apply H.
  - split; [|done]. intros Hpos. apply H in Hnin. lia.
Qed.

Lemma rewire_other fo fi this s p c : p ≠ this → p ≠ s → rewire fo fi this s p c = c.
Proof.
  intros H1 H2. unfold rewire. rewrite !decide_False by done. by destruct c.
Qed.

Lemma copy_construct_spec v W this sc dup (h : Heap) src :
  no_dangling h → h !! sc = Some src → h !! this = None →
  ∃ h', copy_construct v W this sc dup h = Done h' ∧
    ∀ p, h' !! p =
      (λ c, let c1 := conn_inputs v this (signalInput src) p c in
            if dup then
              conn_outputs v this
                (slotOutput (conn_inputs v this (signalInput src) sc src)) p c1
            else c1) <$> <[this := mkComponent 0 [] []]> h !! p.
Proof.
  intros Hnd Hsc Hfresh. unfold copy_construct.
  rewrite construct_fresh by done. rewrite bitset_of_0, bind_Done_l.
  set (h0 := <[this := _]> h).
  assert (sc ≠ this) as Hne by congruence.
  assert (h0 !! sc = Some src) as Hsc0 by (unfold h0; by rewrite lookup_insert_ne).
  rewrite (deref_live _ _ _ Hsc0), bind_Done_l.
  destruct (for_each_addInput v this (signalInput src) h0) as (h1 & -> & Hl1).
  { unfold h0. rewrite lookup_insert_eq. by eexists. }
  { intros p Hp. unfold h0. destruct (decide (p = this)) as [->|Hp'].
    - rewrite lookup_insert_eq. by eexists.
    - rewrite lookup_insert_ne by done. eapply Hnd; eauto. }
  rewrite bind_Done_l. destruct dup; [|by eexists].
  assert (h1 !! sc = Some (conn_inputs v this (signalInput src) sc src)) as Hsc1
    by (by rewrite Hl1, Hsc0).
  rewrite (deref_live _ _ _ Hsc1), bind_Done_l.
  destruct (for_each_addOutput v this
              (slotOutput (conn_inputs v this (signalInput src) sc src)) h1)
    as (h2 & -> & Hl2).
  { rewrite Hl1, fmap_is_Some. unfold h0. rewrite lookup_insert_eq. by eexists. }
  { intros p Hp. rewrite Hl1, fmap_is_Some. unfold h0.
    destruct (decide (p = this)) as [->|Hp'].
    - rewrite lookup_insert_eq. by eexists.
    - rewrite lookup_insert_ne by done.
      unfold conn_inputs in Hp; simpl in Hp. apply elem_of_iter_push in Hp.
      destruct Hp as [Hp|[? _]]; [|done]. eapply Hnd; eauto. }
  exists h2. split; [done|]. intros p. rewrite Hl2, Hl1.
  by destruct (h0 !! p).
Qed.

Lemma copy_construct_well_formed v W this sc dup (h h' : Heap) :
  copy_construct v W this sc dup h = Done h' → well_formed h → well_formed h'.
Proof.
  unfold copy_construct. intros (h0 & [Hfresh ->]%construct_inv & Hrun)%bind_Done Hwf.
  apply bind_Done in Hrun as (src & _ & Hrun).
  apply bind_Done in Hrun as (h1 & Hloop1 & Hrun).
  assert (well_formed h1) as Hwf1.
  { eapply addInputs_well_formed; [exact Hloop1|]. by apply fresh_well_formed. }
  destruct dup; [|by simplify_eq].
  apply bind_Done in Hrun as (src' & _ & Hloop2).
  by eapply addOutputs_well_formed.
Qed.

(** C7, as the code has it.  Copy-constructing [D] from [A]:
    - [D] starts from the zero state whatever the state of [A];
    - every input of [A] gains [D] as an output, and (for an inputs-only
      copy, or when [A] is not its own input) the inputs of [D] are those
      of [A], in the same order for the [std::list] variant and in reverse
      order for the [std::forward_list] variant;
    - the outputs of [A] gain [D] exactly when [A] is one of its own
      inputs, whether or not the outputs were asked to be duplicated; when
      [A] is not its own input, [A] is left as it was, and duplicating the
      outputs gives [D] the outputs of [A] and gives each of them [D] as an
      input;
    - later edge operations on [D] that do not name [A] leave [A] as it
      is: the lists of [D] are its own. *)
Theorem copy_semantics v W (h : Heap) A D ca dup :
  well_formed h → h !! A = Some ca → h !! D = None →
  ∃ h' cd ca', copy_construct v W D A dup h = Done h'
    ∧ h' !! D = Some cd ∧ h' !! A = Some ca'
    ∧ well_formed h'
    ∧ state cd = 0
    ∧ (∀ s, s ∈ signalInput ca → ∃ cs, h' !! s = Some cs ∧ D ∈ slotOutput cs)
    ∧ (dup = false ∨ A ∉ signalInput ca →
         signalInput cd = match v with
                          | DList => signalInput ca
                          | FList => reverse (signalInput ca)
                          end)
    ∧ (D ∈ slotOutput ca' ↔ A ∈ signalInput ca)
    ∧ (A ∉ signalInput ca →
         ca' = ca ∧
         slotOutput cd = if dup then match v with
                                     | DList => slotOutput ca
                                     | FList => reverse (slotOutput ca)
                                     end
                         else [])
    ∧ (dup = true → ∀ x, x ∈ slotOutput ca → ∃ cx, h' !! x = Some cx ∧ D ∈ signalInput cx)
    ∧ (∀ o x h'', x ≠ A → run_edge_op v o D x h' = Done h'' → h'' !! A = Some ca').
Proof.
  intros [Hnd Hsym] HA HD.
  destruct (copy_construct_spec v W D A dup h ca Hnd HA HD) as (h' & Hrun & Hl).
  assert (A ≠ D) as HAD by congruence.
  assert (∀ q, q ∈ signalInput ca ∨ q ∈ slotOutput ca → q ≠ D) as Hfresh.
  { intros q Hq ->. destruct (Hnd A ca D HA Hq) as [? ?]. congruence. }
  assert (occurrences D (signalInput ca) = 0%nat) as HoccD.
  { apply occurrences_0. intros Hin. by apply (Hfresh D); [left|]. }
  assert (A ∈ slotOutput ca ↔ A ∈ signalInput ca) as Hself.
  { symmetry. by apply (Hsym A A ca ca). }
  set (L2 := slotOutput (conn_inputs v D (signalInput ca) A ca)) in *.
  assert (∀ q, q ∈ L2 ↔ q ∈ slotOutput ca ∨ (q = D ∧ A ∈ signalInput ca)) as HL2.
  { intros q. unfold L2, conn_inputs; simpl.
    by rewrite elem_of_iter_push, occurrences_pos. }
  pose proof (Hl D) as HlD. rewrite lookup_insert_eq in HlD. simpl in HlD.
  pose proof (Hl A) as HlA. rewrite lookup_insert_ne, HA in HlA by done. simpl in HlA.
  eexists h', _, _. split; [done|]. split; [exact HlD|]. split; [exact HlA|].
  split; [eapply copy_construct_well_formed; [exact Hrun|by split]|].
  split; [by destruct dup|]. split.
  { intros s Hs. assert (s ≠ D) as HsD by (apply Hfresh; by left).
    destruct (Hnd A ca s HA) as [cs Hcs]; [by left|].
    rewrite Hl, lookup_insert_ne, Hcs by done. simpl. eexists. split; [done|].
    assert (D ∈ slotOutput (conn_inputs v D (signalInput ca) s cs)) as Hin.
    { unfold conn_inputs; simpl. rewrite elem_of_iter_push, occurrences_pos. auto. }
    destruct dup; [|done]. unfold conn_outputs; simpl.
    by rewrite decide_False by done. }
  split.
  { intros Hcase.
    assert (signalInput (conn_inputs v D (signalInput ca) D (mkComponent 0 [] []))
            = match v with DList => signalInput ca | FList => reverse (signalInput ca) end)
      as Hin1.
    { unfold conn_inputs; simpl. rewrite decide_True by done.
      destruct v; [by rewrite push_all_DList|by rewrite push_all_FList, app_nil_r]. }
    destruct dup; [|done]. destruct Hcase as [?|Hno]; [done|].
    unfold conn_outputs; cbn [signalInput]. rewrite <- Hin1.
    assert (occurrences D L2 = 0%nat) as ->; [|done].
    apply occurrences_0. rewrite HL2. intros [Hin|[_ ?]]; [|done].
    by apply (Hfresh D); [right|]. }
  split.
  { assert (D ∈ slotOutput (conn_inputs v D (signalInput ca) A ca)
            ↔ A ∈ signalInput ca) as Hgain.
    { fold L2. rewrite HL2. split; [|auto]. intros [Hin|[_ ?]]; [|done].
      exfalso. by apply (Hfresh D); [right|]. }
    destruct dup; [|done]. unfold conn_outputs; cbn [slotOutput].
    by rewrite decide_False by done. }
  split.
  { intros Hno.
    assert (conn_inputs v D (signalInput ca) A ca = ca) as Hca1.
    { unfold conn_inputs. rewrite decide_False by done.
      assert (occurrences A (signalInput ca) = 0%nat) as -> by (by apply occurrences_0).
      by destruct ca. }
    assert (L2 = slotOutput ca) as HL2' by (unfold L2; by rewrite Hca1).
    assert (slotOutput (conn_inputs v D (signalInput ca) D (mkComponent 0 [] [])) = [])
      as Hout1.
    { unfold conn_inputs; simpl. by rewrite HoccD. }
    destruct dup; [|by rewrite Hca1, Hout1].
    rewrite Hca1, HL2'. split.
    - unfold conn_outputs. rewrite decide_False by done.
      assert (occurrences A (slotOutput ca) = 0%nat) as ->.
      { apply occurrences_0. by rewrite Hself. }
      by destruct ca.
    - unfold conn_outputs; cbn [slotOutput]. rewrite decide_True by done.
      rewrite Hout1.
      destruct v; [by rewrite push_all_DList|by rewrite push_all_FList, app_nil_r]. }
  split.
  { intros -> x Hx. assert (x ≠ D) as HxD by (apply Hfresh; by right).
    destruct (Hnd A ca x HA) as [cx Hcx]; [by right|].
    rewrite Hl, lookup_insert_ne, Hcx by done. simpl. eexists. split; [done|].
    unfold conn_outputs; cbn [signalInput].
    rewrite elem_of_iter_push, occurrences_pos, HL2. auto. }
  intros o x h'' HxA Hop.
  assert (∃ fo fi this s, this ≠ A ∧ s ≠ A ∧
            ∀ p, h'' !! p = rewire fo fi this s p <$> h' !! p)
    as (fo & fi & this & s & Hth & Hs & Hl'').
  { destruct o; simpl in Hop.
    - apply connectSlot_inv in Hop as (_ & _ & Hl''). eauto 10.
    - apply connectSlot_inv in Hop as (_ & _ & Hl''). eauto 10.
    - apply disconnectSlot_inv in Hop as (_ & _ & Hl''). eauto 10.
    - apply disconnectSlot_inv in Hop as (_ & _ & Hl''). eauto 10. }
  rewrite Hl'', HlA. simpl. by rewrite rewire_other by done.
Qed.

Lemma copy_semantics_witness :
  ∃ h0 h' cd, build_abc FList 8 0%nat 1%nat 2%nat 1 6 0 = Done h0 ∧
    copy_construct FList 8 3%nat 1%nat false h0 = Done h' ∧
    h' !! 3%nat = Some cd ∧ state cd = 0 ∧ signalInput cd = [0%nat] ∧ slotOutput cd = [].
Proof.
  destruct (build_abc_spec FList 8 0%nat 1%nat 2%nat 1 6 0)
    as (h0 & Hbuild & Ha & Hb & Hc & Hwf); [lia..|].
  destruct (copy_semantics FList 8 h0 1%nat 3%nat _ false Hwf Hb)
    as (h' & cd & ca' & Hrun & HD & _ & _ & Hst & _ & Hin & _ & Hout & _).
  { vm_compute in Hbuild. simplify_eq. reflexivity. }
  exists h0, h', cd. split; [done|]. split; [done|]. split; [done|]. split; [done|].
  split.
  - rewrite Hin by auto. done.
  - destruct Hout as [_ ->]; [|done]. simpl. by intros ?%list_elem_of_singleton.
Defined.

(** C7 as stated fails: a component that is its own input gets the copy
    among its outputs although only the inputs were duplicated. *)
Lemma copy_of_self_loop_counterexample :
  ∃ h h' ca ca', build_self_loop DList 8 0%nat 7 = Done h ∧
    copy_construct DList 8 1%nat 0%nat false h = Done h' ∧
    h !! 0%nat = Some ca ∧ h' !! 0%nat = Some ca' ∧
    slotOutput ca = [0%nat] ∧ slotOutput ca' = [0%nat; 1%nat] ∧ ca' ≠ ca.
Proof.
  eexists _, _, _, _. split; [vm_compute; reflexivity|].
  split; [vm_compute; reflexivity|]. split; [vm_compute; reflexivity|].
  split; [vm_compute; reflexivity|]. by vm_compute.
Qed.

(** ** The outcome of a pass does not depend on the order of the lists *)

Lemma states_of_lookup (h : Heap) p c : h !! p = Some c → states_of h p = state c.
Proof. unfold states_of. by intros ->. Qed.

Lemma grows_states h h' p : grows h h' → bits_le (states_of h p) (states_of h' p).
Proof.
  intros Hg. specialize (Hg p). unfold states_of.
  destruct (h !! p), (h' !! p); try done; [naive_solver|apply bits_le_refl].
Qed.

Lemma closed_at_grows h h' σ y : grows h h' → closed_at h σ y ↔ closed_at h' σ y.
Proof.
  intros Hg. split; intros Hcl cy x Hy Hx.
  - destruct (grows_lookup_rev _ _ _ _ Hg Hy) as (c & Hc & _ & Hi & _).
    rewrite Hi in Hx. eauto.
  - destruct (grows_lookup _ _ _ _ Hg Hy) as (c & Hc & _ & Hi & _).
    rewrite <- Hi in Hx. eauto.
Qed.

Lemma merged_state_input_le (h : Heap) c x :
  x ∈ signalInput c → bits_le (states_of h x) (merged_state h c).
Proof.
  unfold merged_state. generalize (state c) as acc.
  induction (signalInput c) as [|z l IH]; intros acc Hx; [by apply elem_of_nil in Hx|].
  simpl. apply elem_of_cons in Hx as [->|Hx]; [|by apply IH].
  apply fold_lor_ge, bits_le_lor_r.
Qed.

Lemma merged_state_lub (h : Heap) c u :
  bits_le (state c) u →
  (∀ x, x ∈ signalInput c → bits_le (states_of h x) u) →
  bits_le (merged_state h c) u.
Proof.
  unfold merged_state. generalize (state c) as acc.
  induction (signalInput c) as [|z l IH]; intros acc Hacc Hin; [done|].
  simpl. apply IH.
  - apply bits_le_lub; [done|]. apply Hin. left.
  - intros x Hx. apply Hin. by right.
Qed.

Lemma states_of_insert (h : Heap) p c q :
  states_of (<[p := c]> h) q = if decide (q = p) then state c else states_of h q.
Proof.
  unfold states_of. case_decide as Hq.
  - subst. by rewrite lookup_insert_eq.
  - by rewrite lookup_insert_ne.
Qed.

(** A component that was closed stays closed across a pass: an input that
    changed has, by symmetry, the component among its outputs. *)
Lemma pass_keeps_closed (h h' : Heap) T y :
  well_formed h → pass h T h' →
  closed_at h (states_of h) y → closed_at h (states_of h') y.
Proof.
  intros [Hnd Hsym] [Hg (_ & _ & Hchg)] Hcl cy x Hy Hx.
  destruct (Hnd y cy x Hy) as [cx Hcx]; [by left|].
  destruct (decide (states_of h' x = states_of h x)) as [Heq|Hne].
  - rewrite Heq. eapply bits_le_trans; [by eapply Hcl|]. by apply grows_states.
  - eapply (Hchg x cx y); [done|done| |done|done].
    by apply (Hsym x y cx cy).
Qed.

Lemma pass_nil h : pass h [] h.
Proof.
  split; [apply grows_refl|]. split; [intros p; apply bits_le_refl|].
  split; [by intros y ?%elem_of_nil|]. by intros x cx y _ Hne.
Qed.

Lemma pass_seq (h h1 h2 : Heap) T1 T2 :
  well_formed h → pass h T1 h1 → pass h1 T2 h2 → pass h (T1 ++ T2) h2.
Proof.
  intros Hwf H1 H2.
  pose proof H1 as [Hg1 (_ & HT1 & Hc1)]. pose proof H2 as [Hg2 (_ & HT2 & Hc2)].
  assert (well_formed h1) as Hwf1 by (by eapply grows_well_formed).
  assert (∀ y, closed_at h (states_of h1) y → closed_at h (states_of h2) y) as Hkeep.
  { intros y Hy. apply (closed_at_grows h h1 _ y Hg1).
    eapply pass_keeps_closed; [done|done|]. by apply (closed_at_grows h h1 _ y Hg1). }
  split; [by eapply grows_trans|]. split; [|split].
  - intros p. eapply grows_states, grows_trans; done.
  - intros y [Hy|Hy]%elem_of_app.
    + apply Hkeep. by apply HT1.
    + apply (closed_at_grows h h1 _ y Hg1). by apply HT2.
  - intros x cx y Hx Hne Hy.
    destruct (decide (states_of h1 x = states_of h x)) as [Heq|Hne1].
    + destruct (grows_lookup _ _ _ _ Hg1 Hx) as (cx1 & Hx1 & Ho & _ & _).
      apply (closed_at_grows h h1 _ y Hg1).
      eapply (Hc2 x cx1 y); [done|congruence|by rewrite Ho].
    + apply Hkeep. by eapply Hc1.
Qed.

(** [tick] found nothing to merge. *)
Lemma pass_unchanged (h : Heap) r c :
  h !! r = Some c → merged_state h c = state c → pass h [r] h.
Proof.
  intros Hc Heq. split; [apply grows_refl|].
  split; [intros p; apply bits_le_refl|]. split; [|by intros x cx y _ Hne].
  intros y ->%list_elem_of_singleton cy x Hy Hx.
  assert (cy = c) as -> by congruence.
  rewrite (states_of_lookup h r c Hc), <- Heq. by apply merged_state_input_le.
Qed.

(** [tick] changed the state of [r] and the pass went on over its outputs. *)
Lemma pass_changed (h h' : Heap) r c :
  well_formed h → h !! r = Some c →
  pass (<[r := set_state (merged_state h c) c]> h) (slotOutput c) h' →
  pass h [r] h'.
Proof.
  intros Hwf Hc Hpass. set (h1 := <[r := set_state (merged_state h c) c]> h) in *.
  assert (grows h h1) as Hg1 by (apply grows_set_state; [done|apply merged_state_ge]).
  assert (well_formed h1) as Hwf1 by (by eapply grows_well_formed).
  pose proof Hpass as [Hg (_ & HT & Hchg)].
  assert (h1 !! r = Some (set_state (merged_state h c) c)) as Hr1
    by apply lookup_insert_eq.
  split; [by eapply grows_trans|]. split; [|split].
  - intros p. eapply grows_states, grows_trans; done.
  - intros y ->%list_elem_of_singleton.
    apply (closed_at_grows h h1 _ r Hg1).
    eapply pass_keeps_closed; [done|done|].
    intros cy x Hy Hx. assert (cy = set_state (merged_state h c) c) as -> by congruence.
    simpl in Hx. unfold h1. rewrite !states_of_insert.
    rewrite (decide_True (P := r = r)) by done. simpl.
    case_decide; [apply bits_le_refl|]. by apply merged_state_input_le.
  - intros x cx y Hx Hne Hy. apply (closed_at_grows h h1 _ y Hg1).
    destruct (decide (states_of h' x = states_of h1 x)) as [Heq|Hne1].
    + rewrite Heq in Hne. unfold h1 in Hne. rewrite states_of_insert in Hne.
      case_decide as Hxr; [|done]. subst x. assert (cx = c) as -> by congruence.
      by apply HT.
    + destruct (grows_lookup _ _ _ _ Hg1 Hx) as (cx1 & Hx1 & Ho & _ & _).
      eapply (Hchg x cx1 y); [done|done|by rewrite Ho].
Qed.

Lemma emit_loop_pass tick_ l (h h' : Heap) t :
  (∀ y h1 h2 t', well_formed h1 → tick_ y h1 = Done (h2, t') → pass h1 [y] h2) →
  well_formed h → emit_loop tick_ l h = Done (h', t) → pass h l h'.
Proof.
  intros Htick. revert h t. induction l as [|y l IH]; intros h t Hwf Hrun.
  - simpl in Hrun. simplify_eq. apply pass_nil.
  - simpl in Hrun. apply bind_Done in Hrun as ([h1 t1] & Hy & Hrun).
    apply bind_Done in Hrun as ([h2 t2] & Hl & Heq). simplify_eq.
    pose proof (Htick _ _ _ _ Hwf Hy) as Hp1.
    apply (pass_seq h h1 h' [y] l); [done|done|].
    eapply IH; [|done]. eapply grows_well_formed; [apply Hp1|done].
Qed.

Lemma tick_pass fuel r (h h' : Heap) t :
  well_formed h → tick fuel r h = Done (h', t) → pass h [r] h'.
Proof.
  revert r h h' t. induction fuel as [|fuel IH]; intros r h h' t Hwf Hrun; [done|].
  assert (∃ c, h !! r = Some c) as [c Hc].
  { cbn [tick] in Hrun. unfold tick_with in Hrun.
    apply bind_Done in Hrun as (c & Hc%deref_Done & _). eauto. }
  rewrite (tick_unfold fuel r h c Hc) in Hrun
    by (intros p Hp; eapply (proj1 Hwf); eauto).
  case_decide as Hchg.
  - apply bind_Done in Hrun as ([h2 t2] & Hemit & Heq). simplify_eq.
    rewrite (emit_unfold fuel r _ (set_state (merged_state h c) c)) in Hemit
      by apply lookup_insert_eq.
    apply bind_Done in Hemit as ([h3 t3] & Hloop & Heq). simplify_eq.
    apply (pass_changed h h' r c Hwf Hc).
    eapply (emit_loop_pass (tick fuel)); [| |exact Hloop].
    + intros y h1 h2 t' Hwf1 Hy. by eapply IH.
    + eapply grows_well_formed; [|exact Hwf].
      apply grows_set_state; [done|apply merged_state_ge].
  - assert (h' = h) as -> by congruence. by eapply pass_unchanged.
Qed.

Lemma tick_seq_pass fuel ps (h h' : Heap) t :
  well_formed h → tick_seq fuel ps h = Done (h', t) → pass h ps h'.
Proof.
  intros Hwf Hrun. eapply (emit_loop_pass (tick fuel)); [|done|exact Hrun].
  intros y h1 h2 t' Hwf1 Hy. by eapply tick_pass.
Qed.

(** Every stable assignment lies above what a pass computes. *)
Section least.
Variable h0 : Heap.
Variable σ : nat → Z.
Hypothesis h0_wf : well_formed h0.
Hypothesis h0_le : ∀ p, bits_le (states_of h0 p) (σ p).
Hypothesis σ_changed : ∀ x cx y,
  h0 !! x = Some cx → σ x ≠ states_of h0 x → y ∈ slotOutput cx → closed_at h0 σ y.

Lemma emit_loop_least tick_ l (h h' : Heap) t :
  (∀ y h1 h2 t', grows h0 h1 → (∀ p, bits_le (states_of h1 p) (σ p)) →
     closed_at h0 σ y → tick_ y h1 = Done (h2, t') →
     grows h0 h2 ∧ ∀ p, bits_le (states_of h2 p) (σ p)) →
  (∀ y, y ∈ l → closed_at h0 σ y) →
  grows h0 h → (∀ p, bits_le (states_of h p) (σ p)) →
  emit_loop tick_ l h = Done (h', t) →
  grows h0 h' ∧ ∀ p, bits_le (states_of h' p) (σ p).
Proof.
  intros Htick Hl Hg Hle Hrun.
  eapply (emit_loop_inv (λ h1, grows h0 h1 ∧ ∀ p, bits_le (states_of h1 p) (σ p)));
    [|by split|exact Hrun].
  intros y h1 h2 t' Hy [Hg1 Hle1] Hstep. eapply Htick; eauto.
Qed.

Lemma tick_least fuel r (h h' : Heap) t :
  grows h0 h → (∀ p, bits_le (states_of h p) (σ p)) → closed_at h0 σ r →
  tick fuel r h = Done (h', t) →
  grows h0 h' ∧ ∀ p, bits_le (states_of h' p) (σ p).
Proof.
  revert r h h' t. induction fuel as [|fuel IH]; intros r h h' t Hg Hle Hcl Hrun; [done|].
  assert (∃ c, h !! r = Some c) as [c Hc].
  { cbn [tick] in Hrun. unfold tick_with in Hrun.
    apply bind_Done in Hrun as (c & Hc%deref_Done & _). eauto. }
  destruct (grows_lookup_rev _ _ _ _ Hg Hc) as (c0 & Hc0 & Ho & Hi & Hs0).
  assert (no_dangling h) as Hnd by (eapply grows_no_dangling; [done|apply h0_wf]).
  rewrite (tick_unfold fuel r h c Hc) in Hrun by (intros p Hp; eapply Hnd; eauto).
  case_decide as Hchg; [|by simplify_eq].
  apply bind_Done in Hrun as ([h2 t2] & Hemit & Heq). simplify_eq.
  rewrite (emit_unfold fuel r _ (set_state (merged_state h c) c)) in Hemit
    by apply lookup_insert_eq.
  apply bind_Done in Hemit as ([h3 t3] & Hloop & Heq). simplify_eq.
  assert (bits_le (merged_state h c) (σ r)) as Hnew.
  { apply merged_state_lub.
    - rewrite <- (states_of_lookup h r c Hc). apply Hle.
    - intros x Hx. eapply bits_le_trans; [apply Hle|].
      eapply Hcl; [exact Hc0|by rewrite <- Hi]. }
  eapply (emit_loop_least (tick fuel)); [| | | |exact Hloop].
  - intros y h1 h2 t'. apply IH.
  - intros y Hy. simpl in Hy. eapply (σ_changed r c0 y); [done| |by rewrite <- Ho].
    intros Heq. apply Hchg. apply bits_le_antisym; [apply merged_state_ge|].
    eapply bits_le_trans; [exact Hnew|]. rewrite Heq.
    by rewrite (states_of_lookup h0 r c0 Hc0).
  - eapply grows_trans; [exact Hg|].
    apply grows_set_state; [done|apply merged_state_ge].
  - intros p. rewrite states_of_insert. case_decide; [by subst|apply Hle].
Qed.
End least.

Lemma pass_least fuel T (h h' : Heap) σ t :
  well_formed h → stable h T σ → tick_seq fuel T h = Done (h', t) →
  ∀ p, bits_le (states_of h' p) (σ p).
Proof.
  intros Hwf (Hle & HT & Hchg) Hrun.
  eapply (emit_loop_least h σ (tick fuel) T h h' t); eauto using grows_refl.
  intros y h1 h2 t'. by apply tick_least.
Qed.

(** ** Stores that differ in the order of their edge lists *)

Lemma similar_refl h : similar h h.
Proof. intros p. by destruct (h !! p). Qed.

Lemma similar_sym h1 h2 : similar h1 h2 → similar h2 h1.
Proof.
  intros H p. specialize (H p). destruct (h1 !! p), (h2 !! p); try done.
  destruct H as (? & ? & ?). by repeat split.
Qed.

Lemma similar_trans h1 h2 h3 : similar h1 h2 → similar h2 h3 → similar h1 h3.
Proof.
  intros H12 H23 p. specialize (H12 p). specialize (H23 p).
  destruct (h1 !! p), (h2 !! p), (h3 !! p); try done.
  destruct H12 as (? & ? & ?), H23 as (? & ? & ?).
  repeat split; etrans; eauto.
Qed.

Lemma similar_lookup h1 h2 p c1 :
  similar h1 h2 → h1 !! p = Some c1 →
  ∃ c2, h2 !! p = Some c2 ∧ state c1 = state c2
    ∧ slotOutput c1 ≡ₚ slotOutput c2 ∧ signalInput c1 ≡ₚ signalInput c2.
Proof.
  intros H Hp. specialize (H p). rewrite Hp in H.
  destruct (h2 !! p) as [c2|]; [|done]. eauto.
Qed.

Lemma similar_live h1 h2 p : similar h1 h2 → is_Some (h1 !! p) ↔ is_Some (h2 !! p).
Proof.
  intros H. specialize (H p).
  destruct (h1 !! p), (h2 !! p); try done; split; intros [? ?]; done.
Qed.

Lemma similar_fresh h1 h2 p : similar h1 h2 → h1 !! p = None → h2 !! p = None.
Proof. intros H Hp. specialize (H p). rewrite Hp in H. by destruct (h2 !! p). Qed.

Lemma similar_states h1 h2 p : similar h1 h2 → states_of h1 p = states_of h2 p.
Proof.
  intros H. specialize (H p). unfold states_of.
  destruct (h1 !! p), (h2 !! p); try done. by destruct H.
Qed.

Lemma similar_closed_at h1 h2 σ y :
  similar h1 h2 → closed_at h1 σ y → closed_at h2 σ y.
Proof.
  intros Hsim Hcl c2 x Hy Hx.
  destruct (similar_lookup _ _ _ _ (similar_sym _ _ Hsim) Hy) as (c1 & Hc1 & _ & _ & Hi).
  eapply Hcl; [exact Hc1|]. by rewrite <- Hi.
Qed.

Lemma similar_stable h1 h2 T1 T2 σ :
  similar h1 h2 → (∀ y, y ∈ T2 → y ∈ T1) → stable h1 T1 σ → stable h2 T2 σ.
Proof.
  intros Hsim HT (Hle & Hcl & Hchg). split; [|split].
  - intros p. rewrite <- (similar_states h1 h2 p Hsim). apply Hle.
  - intros y Hy. eapply similar_closed_at; [done|]. auto.
  - intros x c2 y Hx Hne Hy.
    destruct (similar_lookup _ _ _ _ (similar_sym _ _ Hsim) Hx) as (c1 & Hc1 & _ & Ho & _).
    eapply similar_closed_at; [done|]. eapply (Hchg x c1 y); [done| |by rewrite <- Ho].
    by rewrite (similar_states h1 h2 x Hsim).
Qed.

Lemma similar_well_formed h1 h2 : similar h1 h2 → well_formed h1 → well_formed h2.
Proof.
  intros Hsim [Hnd Hsym]. pose proof (similar_sym _ _ Hsim) as Hsim'. split.
  - intros p c2 q Hp Hq.
    destruct (similar_lookup _ _ _ _ Hsim' Hp) as (c1 & Hc1 & _ & Ho & Hi).
    rewrite <- (similar_live h1 h2 q Hsim). eapply Hnd; [exact Hc1|].
    by rewrite <- Ho, <- Hi.
  - intros a b ca cb Ha Hb.
    destruct (similar_lookup _ _ _ _ Hsim' Ha) as (ca1 & Hca1 & _ & Ho & _).
    destruct (similar_lookup _ _ _ _ Hsim' Hb) as (cb1 & Hcb1 & _ & _ & Hi).
    rewrite Ho, Hi. eauto.
Qed.

Lemma similar_valid_states W h1 h2 :
  similar h1 h2 → valid_states W h1 → valid_states W h2.
Proof.
  intros Hsim Hv p c2 Hp.
  destruct (similar_lookup _ _ _ _ (similar_sym _ _ Hsim) Hp) as (c1 & Hc1 & Hs & _).
  rewrite Hs. eauto.
Qed.

(** Passes over similar stores, started from lists with the same members,
    end in similar stores. *)
Lemma tick_seq_similar fuel1 fuel2 T1 T2 (h1 h2 h1' h2' : Heap) t1 t2 :
  similar h1 h2 → well_formed h1 → (∀ y, y ∈ T1 ↔ y ∈ T2) →
  tick_seq fuel1 T1 h1 = Done (h1', t1) →
  tick_seq fuel2 T2 h2 = Done (h2', t2) →
  similar h1' h2'.
Proof.
  intros Hsim Hwf1 HT Hrun1 Hrun2.
  assert (well_formed h2) as Hwf2 by (by eapply similar_well_formed).
  pose proof (tick_seq_pass _ _ _ _ _ Hwf1 Hrun1) as [Hg1 Hst1].
  pose proof (tick_seq_pass _ _ _ _ _ Hwf2 Hrun2) as [Hg2 Hst2].
  assert (∀ p, states_of h1' p = states_of h2' p) as Heq.
  { intros p. apply bits_le_antisym.
    - eapply (pass_least fuel1 T1 h1 h1'); [done| |done].
      eapply (similar_stable h2 h1 T2 T1); [by apply similar_sym| |done].
      intros y. apply HT.
    - eapply (pass_least fuel2 T2 h2 h2'); [done| |done].
      eapply (similar_stable h1 h2 T1 T2); [done| |done].
      intros y. apply HT. }
  intros p. specialize (Heq p). specialize (Hsim p). specialize (Hg1 p).
  specialize (Hg2 p). unfold states_of in Heq.
  destruct (h1 !! p), (h2 !! p), (h1' !! p), (h2' !! p); try done.
  simpl in Heq. destruct Hsim as (_ & ? & ?), Hg1 as (-> & -> & _), Hg2 as (-> & -> & _).
  done.
Qed.

(** ** What every reachable store satisfies *)

Lemma valid_states_fmap W (F : nat → Component → Component) (h h' : Heap) :
  (∀ p c, state (F p c) = state c) →
  (∀ p, h' !! p = F p <$> h !! p) →
  valid_states W h → valid_states W h'.
Proof.
  intros HF Hl Hv p c' Hp. rewrite Hl in Hp.
  apply fmap_Some in Hp as (c & Hc & ->). rewrite HF. eauto.
Qed.

Lemma connect_valid_states W v this s (h h' : Heap) :
  connectSlot v this s h = Done h' → valid_states W h → valid_states W h'.
Proof.
  intros (_ & _ & Hl)%connectSlot_inv.
  by apply (valid_states_fmap W (rewire (push v s) (push v this) this s) h h').
Qed.

Lemma disconnect_valid_states W this s (h h' : Heap) :
  disconnectSlot this s h = Done h' → valid_states W h → valid_states W h'.
Proof.
  intros (_ & _ & Hl)%disconnectSlot_inv.
  by apply (valid_states_fmap W (rewire (list_remove s) (list_remove this) this s) h h').
Qed.

Lemma connect_sound W v this s (h h' : Heap) :
  connectSlot v this s h = Done h' → sound W h → sound W h'.
Proof.
  intros Hrun [Hwf Hv]. split.
  - by eapply connect_well_formed.
  - by eapply connect_valid_states.
Qed.

Lemma disconnect_sound W this s (h h' : Heap) :
  disconnectSlot this s h = Done h' → sound W h → sound W h'.
Proof.
  intros Hrun [Hwf Hv]. split.
  - by eapply disconnect_well_formed.
  - by eapply disconnect_valid_states.
Qed.

Lemma construct_sound W this iv (h h' : Heap) :
  construct W this iv h = Done h' → sound W h → sound W h'.
Proof.
  intros [Hfresh ->]%construct_inv [Hwf Hv]. split.
  - by apply fresh_well_formed.
  - apply valid_states_insert; [done|]. apply bitset_of_range.
Qed.

Lemma for_each_connect_sound W v (f : nat → nat * nat) l (h h' : Heap) :
  for_each (λ x, connectSlot v (f x).1 (f x).2) l h = Done h' →
  sound W h → sound W h'.
Proof.
  intros Hrun Hs. eapply (for_each_inv (sound W)); [|exact Hs|exact Hrun].
  intros x h1 h2 _ Hs1 Hstep.
  exact (connect_sound W v (f x).1 (f x).2 h1 h2 Hstep Hs1).
Qed.

Lemma addInputs_sound W v this l (h h' : Heap) :
  addInputs v this l h = Done h' → sound W h → sound W h'.
Proof. apply (for_each_connect_sound W v (λ x, (x, this))). Qed.

Lemma addOutputs_sound W v this l (h h' : Heap) :
  addOutputs v this l h = Done h' → sound W h → sound W h'.
Proof. apply (for_each_connect_sound W v (λ x, (this, x))). Qed.

Lemma copy_construct_sound W v this sc dup (h h' : Heap) :
  copy_construct v W this sc dup h = Done h' → sound W h → sound W h'.
Proof.
  unfold copy_construct. intros (h0 & Hc & Hrun)%bind_Done Hs.
  apply (construct_sound W _ _ _ _ Hc) in Hs.
  apply bind_Done in Hrun as (src & _ & Hrun).
  apply bind_Done in Hrun as (h1 & Hloop1 & Hrun).
  apply (addInputs_sound W v this _ _ _ Hloop1) in Hs.
  destruct dup; [|by simplify_eq].
  apply bind_Done in Hrun as (src' & _ & Hloop2).
  by apply (addOutputs_sound W v this _ _ _ Hloop2) in Hs.
Qed.

Lemma construct_io_sound W v this ins outs (h h' : Heap) :
  construct_io v W this ins outs h = Done h' → sound W h → sound W h'.
Proof.
  unfold construct_io. intros (h0 & Hc & Hrun)%bind_Done Hs.
  apply (construct_sound W _ _ _ _ Hc) in Hs.
  apply bind_Done in Hrun as (h1 & Hloop1 & Hloop2).
  apply (addInputs_sound W v this _ _ _ Hloop1) in Hs.
  by apply (addOutputs_sound W v this _ _ _ Hloop2) in Hs.
Qed.

Lemma destroy_live this (h h' : Heap) : destroy this h = Done h' → is_Some (h !! this).
Proof. unfold destroy. intros (c & Hc%deref_Done & _)%bind_Done. by eexists. Qed.

Lemma destroy_sound W this (h h' : Heap) :
  destroy this h = Done h' → sound W h → sound W h'.
Proof.
  intros Hrun [[Hnd Hsym] Hv]. pose proof (destroy_live _ _ _ Hrun) as Hlive.
  destruct (destroy_spec this h Hnd Hsym Hlive) as (h'' & Hrun' & Hl).
  assert (h'' = h') as -> by congruence.
  split; [split; eauto using purged_no_dangling, purged_symmetric|].
  intros p c' Hp. destruct (purged_lookup_inv _ _ _ _ _ Hl Hp) as (_ & c & Hc & ->).
  simpl. eauto.
Qed.

Lemma settles_sound W h h' : settles W h h' → sound W h → sound W h'.
Proof.
  intros (Hg & Hv' & _) [Hwf Hv]. split; [by eapply grows_well_formed|auto].
Qed.

Lemma emit_settles W fuel this (h h' : Heap) t :
  emit fuel this h = Done (h', t) → settles W h h'.
Proof.
  apply (emit_rel (settles W) (settles_refl W) (settles_trans W) (settles_merge W)).
Qed.

Lemma run_op_sound v W fuel o (h h' : Heap) :
  run_op v W fuel o h = Done h' → sound W h → sound W h'.
Proof.
  destruct o as [this iv|this sc d|this ins outs|this|o this other|this l|this l|this|this];
    simpl; intros Hrun Hs.
  - by eapply construct_sound.
  - by eapply copy_construct_sound.
  - by eapply construct_io_sound.
  - by eapply destroy_sound.
  - destruct o; simpl in Hrun;
      eauto using connect_sound, disconnect_sound.
  - by eapply addInputs_sound.
  - by eapply addOutputs_sound.
  - apply bind_Done in Hrun as ([h1 t] & Hrun & Heq). simplify_eq.
    eapply settles_sound; [|done]. by eapply tick_settles.
  - apply bind_Done in Hrun as ([h1 t] & Hrun & Heq). simplify_eq.
    eapply settles_sound; [|done]. by eapply emit_settles.
Qed.

Lemma empty_sound W : sound W ∅.
Proof. split; [apply empty_well_formed|]. intros p c Hp. by rewrite lookup_empty in Hp. Qed.

(** Invariants I1 and I2 hold, and every state fits the bit width, in
    every store a program reaches from the empty one. *)
Lemma run_ops_sound v W fuel os (h h' : Heap) :
  run_ops v W fuel os h = Done h' → sound W h → sound W h'.
Proof.
  revert h. induction os as [|o os IH]; intros h Hrun Hs; simpl in Hrun.
  - by simplify_eq.
  - apply bind_Done in Hrun as (h1 & Ho & Hrun).
    eapply IH; [done|]. by eapply run_op_sound.
Qed.

(** ** The two variants, call by call *)

Lemma similar_fmap (F1 F2 : nat → Component → Component) (h1 h2 h1' h2' : Heap) :
  similar h1 h2 →
  (∀ p, h1' !! p = F1 p <$> h1 !! p) →
  (∀ p, h2' !! p = F2 p <$> h2 !! p) →
  (∀ p c1 c2, state c1 = state c2 → slotOutput c1 ≡ₚ slotOutput c2 →
     signalInput c1 ≡ₚ signalInput c2 →
     state (F1 p c1) = state (F2 p c2)
     ∧ slotOutput (F1 p c1) ≡ₚ slotOutput (F2 p c2)
     ∧ signalInput (F1 p c1) ≡ₚ signalInput (F2 p c2)) →
  similar h1' h2'.
Proof.
  intros Hsim Hl1 Hl2 HF p. specialize (Hsim p). rewrite Hl1, Hl2.
  destruct (h1 !! p), (h2 !! p); try done. simpl.
  destruct Hsim as (? & ? & ?). by apply HF.
Qed.

Lemma similar_insert (h1 h2 : Heap) p c :
  similar h1 h2 → similar (<[p := c]> h1) (<[p := c]> h2).
Proof.
  intros Hsim q. destruct (decide (q = p)) as [->|Hne].
  - by rewrite !lookup_insert_eq.
  - rewrite !lookup_insert_ne by done. apply Hsim.
Qed.

Lemma rewire_similar (fo1 fi1 fo2 fi2 : list nat → list nat) this s p c1 c2 :
  (∀ l1 l2, l1 ≡ₚ l2 → fo1 l1 ≡ₚ fo2 l2) →
  (∀ l1 l2, l1 ≡ₚ l2 → fi1 l1 ≡ₚ fi2 l2) →
  state c1 = state c2 → slotOutput c1 ≡ₚ slotOutput c2 →
  signalInput c1 ≡ₚ signalInput c2 →
  state (rewire fo1 fi1 this s p c1) = state (rewire fo2 fi2 this s p c2)
  ∧ slotOutput (rewire fo1 fi1 this s p c1) ≡ₚ slotOutput (rewire fo2 fi2 this s p c2)
  ∧ signalInput (rewire fo1 fi1 this s p c1) ≡ₚ signalInput (rewire fo2 fi2 this s p c2).
Proof.
  intros Hfo Hfi Hs Ho Hi. unfold rewire; simpl.
  split; [done|]. split; case_decide; auto.
Qed.

Lemma push_similar v1 v2 x l1 l2 : l1 ≡ₚ l2 → push v1 x l1 ≡ₚ push v2 x l2.
Proof. intros H. by rewrite !push_Permutation, H. Qed.

Lemma list_remove_similar x l1 l2 : l1 ≡ₚ l2 → list_remove x l1 ≡ₚ list_remove x l2.
Proof. intros H. unfold list_remove. by rewrite H. Qed.

Lemma connect_similar v1 v2 this s (h1 h2 h1' : Heap) :
  similar h1 h2 → connectSlot v1 this s h1 = Done h1' →
  ∃ h2', connectSlot v2 this s h2 = Done h2' ∧ similar h1' h2'.
Proof.
  intros Hsim (Ht & Hs & Hl1)%connectSlot_inv.
  destruct (connectSlot_live v2 this s h2) as (h2' & Hrun & Hl2);
    [by apply (similar_live h1 h2)..|].
  exists h2'. split; [done|].
  eapply similar_fmap; [exact Hsim|exact Hl1|exact Hl2|].
  intros p c1 c2. apply rewire_similar; intros; by apply push_similar.
Qed.

Lemma disconnect_similar this s (h1 h2 h1' : Heap) :
  similar h1 h2 → disconnectSlot this s h1 = Done h1' →
  ∃ h2', disconnectSlot this s h2 = Done h2' ∧ similar h1' h2'.
Proof.
  intros Hsim (Ht & Hs & Hl1)%disconnectSlot_inv.
  destruct (disconnectSlot_live this s h2) as (h2' & Hrun & Hl2);
    [by apply (similar_live h1 h2)..|].
  exists h2'. split; [done|].
  eapply similar_fmap; [exact Hsim|exact Hl1|exact Hl2|].
  intros p c1 c2. apply rewire_similar; intros; by apply list_remove_similar.
Qed.

Lemma iter_push_Permutation v x n l : Nat.iter n (push v x) l ≡ₚ replicate n x ++ l.
Proof.
  induction n as [|n IH]; [done|]. simpl. by rewrite push_Permutation, IH.
Qed.

Lemma occurrences_Permutation p l1 l2 : l1 ≡ₚ l2 → occurrences p l1 = occurrences p l2.
Proof. intros H. unfold occurrences. by rewrite H. Qed.

Lemma conn_inputs_similar v1 v2 this l1 l2 p c1 c2 :
  l1 ≡ₚ l2 →
  state c1 = state c2 → slotOutput c1 ≡ₚ slotOutput c2 →
  signalInput c1 ≡ₚ signalInput c2 →
  state (conn_inputs v1 this l1 p c1) = state (conn_inputs v2 this l2 p c2)
  ∧ slotOutput (conn_inputs v1 this l1 p c1) ≡ₚ slotOutput (conn_inputs v2 this l2 p c2)
  ∧ signalInput (conn_inputs v1 this l1 p c1)
      ≡ₚ signalInput (conn_inputs v2 this l2 p c2).
Proof.
  intros Hl Hs Ho Hi. unfold conn_inputs; simpl. split; [done|]. split.
  - by rewrite !iter_push_Permutation, (occurrences_Permutation p l1 l2 Hl), Ho.
  - case_decide; [|done]. by rewrite !push_all_Permutation, Hl, Hi.
Qed.

Lemma conn_outputs_similar v1 v2 this l1 l2 p c1 c2 :
  l1 ≡ₚ l2 →
  state c1 = state c2 → slotOutput c1 ≡ₚ slotOutput c2 →
  signalInput c1 ≡ₚ signalInput c2 →
  state (conn_outputs v1 this l1 p c1) = state (conn_outputs v2 this l2 p c2)
  ∧ slotOutput (conn_outputs v1 this l1 p c1) ≡ₚ slotOutput (conn_outputs v2 this l2 p c2)
  ∧ signalInput (conn_outputs v1 this l1 p c1)
      ≡ₚ signalInput (conn_outputs v2 this l2 p c2).
Proof.
  intros Hl Hs Ho Hi. unfold conn_outputs; simpl. split; [done|]. split.
  - case_decide; [|done]. by rewrite !push_all_Permutation, Hl, Ho.
  - by rewrite !iter_push_Permutation, (occurrences_Permutation p l1 l2 Hl), Hi.
Qed.

Lemma for_each_addInput_live v this l (h h' : Heap) :
  for_each (λ sender, addInput v this sender) l h = Done h' →
  ∀ x, x ∈ l → is_Some (h !! x) ∧ is_Some (h !! this).
Proof.
  revert h. induction l as [|y l IH]; intros h Hrun x Hx; [by apply elem_of_nil in Hx|].
  cbn [for_each] in Hrun. apply bind_Done in Hrun as (h1 & Hstep & Hrun).
  apply connectSlot_inv in Hstep as (Hy & Hthis & Hl).
  apply elem_of_cons in Hx as [->|Hx]; [done|].
  destruct (IH h1 Hrun x Hx) as [Hx1 _].
  by rewrite (rewire_live _ _ _ _ _ _ Hl) in Hx1.
Qed.

Lemma for_each_addOutput_live v this l (h h' : Heap) :
  for_each (λ connection, addOutput v this connection) l h = Done h' →
  ∀ x, x ∈ l → is_Some (h !! x) ∧ is_Some (h !! this).
Proof.
  revert h. induction l as [|y l IH]; intros h Hrun x Hx; [by apply elem_of_nil in Hx|].
  cbn [for_each] in Hrun. apply bind_Done in Hrun as (h1 & Hstep & Hrun).
  apply connectSlot_inv in Hstep as (Hthis & Hy & Hl).
  apply elem_of_cons in Hx as [->|Hx]; [done|].
  destruct (IH h1 Hrun x Hx) as [Hx1 _].
  by rewrite (rewire_live _ _ _ _ _ _ Hl) in Hx1.
Qed.

Lemma addInputs_similar v1 v2 this l1 l2 (h1 h2 h1' : Heap) :
  similar h1 h2 → l1 ≡ₚ l2 →
  for_each (λ sender, addInput v1 this sender) l1 h1 = Done h1' →
  ∃ h2', for_each (λ sender, addInput v2 this sender) l2 h2 = Done h2'
    ∧ similar h1' h2'.
Proof.
  intros Hsim Hl Hrun. destruct l1 as [|x l1].
  { apply Permutation_nil_l in Hl. subst l2. simpl in *. simplify_eq. eauto. }
  pose proof (for_each_addInput_live _ _ _ _ _ Hrun) as Hlive.
  destruct (Hlive x) as [_ Hthis]; [left|].
  destruct (for_each_addInput v1 this (x :: l1) h1) as (h1'' & Hrun1 & Hl1);
    [done|intros p Hp; by apply Hlive|].
  assert (h1'' = h1') as -> by congruence.
  destruct (for_each_addInput v2 this l2 h2) as (h2' & Hrun2 & Hl2).
  { by apply (similar_live h1 h2). }
  { intros p Hp. apply (similar_live h1 h2); [done|]. apply Hlive. by rewrite Hl. }
  exists h2'. split; [done|].
  eapply similar_fmap; [exact Hsim|exact Hl1|exact Hl2|].
  intros p c1 c2. by apply conn_inputs_similar.
Qed.

Lemma addOutputs_similar v1 v2 this l1 l2 (h1 h2 h1' : Heap) :
  similar h1 h2 → l1 ≡ₚ l2 →
  for_each (λ connection, addOutput v1 this connection) l1 h1 = Done h1' →
  ∃ h2', for_each (λ connection, addOutput v2 this connection) l2 h2 = Done h2'
    ∧ similar h1' h2'.
Proof.
  intros Hsim Hl Hrun. destruct l1 as [|x l1].
  { apply Permutation_nil_l in Hl. subst l2. simpl in *. simplify_eq. eauto. }
  pose proof (for_each_addOutput_live _ _ _ _ _ Hrun) as Hlive.
  destruct (Hlive x) as [_ Hthis]; [left|].
  destruct (for_each_addOutput v1 this (x :: l1) h1) as (h1'' & Hrun1 & Hl1);
    [done|intros p Hp; by apply Hlive|].
  assert (h1'' = h1') as -> by congruence.
  destruct (for_each_addOutput v2 this l2 h2) as (h2' & Hrun2 & Hl2).
  { by apply (similar_live h1 h2). }
  { intros p Hp. apply (similar_live h1 h2); [done|]. apply Hlive. by rewrite Hl. }
  exists h2'. split; [done|].
  eapply similar_fmap; [exact Hsim|exact Hl1|exact Hl2|].
  intros p c1 c2. by apply conn_outputs_similar.
Qed.

Lemma construct_similar W this iv (h1 h2 h1' : Heap) :
  similar h1 h2 → construct W this iv h1 = Done h1' →
  ∃ h2', construct W this iv h2 = Done h2' ∧ similar h1' h2'.
Proof.
  intros Hsim [Hfresh ->]%construct_inv.
  rewrite construct_fresh by (by eapply similar_fresh).
  eexists. split; [done|]. by apply similar_insert.
Qed.

Lemma copy_construct_similar v1 v2 W this sc dup (h1 h2 h1' : Heap) :
  similar h1 h2 → copy_construct v1 W this sc dup h1 = Done h1' →
  ∃ h2', copy_construct v2 W this sc dup h2 = Done h2' ∧ similar h1' h2'.
Proof.
  unfold copy_construct. intros Hsim (h01 & Hc & Hrun)%bind_Done.
  destruct (construct_similar W this 0 h1 h2 h01 Hsim Hc) as (h02 & -> & Hsim0).
  rewrite bind_Done_l.
  apply bind_Done in Hrun as (src1 & Hsrc1%deref_Done & Hrun).
  destruct (similar_lookup _ _ _ _ Hsim0 Hsrc1) as (src2 & Hsrc2 & _ & Ho & Hi).
  rewrite (deref_live _ _ _ Hsrc2), bind_Done_l.
  apply bind_Done in Hrun as (h11 & Hloop1 & Hrun).
  destruct (addInputs_similar v1 v2 this _ _ h01 h02 h11 Hsim0 Hi Hloop1)
    as (h12 & -> & Hsim1).
  rewrite bind_Done_l. destruct dup; [|simplify_eq; eauto].
  apply bind_Done in Hrun as (src1' & Hsrc1'%deref_Done & Hloop2).
  destruct (similar_lookup _ _ _ _ Hsim1 Hsrc1') as (src2' & Hsrc2' & _ & Ho' & _).
  rewrite (deref_live _ _ _ Hsrc2'), bind_Done_l.
  by eapply addOutputs_similar.
Qed.

Lemma construct_io_similar v1 v2 W this ins outs (h1 h2 h1' : Heap) :
  similar h1 h2 → construct_io v1 W this ins outs h1 = Done h1' →
  ∃ h2', construct_io v2 W this ins outs h2 = Done h2' ∧ similar h1' h2'.
Proof.
  unfold construct_io, addInputs, addOutputs. intros Hsim (h01 & Hc & Hrun)%bind_Done.
  destruct (construct_similar W this 0 h1 h2 h01 Hsim Hc) as (h02 & -> & Hsim0).
  rewrite bind_Done_l.
  apply bind_Done in Hrun as (h11 & Hloop1 & Hloop2).
  destruct (addInputs_similar v1 v2 this ins ins h01 h02 h11 Hsim0) as (h12 & -> & Hsim1);
    [done|done|].
  rewrite bind_Done_l. by eapply addOutputs_similar.
Qed.

Lemma destroy_similar this (h1 h2 h1' : Heap) :
  similar h1 h2 → well_formed h1 → destroy this h1 = Done h1' →
  ∃ h2', destroy this h2 = Done h2' ∧ similar h1' h2'.
Proof.
  intros Hsim Hwf1 Hrun. pose proof (destroy_live _ _ _ Hrun) as Hlive.
  pose proof (similar_well_formed _ _ Hsim Hwf1) as Hwf2.
  destruct (destroy_spec this h1 (proj1 Hwf1) (proj2 Hwf1) Hlive) as (h1'' & Hrun1 & Hl1).
  assert (h1'' = h1') as -> by congruence.
  destruct (destroy_spec this h2 (proj1 Hwf2) (proj2 Hwf2)) as (h2' & Hrun2 & Hl2).
  { by apply (similar_live h1 h2). }
  exists h2'. split; [done|]. intros p. rewrite Hl1, Hl2. case_decide; [done|].
  specialize (Hsim p). destruct (h1 !! p), (h2 !! p); try done. simpl.
  destruct Hsim as (? & ? & ?). split; [done|].
  split; by apply list_remove_similar.
Qed.

Lemma emit_loop_fuel_mono fuel fuel' l (h : Heap) r :
  (fuel ≤ fuel')%nat →
  emit_loop (tick fuel) l h = Done r → emit_loop (tick fuel') l h = Done r.
Proof.
  intros Hle. revert h r. induction l as [|x l IH]; intros h r Hr; [done|].
  simpl in *. apply bind_Done in Hr as ([h1 t1] & Hx & Hr).
  apply bind_Done in Hr as ([h2 t2] & Hl & Hr).
  rewrite (tick_fuel_mono fuel fuel' x h (h1, t1)) by done. rewrite bind_Done_l.
  rewrite (IH h1 (h2, t2)) by done. by rewrite bind_Done_l.
Qed.

Lemma emit_fuel_mono fuel fuel' this (h : Heap) r :
  (fuel ≤ fuel')%nat → emit fuel this h = Done r → emit fuel' this h = Done r.
Proof.
  intros Hle. unfold emit, emit_with. intros (c & Hc & Hr)%bind_Done.
  rewrite Hc, bind_Done_l. apply bind_Done in Hr as ([h1 t1] & Hl & Hr).
  by rewrite (emit_loop_fuel_mono fuel fuel' _ _ _ Hle Hl), bind_Done_l.
Qed.

Lemma run_op_fuel_mono v W fuel fuel' o (h h' : Heap) :
  (fuel ≤ fuel')%nat →
  run_op v W fuel o h = Done h' → run_op v W fuel' o h = Done h'.
Proof.
  intros Hle. destruct o; simpl; try done.
  - intros ([h1 t] & Hrun & Heq)%bind_Done.
    by rewrite (tick_fuel_mono fuel fuel' _ _ _ Hle Hrun), bind_Done_l.
  - intros ([h1 t] & Hrun & Heq)%bind_Done.
    by rewrite (emit_fuel_mono fuel fuel' _ _ _ Hle Hrun), bind_Done_l.
Qed.

Lemma run_ops_fuel_mono v W fuel fuel' os (h h' : Heap) :
  (fuel ≤ fuel')%nat →
  run_ops v W fuel os h = Done h' → run_ops v W fuel' os h = Done h'.
Proof.
  intros Hle. revert h. induction os as [|o os IH]; intros h Hrun; [done|].
  simpl in *. apply bind_Done in Hrun as (h1 & Ho & Hrun).
  rewrite (run_op_fuel_mono v W fuel fuel' o h h1 Hle Ho), bind_Done_l. by apply IH.
Qed.

Lemma tick_as_tick_seq fuel this (h h' : Heap) t :
  tick fuel this h = Done (h', t) → tick_seq fuel [this] h = Done (h', t ++ []).
Proof. intros H. unfold tick_seq. simpl. by rewrite H. Qed.

Lemma emit_as_tick_seq fuel this (h h' : Heap) t :
  emit fuel this h = Done (h', t) →
  ∃ c t', h !! this = Some c ∧ tick_seq fuel (slotOutput c) h = Done (h', t').
Proof.
  unfold emit, emit_with. intros (c & Hc%deref_Done & Hr)%bind_Done.
  apply bind_Done in Hr as ([h1 t1] & Hl & Hr). simplify_eq. eauto.
Qed.

Lemma tick_similar W fuel this (h1 h2 h1' : Heap) t1 :
  similar h1 h2 → sound W h1 → tick fuel this h1 = Done (h1', t1) →
  ∃ fuel' h2' t2, tick fuel' this h2 = Done (h2', t2) ∧ similar h1' h2'.
Proof.
  intros Hsim [Hwf1 Hv1] Hrun1.
  pose proof (similar_well_formed _ _ Hsim Hwf1) as Hwf2.
  pose proof (similar_valid_states W _ _ Hsim Hv1) as Hv2.
  assert (is_Some (h1 !! this)) as Hlive.
  { destruct fuel as [|fuel]; [done|]. cbn [tick] in Hrun1. unfold tick_with in Hrun1.
    apply bind_Done in Hrun1 as (c & Hc%deref_Done & _). by eexists. }
  destruct (tick_terminates W (S (potential W h2)) this h2) as (h2' & t2 & Hrun2);
    [apply Hwf2|done|by apply (similar_live h1 h2)|lia|].
  exists (S (potential W h2)), h2', t2. split; [done|].
  eapply (tick_seq_similar fuel _ [this] [this] h1 h2); eauto using tick_as_tick_seq.
Qed.

Lemma emit_similar W fuel this (h1 h2 h1' : Heap) t1 :
  similar h1 h2 → sound W h1 → emit fuel this h1 = Done (h1', t1) →
  ∃ fuel' h2' t2, emit fuel' this h2 = Done (h2', t2) ∧ similar h1' h2'.
Proof.
  intros Hsim [Hwf1 Hv1] Hrun1.
  pose proof (similar_well_formed _ _ Hsim Hwf1) as Hwf2.
  pose proof (similar_valid_states W _ _ Hsim Hv1) as Hv2.
  destruct (emit_as_tick_seq _ _ _ _ _ Hrun1) as (c1 & t1' & Hc1 & Hseq1).
  destruct (similar_lookup _ _ _ _ Hsim Hc1) as (c2 & Hc2 & _ & Ho & _).
  destruct (emit_terminates W (S (potential W h2)) this h2) as (h2' & t2 & Hrun2);
    [apply Hwf2|done|by eexists|lia|].
  exists (S (potential W h2)), h2', t2. split; [done|].
  destruct (emit_as_tick_seq _ _ _ _ _ Hrun2) as (c2' & t2' & Hc2' & Hseq2).
  assert (c2' = c2) as -> by congruence.
  eapply (tick_seq_similar fuel _ (slotOutput c1) (slotOutput c2) h1 h2); eauto.
  intros y. by rewrite Ho.
Qed.

Lemma run_op_similar v1 v2 W fuel o (h1 h2 h1' : Heap) :
  similar h1 h2 → sound W h1 → run_op v1 W fuel o h1 = Done h1' →
  ∃ fuel' h2', run_op v2 W fuel' o h2 = Done h2' ∧ similar h1' h2'.
Proof.
  intros Hsim Hs1.
  destruct o as [this iv|this sc d|this ins outs|this|o this other|this l|this l|this|this];
    simpl; intros Hrun.
  - exists fuel. by eapply construct_similar.
  - exists fuel. by eapply copy_construct_similar.
  - exists fuel. by eapply construct_io_similar.
  - exists fuel. eapply destroy_similar; [done|apply Hs1|done].
  - exists fuel. destruct o; simpl in *;
      eauto using connect_similar, disconnect_similar.
  - exists fuel. by eapply addInputs_similar.
  - exists fuel. by eapply addOutputs_similar.
  - apply bind_Done in Hrun as ([h1m t1] & Hrun & Heq). simplify_eq.
    destruct (tick_similar W fuel this h1 h2 h1' t1 Hsim Hs1 Hrun)
      as (fuel' & h2' & t2 & Hrun2 & Hsim').
    exists fuel', h2'. by rewrite Hrun2.
  - apply bind_Done in Hrun as ([h1m t1] & Hrun & Heq). simplify_eq.
    destruct (emit_similar W fuel this h1 h2 h1' t1 Hsim Hs1 Hrun)
      as (fuel' & h2' & t2 & Hrun2 & Hsim').
    exists fuel', h2'. by rewrite Hrun2.
Qed.

Lemma run_ops_similar v1 v2 W fuel os (h1 h2 h1' : Heap) :
  similar h1 h2 → sound W h1 → run_ops v1 W fuel os h1 = Done h1' →
  ∃ fuel' h2', run_ops v2 W fuel' os h2 = Done h2' ∧ similar h1' h2'.
Proof.
  revert h1 h2. induction os as [|o os IH]; intros h1 h2 Hsim Hs1 Hrun; simpl in Hrun.
  - simplify_eq. by exists fuel, h2.
  - apply bind_Done in Hrun as (h1m & Ho & Hrun).
    destruct (run_op_similar v1 v2 W fuel o h1 h2 h1m Hsim Hs1 Ho)
      as (fuelA & h2m & HoA & Hsimm).
    destruct (IH h1m h2m Hsimm) as (fuelB & h2' & HrunB & Hsim');
      [by eapply run_op_sound|done|].
    exists (fuelA `max` fuelB)%nat, h2'. split; [|done]. cbn [run_ops].
    rewrite (run_op_fuel_mono v2 W fuelA (fuelA `max` fuelB) o h2 h2m);
      [|lia|done].
    rewrite bind_Done_l.
    apply (run_ops_fuel_mono v2 W fuelB); [lia|done].
Qed.

(** C9, as the code has it: run any program of constructions, copies,
    destructions, connects, disconnects, [tick]s and [emit]s on one variant
    and then on the other.  If it returns on the first it returns on the
    second, every component has the same state in both, and every edge
    list has the same entries with the same multiplicities; the order of
    the entries is what may differ.  The store reached is well formed and
    its states fit the bit width. *)
Theorem variants_agree v1 v2 W fuel os (h1 : Heap) :
  run_ops v1 W fuel os ∅ = Done h1 →
  sound W h1 ∧
  ∃ fuel' h2, run_ops v2 W fuel' os ∅ = Done h2 ∧
    ∀ p, match h1 !! p, h2 !! p with
         | Some c1, Some c2 =>
             state c1 = state c2 ∧ slotOutput c1 ≡ₚ slotOutput c2
             ∧ signalInput c1 ≡ₚ signalInput c2
         | None, None => True
         | _, _ => False
         end.
Proof.
  intros Hrun. split.
  - eapply run_ops_sound; [exact Hrun|apply empty_sound].
  - eapply run_ops_similar; [apply similar_refl|apply empty_sound|exact Hrun].
Qed.

Lemma variants_agree_witness :
  ∃ h1 fuel' h2, run_ops DList 8 0 two_outputs ∅ = Done h1 ∧
    run_ops FList 8 fuel' two_outputs ∅ = Done h2 ∧ similar h1 h2.
Proof.
  destruct (run_ops DList 8 0 two_outputs ∅) as [h1| |] eqn:Hrun;
    [|vm_compute in Hrun; discriminate..].
  destruct (variants_agree DList FList 8 0 two_outputs h1 Hrun)
    as (_ & fuel' & h2 & Hrun2 & Hsim).
  by exists h1, fuel', h2.
Defined.

(** C9 as stated fails: after [a.addOutput(b); a.addOutput(c)] the output
    list of [a] reads [b, c] in the [std::list] variant and [c, b] in the
    [std::forward_list] variant. *)
Lemma variants_differ_in_order_counterexample :
  ∃ h1 h2 c1 c2, run_ops DList 8 0 two_outputs ∅ = Done h1 ∧
    run_ops FList 8 0 two_outputs ∅ = Done h2 ∧
    h1 !! 0%nat = Some c1 ∧ h2 !! 0%nat = Some c2 ∧
    slotOutput c1 = [1%nat; 2%nat] ∧ slotOutput c2 = [2%nat; 1%nat] ∧
    slotOutput c1 ≠ slotOutput c2.
Proof.
  eexists _, _, _, _. split; [vm_compute; reflexivity|].
  split; [vm_compute; reflexivity|]. split; [vm_compute; reflexivity|].
  split; [vm_compute; reflexivity|]. by vm_compute.
Qed.

(** ** Symmetry of the connection graph *)

(** C2: after [a.addInput(b)], [b] is among the inputs of [a] and [a] among
    the outputs of [b]; after [a.removeInput(b)] neither holds; each of
    [addInput], [addOutput], [removeInput], [removeOutput] returns and
    keeps the invariant that [x] is an input of [y] iff [y] is an output
    of [x]; and that invariant holds in every store a program reaches. *)
Theorem connection_symmetry v (h : Heap) a b :
  is_Some (h !! a) → is_Some (h !! b) →
  (∃ h' ca cb, addInput v a b h = Done h' ∧ h' !! a = Some ca ∧ h' !! b = Some cb
      ∧ b ∈ signalInput ca ∧ a ∈ slotOutput cb) ∧
  (∃ h' ca cb, removeInput a b h = Done h' ∧ h' !! a = Some ca ∧ h' !! b = Some cb
      ∧ (b ∉ signalInput ca) ∧ (a ∉ slotOutput cb)) ∧
  (∀ o, ∃ h', run_edge_op v o a b h = Done h' ∧ (symmetric h → symmetric h')) ∧
  (∀ W fuel os h', run_ops v W fuel os ∅ = Done h' → symmetric h').
Proof.
  intros Ha Hb. split; [|split; [|split]].
  4:{ intros W fuel os h' Hrun.
      apply (run_ops_sound v W fuel os ∅ h' Hrun (empty_sound W)). }
  - destruct (connectSlot_live v b a h Hb Ha) as (h' & Hrun & Hl).
    destruct Ha as [ca Ha], Hb as [cb Hb].
    exists h', (rewire (push v a) (push v b) b a a ca),
      (rewire (push v a) (push v b) b a b cb).
    split; [done|]. rewrite !Hl, Ha, Hb. split; [done|]. split; [done|].
    rewrite elem_of_rewire_in, elem_of_rewire_out, !elem_of_push. naive_solver.
  - destruct (disconnectSlot_live b a h Hb Ha) as (h' & Hrun & Hl).
    destruct Ha as [ca Ha], Hb as [cb Hb].
    exists h', (rewire (list_remove a) (list_remove b) b a a ca),
      (rewire (list_remove a) (list_remove b) b a b cb).
    split; [done|]. rewrite !Hl, Ha, Hb. split; [done|]. split; [done|].
    rewrite elem_of_rewire_in, elem_of_rewire_out, !elem_of_list_remove. naive_solver.
  - intros [| | |]; simpl.
    + destruct (connectSlot_live v b a h Hb Ha) as (h' & Hrun & Hl).
      exists h'. split; [done|]. exact (connect_symmetric v b a h h' Hl).
    + destruct (connectSlot_live v a b h Ha Hb) as (h' & Hrun & Hl).
      exists h'. split; [done|]. exact (connect_symmetric v a b h h' Hl).
    + destruct (disconnectSlot_live b a h Hb Ha) as (h' & Hrun & Hl).
      exists h'. split; [done|]. exact (disconnect_symmetric b a h h' Hl).
    + destruct (disconnectSlot_live a b h Ha Hb) as (h' & Hrun & Hl).
      exists h'. split; [done|]. exact (disconnect_symmetric a b h h' Hl).
Qed.

Lemma connection_symmetry_witness :
  ∃ h' ca cb, addInput DList 0%nat 1%nat heap_two = Done h'
    ∧ h' !! 0%nat = Some ca ∧ h' !! 1%nat = Some cb
    ∧ 1%nat ∈ signalInput ca ∧ 0%nat ∈ slotOutput cb.
Proof.
  apply (connection_symmetry DList heap_two 0%nat 1%nat); by eexists.
Defined.


(** * Further properties of the code *)

(** ** Example stores *)

Lemma heap_pair_sound : sound 8 heap_pair.
Proof.
  apply (run_ops_sound DList 8 0 prog_cycle ∅ heap_pair); [|apply empty_sound].
  vm_compute. reflexivity.
Qed.

Lemma heap_chain_sound : sound 8 heap_chain.
Proof.
  apply (run_ops_sound DList 8 0 prog_chain ∅ heap_chain); [|apply empty_sound].
  vm_compute. reflexivity.
Qed.

(** ** Termination and cost of a pass *)

Lemma clear_bits_le W s : (clear_bits W s ≤ W)%nat.
Proof.
  unfold clear_bits. etrans; [apply length_filter|]. by rewrite length_seq.
Qed.

Lemma potential_le_size W (h : Heap) : (potential W h ≤ W * size h)%nat.
Proof.
  unfold potential.
  apply (map_fold_weak_ind (λ r (m : Heap), (r ≤ W * size m)%nat)).
  - lia.
  - intros i x m r Hi Hr. rewrite map_size_insert_None by done.
    pose proof (clear_bits_le W (state x)). lia.
Qed.

Lemma emit_count_app t1 t2 : emit_count (t1 ++ t2) = (emit_count t1 + emit_count t2)%nat.
Proof. unfold emit_count. by rewrite filter_app, length_app. Qed.

Lemma tick_emit_count W fuel this (h h' : Heap) t :
  sound W h → tick fuel this h = Done (h', t) →
  (emit_count t + potential W h' ≤ potential W h)%nat.
Proof.
  revert this h h' t. induction fuel as [|fuel IH]; intros this h h' t Hs Hrun; [done|].
  assert (∀ l (h1 h2 : Heap) t', sound W h1 →
            emit_loop (tick fuel) l h1 = Done (h2, t') →
            (emit_count t' + potential W h2 ≤ potential W h1)%nat) as Hloop.
  { induction l as [|y l IHl]; intros h1 h2 t' Hs1 Hr; simpl in Hr.
    - simplify_eq. unfold emit_count. simpl. lia.
    - apply bind_Done in Hr as ([h3 t3] & Hy & Hr).
      apply bind_Done in Hr as ([h4 t4] & Hl & Heq). simplify_eq.
      pose proof (IH _ _ _ _ Hs1 Hy) as H1.
      assert (sound W h3) as Hs3
        by (eapply settles_sound; [by eapply tick_settles|done]).
      pose proof (IHl _ _ _ Hs3 Hl) as H2.
      rewrite emit_count_app. lia. }
  destruct Hs as [[Hnd Hsym] Hv].
  assert (∃ c, h !! this = Some c) as [c Hc].
  { cbn [tick] in Hrun. unfold tick_with in Hrun.
    apply bind_Done in Hrun as (c & Hc%deref_Done & _). eauto. }
  rewrite (tick_unfold fuel this h c Hc) in Hrun by (intros p Hp; eapply Hnd; eauto).
  case_decide as Hchg.
  - apply bind_Done in Hrun as ([h2 t2] & Hemit & Heq). simplify_eq.
    rewrite (emit_unfold fuel this _ (set_state (merged_state h c) c)) in Hemit
      by apply lookup_insert_eq.
    apply bind_Done in Hemit as ([h3 t3] & Hl & Heq). simplify_eq.
    set (h1 := <[this := set_state (merged_state h c) c]> h) in *.
    assert (potential W h1 < potential W h)%nat as Hpot.
    { apply potential_set_state_strict;
        eauto using merged_state_ge, merged_state_range. }
    assert (sound W h1) as Hs1.
    { split.
      - eapply grows_well_formed; [|by split].
        apply grows_set_state; [done|apply merged_state_ge].
      - apply valid_states_insert; [done|]. simpl. apply merged_state_range; eauto. }
    pose proof (Hloop _ _ _ _ Hs1 Hl) as H1.
    unfold emit_count in *. simpl in *. lia.
  - simplify_eq. unfold emit_count. simpl. lia.
Qed.

(** X1: on a store that a program can reach, with states of [W] bits, a
    call of [tick] or of [emit] on a live component always returns: [W]
    times the number of components, plus one, nested [tick] calls are
    enough. *)
Theorem propagation_terminates W (h : Heap) this :
  sound W h → is_Some (h !! this) →
  ∀ fuel, (W * size h < fuel)%nat →
    (∃ h' t, tick fuel this h = Done (h', t)) ∧
    (∃ h' t, emit fuel this h = Done (h', t)).
Proof.
  intros [[Hnd Hsym] Hv] Hlive fuel Hfuel.
  pose proof (potential_le_size W h) as Hpot. split.
  - apply (tick_terminates W); [done|done|done|lia].
  - apply (emit_terminates W); [done|done|done|lia].
Qed.

Lemma propagation_terminates_witness :
  (∃ h' t, tick 17 0%nat heap_pair = Done (h', t)) ∧
  (∃ h' t, emit 17 0%nat heap_pair = Done (h', t)).
Proof.
  apply (propagation_terminates 8 heap_pair 0%nat heap_pair_sound).
  - by eexists.
  - vm_compute. lia.
Defined.

(** X2: a pass pays for every [emit] call with a bit: the number of [emit]
    calls made inside one [tick] is at most the number of bits that the
    pass set, and so at most [W] times the number of components. *)
Theorem emit_calls_bounded W fuel this (h h' : Heap) t :
  sound W h → tick fuel this h = Done (h', t) →
  (emit_count t + potential W h' ≤ potential W h)%nat ∧
  (emit_count t ≤ W * size h)%nat.
Proof.
  intros Hs Hrun. pose proof (tick_emit_count W fuel this h h' t Hs Hrun) as H.
  pose proof (potential_le_size W h). split; lia.
Qed.

Lemma emit_calls_bounded_witness :
  ∃ h' t, tick 3 0%nat heap_pair = Done (h', t) ∧ (emit_count t ≤ 16)%nat.
Proof.
  destruct (tick 3 0%nat heap_pair) as [[h' t]| |] eqn:Hrun;
    [|vm_compute in Hrun; discriminate..].
  destruct (emit_calls_bounded 8 3 0%nat heap_pair h' t heap_pair_sound Hrun)
    as [_ Hle].
  exists h', t. split; [done|]. exact Hle.
Defined.

(** ** What a pass leaves alone *)

(** X3: [tick] and [emit] change states only: no component appears or
    disappears and every input list and output list reads as before. *)
Theorem propagation_keeps_edges fuel this (h h' : Heap) t :
  tick fuel this h = Done (h', t) ∨ emit fuel this h = Done (h', t) →
  ∀ p, getIputs h' p = getIputs h p ∧ getOutputs h' p = getOutputs h p.
Proof.
  intros Hrun p.
  assert (grows h h') as Hg
    by (destruct Hrun; [by eapply tick_grows|by eapply emit_grows]).
  specialize (Hg p). unfold getIputs, getOutputs, deref.
  destruct (h !! p), (h' !! p); try done. simpl.
  destruct Hg as (-> & -> & _). done.
Qed.

Lemma propagation_keeps_edges_witness :
  ∃ h' t, tick 3 0%nat heap_pair = Done (h', t) ∧
    getIputs h' 1%nat = Done [0%nat] ∧ getOutputs h' 1%nat = Done [0%nat].
Proof.
  destruct (tick 3 0%nat heap_pair) as [[h' t]| |] eqn:Hrun;
    [|vm_compute in Hrun; discriminate..].
  destruct (propagation_keeps_edges 3 0%nat heap_pair h' t (or_introl Hrun) 1%nat)
    as [Hi Ho].
  exists h', t. split; [done|]. by rewrite Hi, Ho.
Defined.

Lemma no_new_bits_merge (h : Heap) p c x cx :
  h !! p = Some c → h !! x = Some cx →
  ∀ i, (∃ q d, <[p := set_state (Z.lor (state c) (state cx)) c]> h !! q = Some d
               ∧ Z.testbit (state d) i = true) →
       ∃ q d, h !! q = Some d ∧ Z.testbit (state d) i = true.
Proof.
  intros Hc Hx i (q & d & Hq & Hi). destruct (decide (q = p)) as [->|Hne].
  - rewrite lookup_insert_eq in Hq. simplify_eq. simpl in Hi.
    rewrite Z.lor_spec in Hi. apply orb_true_iff in Hi as [Hi|Hi]; eauto.
  - rewrite lookup_insert_ne in Hq by done. eauto.
Qed.

(** X4: a pass makes no bit up: a bit found set in some state afterwards
    was set in some state before. *)
Theorem propagation_makes_no_bit_up fuel this (h h' : Heap) t :
  tick fuel this h = Done (h', t) →
  ∀ p i s, getState h' p = Done s → Z.testbit s i = true →
    ∃ q s0, getState h q = Done s0 ∧ Z.testbit s0 i = true.
Proof.
  intros Hrun p i s Hs Hi.
  pose proof (tick_rel
    (λ h1 h2 : Heap, ∀ i, (∃ q d, h2 !! q = Some d ∧ Z.testbit (state d) i = true) →
                       ∃ q d, h1 !! q = Some d ∧ Z.testbit (state d) i = true)) as Hrel.
  unfold getState in Hs. apply bind_Done in Hs as (d & Hd%deref_Done & Heq).
  simplify_eq.
  destruct (Hrel (λ _ _ H, H) (λ _ _ _ H12 H23 j H, H12 j (H23 j H))
              no_new_bits_merge fuel this h h' t Hrun i) as (q & d0 & Hq & Hi0);
    [eauto|].
  exists q, (state d0). split; [|done].
  unfold getState. by rewrite (deref_live _ _ _ Hq).
Qed.

Lemma propagation_makes_no_bit_up_witness :
  ∃ h' t, tick 3 0%nat heap_pair = Done (h', t) ∧
    ∃ q s0, getState heap_pair q = Done s0 ∧ Z.testbit s0 1 = true.
Proof.
  destruct (tick 3 0%nat heap_pair) as [[h' t]| |] eqn:Hrun;
    [|vm_compute in Hrun; discriminate..].
  exists h', t. split; [done|].
  apply (propagation_makes_no_bit_up 3 0%nat heap_pair h' t Hrun 0%nat 1 3).
  - vm_compute in Hrun. simplify_eq. reflexivity.
  - reflexivity.
Defined.

(** ** Fixed points *)

Lemma merged_state_closed (h : Heap) c :
  (∀ x, x ∈ signalInput c → bits_le (states_of h x) (state c)) →
  merged_state h c = state c.
Proof.
  intros Hcl. apply bits_le_antisym; [|apply merged_state_ge].
  apply merged_state_lub; [apply bits_le_refl|done].
Qed.

Lemma tick_closed_noop fuel this (h : Heap) c :
  h !! this = Some c →
  (∀ p, p ∈ signalInput c → is_Some (h !! p)) →
  closed_at h (states_of h) this →
  tick (S fuel) this h = Done (h, [EvTick this]).
Proof.
  intros Hc Hlive Hcl. rewrite (tick_unfold fuel this h c Hc Hlive).
  rewrite merged_state_closed; [by rewrite decide_False by auto|].
  intros x Hx. rewrite <- (states_of_lookup h this c Hc). by eapply Hcl.
Qed.

(** X5: a component that already holds every bit of each of its inputs (a
    component that is its own only input, for one) is left as it is by
    [tick], and [emit] is not called. *)
Theorem tick_on_settled_component fuel this (h : Heap) c :
  h !! this = Some c →
  (∀ x, x ∈ signalInput c → ∃ cx, h !! x = Some cx ∧ bits_le (state cx) (state c)) →
  tick (S fuel) this h = Done (h, [EvTick this]).
Proof.
  intros Hc Hin. apply (tick_closed_noop fuel this h c Hc).
  - intros p Hp. destruct (Hin p Hp) as (cx & Hx & _). by eexists.
  - intros cy x Hy Hx. assert (cy = c) as -> by congruence.
    destruct (Hin x Hx) as (cx & Hcx & Hle).
    by rewrite (states_of_lookup h x cx Hcx), (states_of_lookup h this c Hc).
Qed.

Lemma tick_on_settled_component_witness :
  tick 1 1%nat heap_chain_settled = Done (heap_chain_settled, [EvTick 1%nat]).
Proof.
  apply (tick_on_settled_component 0 1%nat heap_chain_settled
           (mkComponent 5 [2%nat] [0%nat])); [reflexivity|].
  intros x Hx. apply list_elem_of_singleton in Hx. subst x.
  exists (mkComponent 5 [1%nat] []). split; [reflexivity|apply bits_le_refl].
Defined.

(** X6: if every component other than [this] holds every bit of its inputs,
    then after [tick] on [this] every component does: one pass brings the
    whole graph back to a fixed point. *)
Theorem tick_restores_fixed_point fuel this (h h' : Heap) t :
  well_formed h →
  (∀ y, y ≠ this → closed_at h (states_of h) y) →
  tick fuel this h = Done (h', t) →
  ∀ y, closed_at h' (states_of h') y.
Proof.
  intros Hwf Hothers Hrun y.
  pose proof (tick_pass fuel this h h' t Hwf Hrun) as Hpass.
  pose proof Hpass as [Hg (_ & HT & _)].
  apply (closed_at_grows h h' _ y Hg).
  destruct (decide (y = this)) as [->|Hne].
  - apply HT. left.
  - eapply pass_keeps_closed; [done|done|]. by apply Hothers.
Qed.

Lemma heap_chain_closed_tail y : y ≠ 1%nat → closed_at heap_chain (states_of heap_chain) y.
Proof.
  intros Hy cy x Hcy Hx.
  destruct y as [|[|[|y]]]; [| done | |].
  - vm_compute in Hcy. simplify_eq. by apply elem_of_nil in Hx.
  - vm_compute in Hcy. simplify_eq. simpl in Hx.
    apply list_elem_of_singleton in Hx. subst x. apply bits_le_refl.
  - exfalso. unfold heap_chain in Hcy.
    rewrite !lookup_insert_ne, lookup_empty in Hcy by lia. done.
Qed.

Lemma tick_restores_fixed_point_witness :
  ∃ h' t, tick 2 1%nat heap_chain = Done (h', t) ∧
    ∀ y, closed_at h' (states_of h') y.
Proof.
  destruct (tick 2 1%nat heap_chain) as [[h' t]| |] eqn:Hrun;
    [|vm_compute in Hrun; discriminate..].
  exists h', t. split; [done|].
  apply (tick_restores_fixed_point 2 1%nat heap_chain h' t);
    [apply heap_chain_sound|apply heap_chain_closed_tail|done].
Defined.




(** X8: what [tick] leaves is the least outcome the protocol allows: it is
    stable (no state lost a bit, the ticked component and every output of
    every changed component hold all the bits of their inputs), and it
    lies below every stable assignment of states. *)
Theorem tick_computes_least_stable fuel this (h h' : Heap) t :
  well_formed h → tick fuel this h = Done (h', t) →
  stable h [this] (states_of h') ∧
  ∀ σ, stable h [this] σ → ∀ p, bits_le (states_of h' p) (σ p).
Proof.
  intros Hwf Hrun. split.
  - apply (tick_pass fuel this h h' t Hwf Hrun).
  - intros σ Hσ. apply (pass_least fuel [this] h h' σ (t ++ []) Hwf Hσ).
    by apply tick_as_tick_seq.
Qed.

Lemma tick_computes_least_stable_witness :
  ∃ h' t, tick 3 0%nat heap_pair = Done (h', t) ∧ stable heap_pair [0%nat] (states_of h').
Proof.
  destruct (tick 3 0%nat heap_pair) as [[h' t]| |] eqn:Hrun;
    [|vm_compute in Hrun; discriminate..].
  exists h', t. split; [done|].
  apply (tick_computes_least_stable 3 0%nat heap_pair h' t);
    [apply heap_pair_sound|done].
Defined.

(** ** Order and repetition of edges *)

Lemma alike_sym h1 h2 : alike h1 h2 → alike h2 h1.
Proof.
  intros H p. specialize (H p). destruct (h1 !! p), (h2 !! p); try done.
  destruct H as (? & Ho & Hi). split; [done|]. split; intros x; by rewrite ?Ho, ?Hi.
Qed.

Lemma alike_lookup h1 h2 p c1 :
  alike h1 h2 → h1 !! p = Some c1 →
  ∃ c2, h2 !! p = Some c2 ∧ state c1 = state c2
    ∧ (∀ x, x ∈ slotOutput c1 ↔ x ∈ slotOutput c2)
    ∧ (∀ x, x ∈ signalInput c1 ↔ x ∈ signalInput c2).
Proof.
  intros H Hp. specialize (H p). rewrite Hp in H.
  destruct (h2 !! p) as [c2|]; [|done]. eauto.
Qed.

Lemma alike_live h1 h2 p : alike h1 h2 → is_Some (h1 !! p) ↔ is_Some (h2 !! p).
Proof.
  intros H. specialize (H p).
  destruct (h1 !! p), (h2 !! p); try done; split; intros [? ?]; done.
Qed.

Lemma alike_states h1 h2 p : alike h1 h2 → states_of h1 p = states_of h2 p.
Proof.
  intros H. specialize (H p). unfold states_of.
  destruct (h1 !! p), (h2 !! p); try done. by destruct H.
Qed.

Lemma alike_closed_at h1 h2 σ y : alike h1 h2 → closed_at h1 σ y → closed_at h2 σ y.
Proof.
  intros Ha Hcl c2 x Hy Hx.
  destruct (alike_lookup _ _ _ _ (alike_sym _ _ Ha) Hy) as (c1 & Hc1 & _ & _ & Hi).
  eapply Hcl; [exact Hc1|]. by apply Hi.
Qed.

Lemma alike_stable h1 h2 T σ : alike h1 h2 → stable h1 T σ → stable h2 T σ.
Proof.
  intros Ha (Hle & Hcl & Hchg). split; [|split].
  - intros p. rewrite <- (alike_states h1 h2 p Ha). apply Hle.
  - intros y Hy. eapply alike_closed_at; [done|]. auto.
  - intros x c2 y Hx Hne Hy.
    destruct (alike_lookup _ _ _ _ (alike_sym _ _ Ha) Hx) as (c1 & Hc1 & _ & Ho & _).
    eapply alike_closed_at; [done|]. eapply (Hchg x c1 y); [done| |by apply Ho].
    by rewrite (alike_states h1 h2 x Ha).
Qed.

Lemma alike_well_formed h1 h2 : alike h1 h2 → well_formed h1 → well_formed h2.
Proof.
  intros Ha [Hnd Hsym]. pose proof (alike_sym _ _ Ha) as Ha'. split.
  - intros p c2 q Hp Hq.
    destruct (alike_lookup _ _ _ _ Ha' Hp) as (c1 & Hc1 & _ & Ho & Hi).
    rewrite <- (alike_live h1 h2 q Ha). eapply Hnd; [exact Hc1|].
    destruct Hq as [Hq|Hq]; [left; by apply Hi|right; by apply Ho].
  - intros a b ca cb Hca Hcb.
    destruct (alike_lookup _ _ _ _ Ha' Hca) as (ca1 & Hca1 & _ & Ho & _).
    destruct (alike_lookup _ _ _ _ Ha' Hcb) as (cb1 & Hcb1 & _ & _ & Hi).
    rewrite (Ho b), (Hi a). eauto.
Qed.

Lemma alike_valid_states W h1 h2 : alike h1 h2 → valid_states W h1 → valid_states W h2.
Proof.
  intros Ha Hv p c2 Hp.
  destruct (alike_lookup _ _ _ _ (alike_sym _ _ Ha) Hp) as (c1 & Hc1 & Hs & _).
  rewrite Hs. eauto.
Qed.

(** X9: the outcome of a pass does not depend on the order of the entries
    of the input and output lists, nor on how often an edge was entered:
    on two stores with the same states and the same edges, [tick] on the
    same component returns on both and leaves the same state
    everywhere. *)
Theorem duplicate_and_reordered_edges_are_harmless W fuel this (h1 h2 h1' : Heap) t1 :
  alike h1 h2 → sound W h1 → tick fuel this h1 = Done (h1', t1) →
  ∃ fuel' h2' t2, tick fuel' this h2 = Done (h2', t2) ∧
    ∀ p, getState h2' p = getState h1' p.
Proof.
  intros Ha [Hwf1 Hv1] Hrun1.
  pose proof (alike_well_formed _ _ Ha Hwf1) as Hwf2.
  pose proof (alike_valid_states W _ _ Ha Hv1) as Hv2.
  assert (is_Some (h1 !! this)) as Hlive.
  { destruct fuel as [|fuel]; [done|]. cbn [tick] in Hrun1. unfold tick_with in Hrun1.
    apply bind_Done in Hrun1 as (c & Hc%deref_Done & _). by eexists. }
  destruct (tick_terminates W (S (potential W h2)) this h2) as (h2' & t2 & Hrun2);
    [apply Hwf2|done|by apply (alike_live h1 h2)|lia|].
  exists (S (potential W h2)), h2', t2. split; [done|].
  pose proof (tick_pass _ _ _ _ _ Hwf1 Hrun1) as [Hg1 Hst1].
  pose proof (tick_pass _ _ _ _ _ Hwf2 Hrun2) as [Hg2 Hst2].
  assert (∀ p, states_of h2' p = states_of h1' p) as Heq.
  { intros p. apply bits_le_antisym.
    - eapply (pass_least _ [this] h2 h2'); [done| |by apply tick_as_tick_seq].
      by eapply alike_stable.
    - eapply (pass_least _ [this] h1 h1'); [done| |by apply tick_as_tick_seq].
      eapply alike_stable; [by apply alike_sym|done]. }
  intros p. specialize (Heq p). specialize (Ha p). specialize (Hg1 p).
  specialize (Hg2 p). unfold states_of in Heq. unfold getState, deref.
  destruct (h1 !! p), (h2 !! p), (h1' !! p), (h2' !! p); try done.
  simpl in *. by rewrite Heq.
Qed.

Lemma heap_pair_alike_dup : alike heap_pair heap_pair_dup.
Proof.
  intros [|[|p]].
  - vm_compute (heap_pair !! 0%nat). vm_compute (heap_pair_dup !! 0%nat).
    simpl. split; [done|]. split; intros x; set_solver.
  - vm_compute (heap_pair !! 1%nat). vm_compute (heap_pair_dup !! 1%nat).
    simpl. split; [done|]. split; intros x; set_solver.
  - unfold heap_pair, heap_pair_dup.
    by rewrite !lookup_insert_ne, !lookup_empty by lia.
Qed.

Lemma duplicate_and_reordered_edges_are_harmless_witness :
  ∃ h1' t1 fuel' h2' t2, tick 3 0%nat heap_pair = Done (h1', t1) ∧
    tick fuel' 0%nat heap_pair_dup = Done (h2', t2) ∧
    ∀ p, getState h2' p = getState h1' p.
Proof.
  destruct (tick 3 0%nat heap_pair) as [[h1' t1]| |] eqn:Hrun;
    [|vm_compute in Hrun; discriminate..].
  destruct (duplicate_and_reordered_edges_are_harmless 8 3 0%nat heap_pair
              heap_pair_dup h1' t1 heap_pair_alike_dup heap_pair_sound Hrun)
    as (fuel' & h2' & t2 & Hrun2 & Heq).
  by exists h1', t1, fuel', h2', t2.
Defined.

(** ** Connecting and disconnecting *)

Lemma occurrences_push v x y l :
  occurrences x (push v y l) =
    ((if decide (y = x) then 1 else 0) + occurrences x l)%nat.
Proof.
  unfold occurrences. rewrite (push_Permutation v y l).
  case_decide; [by rewrite filter_cons_True|by rewrite filter_cons_False].
Qed.

Lemma occurrences_list_remove x y l :
  occurrences x (list_remove y l) = if decide (x = y) then 0%nat else occurrences x l.
Proof.
  case_decide as Hxy.
  - subst. apply occurrences_0, list_remove_gone.
  - unfold occurrences, list_remove. rewrite list_filter_filter. f_equal.
    apply list_filter_iff. intros z. naive_solver.
Qed.

Lemma list_remove_push v x l : list_remove x (push v x l) = list_remove x l.
Proof.
  unfold list_remove. destruct v; simpl.
  - rewrite filter_app, filter_cons_False, filter_nil by naive_solver.
    by rewrite app_nil_r.
  - by rewrite filter_cons_False by naive_solver.
Qed.

Lemma list_remove_iter_push v x n l :
  list_remove x (Nat.iter n (push v x) l) = list_remove x l.
Proof. induction n as [|n IH]; [done|]. simpl. by rewrite list_remove_push. Qed.

(** X10: [a.addInput(b)] followed by [a.removeInput(b)] leaves what
    [a.removeInput(b)] alone would have left; when there was no edge from
    [b] to [a] before, the two calls together give back the store as it
    was. *)
Theorem connect_then_disconnect v (h : Heap) a b ca cb :
  h !! a = Some ca → h !! b = Some cb →
  ∃ h1 h2, addInput v a b h = Done h1 ∧ removeInput a b h1 = Done h2
    ∧ removeInput a b h = Done h2
    ∧ (b ∉ signalInput ca → a ∉ slotOutput cb → h2 = h).
Proof.
  intros Ha Hb.
  destruct (connectSlot_live v b a h) as (h1 & Hrun1 & Hl1); [by eexists..|].
  destruct (disconnectSlot_live b a h1) as (h2 & Hrun2 & Hl2);
    [rewrite Hl1, ?Ha, ?Hb; by eexists..|].
  destruct (disconnectSlot_live b a h) as (h2' & Hrun2' & Hl2'); [by eexists..|].
  assert (h2' = h2) as ->.
  { apply map_eq. intros p. rewrite Hl2, Hl2', Hl1.
    destruct (h !! p) as [c|]; [|done]. simpl. f_equal.
    unfold rewire; simpl. f_equal; case_decide; by rewrite ?list_remove_push. }
  exists h1, h2. split; [done|]. split; [done|]. split; [done|].
  intros Hi Ho. eapply rewire_id_eq; eauto using list_remove_absent.
Qed.

Lemma connect_then_disconnect_witness :
  ∃ h1, addInput FList 0%nat 1%nat heap_two = Done h1 ∧
    removeInput 0%nat 1%nat h1 = Done heap_two.
Proof.
  destruct (connect_then_disconnect FList heap_two 0%nat 1%nat
              (mkComponent 1 [] []) (mkComponent 2 [] []))
    as (h1 & h2 & Hadd & Hrm & _ & Hid); [reflexivity..|].
  exists h1. split; [done|]. rewrite Hrm. f_equal. apply Hid; apply not_elem_of_nil.
Defined.

(** X11: there is no duplicate detection: every [a.addInput(b)] adds one
    more entry for [b] to the inputs of [a] and one more entry for [a] to
    the outputs of [b], whether or not the edge was there already. *)
Theorem addInput_adds_one_edge v (h : Heap) a b ca cb :
  h !! a = Some ca → h !! b = Some cb →
  ∃ h' ca' cb', addInput v a b h = Done h'
    ∧ h' !! a = Some ca' ∧ h' !! b = Some cb'
    ∧ occurrences b (signalInput ca') = S (occurrences b (signalInput ca))
    ∧ occurrences a (slotOutput cb') = S (occurrences a (slotOutput cb))
    ∧ length (signalInput ca') = S (length (signalInput ca))
    ∧ length (slotOutput cb') = S (length (slotOutput cb)).
Proof.
  intros Ha Hb.
  destruct (connectSlot_live v b a h) as (h' & Hrun & Hl); [by eexists..|].
  exists h', (rewire (push v a) (push v b) b a a ca),
    (rewire (push v a) (push v b) b a b cb).
  split; [done|]. rewrite !Hl, Ha, Hb. split; [done|]. split; [done|].
  unfold rewire; simpl. rewrite !(decide_True (P := a = a)) by done.
  rewrite !(decide_True (P := b = b)) by done.
  rewrite !occurrences_push, !decide_True by done.
  rewrite !(push_Permutation v). done.
Qed.

Lemma addInput_adds_one_edge_witness :
  ∃ h' ca', addInput DList 0%nat 1%nat heap_pair = Done h'
    ∧ h' !! 0%nat = Some ca' ∧ occurrences 1%nat (signalInput ca') = 2%nat.
Proof.
  destruct (addInput_adds_one_edge DList heap_pair 0%nat 1%nat
              (mkComponent 1 [1%nat] [1%nat]) (mkComponent 2 [0%nat] [0%nat]))
    as (h' & ca' & cb' & Hrun & Ha & _ & Hocc & _); [reflexivity..|].
  exists h', ca'. split; [done|]. split; [done|]. by rewrite Hocc.
Defined.

Lemma connect_balanced v this s (h h' : Heap) :
  connectSlot v this s h = Done h' → balanced h → balanced h'.
Proof.
  intros (_ & _ & Hl)%connectSlot_inv Hbal a b ca' cb' Ha Hb.
  destruct (rewire_lookup_inv _ _ _ _ _ _ _ _ Hl Ha) as (ca & Hca & ->).
  destruct (rewire_lookup_inv _ _ _ _ _ _ _ _ Hl Hb) as (cb & Hcb & ->).
  specialize (Hbal a b ca cb Hca Hcb). unfold rewire; simpl.
  destruct (decide (b = s)), (decide (a = this));
    rewrite ?occurrences_push; repeat case_decide; subst; try done; lia.
Qed.

Lemma disconnect_balanced this s (h h' : Heap) :
  disconnectSlot this s h = Done h' → balanced h → balanced h'.
Proof.
  intros (_ & _ & Hl)%disconnectSlot_inv Hbal a b ca' cb' Ha Hb.
  destruct (rewire_lookup_inv _ _ _ _ _ _ _ _ Hl Ha) as (ca & Hca & ->).
  destruct (rewire_lookup_inv _ _ _ _ _ _ _ _ Hl Hb) as (cb & Hcb & ->).
  specialize (Hbal a b ca cb Hca Hcb). unfold rewire; simpl.
  destruct (decide (b = s)), (decide (a = this));
    rewrite ?occurrences_list_remove; repeat case_decide; subst; try done; lia.
Qed.

Lemma fresh_balanced (h : Heap) this s :
  h !! this = None → no_dangling h → balanced h →
  balanced (<[this := mkComponent s [] []]> h).
Proof.
  intros Hfresh Hnd Hbal a b ca cb Ha Hb.
  assert (∀ p c, h !! p = Some c →
            occurrences this (signalInput c) = 0%nat
            ∧ occurrences this (slotOutput c) = 0%nat) as Hno.
  { intros p c Hp. split; apply occurrences_0; intros Hin;
      (destruct (Hnd p c this Hp) as [? ?]; [auto|congruence]). }
  destruct (decide (a = this)) as [->|Hna], (decide (b = this)) as [->|Hnb].
  - rewrite lookup_insert_eq in Ha, Hb. by simplify_eq.
  - rewrite lookup_insert_eq in Ha. rewrite lookup_insert_ne in Hb by done.
    simplify_eq. simpl. by destruct (Hno b cb Hb) as [-> _].
  - rewrite lookup_insert_eq in Hb. rewrite lookup_insert_ne in Ha by done.
    simplify_eq. simpl. by destruct (Hno a ca Ha) as [_ ->].
  - rewrite lookup_insert_ne in Ha, Hb by done. eauto.
Qed.

Lemma grows_balanced h h' : grows h h' → balanced h → balanced h'.
Proof.
  intros Hg Hbal a b ca' cb' Ha Hb.
  destruct (grows_lookup_rev _ _ _ _ Hg Ha) as (ca & Hca & Ho & _ & _).
  destruct (grows_lookup_rev _ _ _ _ Hg Hb) as (cb & Hcb & _ & Hi & _).
  rewrite Ho, Hi. eauto.
Qed.

Lemma for_each_connect_balanced v (f : nat → nat * nat) l (h h' : Heap) :
  for_each (λ x, connectSlot v (f x).1 (f x).2) l h = Done h' →
  balanced h → balanced h'.
Proof.
  intros Hrun Hb. eapply (for_each_inv balanced); [|exact Hb|exact Hrun].
  intros x h1 h2 _ Hb1 Hstep.
  exact (connect_balanced v (f x).1 (f x).2 h1 h2 Hstep Hb1).
Qed.

Lemma run_op_balanced v W fuel o (h h' : Heap) :
  run_op v W fuel o h = Done h' → sound W h → balanced h → balanced h'.
Proof.
  destruct o as [this iv|this sc d|this ins outs|this|o this other|this l|this l|this|this];
    simpl; intros Hrun [[Hnd Hsym] Hv] Hbal.
  - apply construct_inv in Hrun as [Hfresh ->]. by apply fresh_balanced.
  - unfold copy_construct in Hrun.
    apply bind_Done in Hrun as (h0 & [Hfresh ->]%construct_inv & Hrun).
    apply bind_Done in Hrun as (src & _ & Hrun).
    apply bind_Done in Hrun as (h1 & Hloop1 & Hrun).
    assert (balanced h1) as Hbal1.
    { apply (for_each_connect_balanced v (λ x, (x, this)) _ _ _ Hloop1).
      by apply fresh_balanced. }
    destruct d; [|by simplify_eq].
    apply bind_Done in Hrun as (src' & _ & Hloop2).
    by apply (for_each_connect_balanced v (λ x, (this, x)) _ _ _ Hloop2).
  - unfold construct_io in Hrun.
    apply bind_Done in Hrun as (h0 & [Hfresh ->]%construct_inv & Hrun).
    apply bind_Done in Hrun as (h1 & Hloop1 & Hloop2).
    apply (for_each_connect_balanced v (λ x, (this, x)) _ _ _ Hloop2).
    apply (for_each_connect_balanced v (λ x, (x, this)) _ _ _ Hloop1).
    by apply fresh_balanced.
  - pose proof (destroy_live _ _ _ Hrun) as Hlive.
    destruct (destroy_spec this h Hnd Hsym Hlive) as (h'' & Hrun' & Hl).
    assert (h'' = h') as -> by congruence.
    intros a b ca' cb' Ha Hb.
    destruct (purged_lookup_inv _ _ _ _ _ Hl Ha) as (Hna & ca & Hca & ->).
    destruct (purged_lookup_inv _ _ _ _ _ Hl Hb) as (Hnb & cb & Hcb & ->).
    simpl. rewrite !occurrences_list_remove, !decide_False by done. eauto.
  - destruct o; simpl in Hrun; eauto using connect_balanced, disconnect_balanced.
  - by apply (for_each_connect_balanced v (λ x, (x, this)) _ _ _ Hrun).
  - by apply (for_each_connect_balanced v (λ x, (this, x)) _ _ _ Hrun).
  - apply bind_Done in Hrun as ([h1 t] & Hrun & Heq). simplify_eq.
    eapply grows_balanced; [by eapply tick_grows|done].
  - apply bind_Done in Hrun as ([h1 t] & Hrun & Heq). simplify_eq.
    eapply grows_balanced; [by eapply emit_grows|done].
Qed.

(** X12: in every store a program reaches, edges are counted the same from
    both ends: [a] is entered among the inputs of [b] exactly as often as
    [b] is entered among the outputs of [a]. *)
Theorem edges_counted_alike_from_both_ends v W fuel os (h : Heap) :
  run_ops v W fuel os ∅ = Done h →
  ∀ a b ca cb, h !! a = Some ca → h !! b = Some cb →
    occurrences a (signalInput cb) = occurrences b (slotOutput ca).
Proof.
  assert (∀ os (h0 h1 : Heap), run_ops v W fuel os h0 = Done h1 →
            sound W h0 → balanced h0 → balanced h1) as Hgen.
  { clear. induction os as [|o os IH]; intros h0 h1 Hrun Hs Hb; simpl in Hrun.
    - by simplify_eq.
    - apply bind_Done in Hrun as (hm & Ho & Hrun).
      eapply IH; [done|by eapply run_op_sound|by eapply run_op_balanced]. }
  intros Hrun. apply (Hgen os ∅ h Hrun (empty_sound W)).
  intros a b ca cb Ha. by rewrite lookup_empty in Ha.
Qed.

Lemma edges_counted_alike_from_both_ends_witness :
  ∃ h : Heap, run_ops DList 8 0 prog_cycle ∅ = Done h ∧
    ∀ a b ca cb, h !! a = Some ca → h !! b = Some cb →
      occurrences a (signalInput cb) = occurrences b (slotOutput ca).
Proof.
  exists heap_pair. split; [vm_compute; reflexivity|].
  apply (edges_counted_alike_from_both_ends DList 8 0 prog_cycle heap_pair).
  vm_compute. reflexivity.
Defined.

(** ** Lifetimes *)

(** X13: the default constructor stores the initial value cut down to the
    bit width: the state has bit [i] exactly when [i] is below the width,
    below the width of [size_t], and set in the value; a value that fits
    is stored as it is; the new component has no inputs and no outputs. *)
Theorem initial_state_truncated W (h : Heap) this initial_value :
  h !! this = None →
  ∃ h' s, construct W this initial_value h = Done h'
    ∧ getState h' this = Done s
    ∧ getIputs h' this = Done [] ∧ getOutputs h' this = Done []
    ∧ 0 ≤ s < 2 ^ Z.of_nat (getBitWidth W)
    ∧ (∀ i, 0 ≤ i →
         Z.testbit s i =
           Z.testbit initial_value i && (i <? size_t_bits) && (i <? Z.of_nat W))
    ∧ (0 ≤ initial_value < 2 ^ Z.of_nat W → initial_value < 2 ^ size_t_bits →
       s = initial_value).
Proof.
  intros Hfresh. rewrite construct_fresh by done.
  exists (<[this := mkComponent (bitset_of W initial_value) [] []]> h),
    (bitset_of W initial_value).
  unfold getState, getIputs, getOutputs.
  rewrite (deref_live _ _ (mkComponent (bitset_of W initial_value) [] []))
    by apply lookup_insert_eq.
  repeat split; try apply bitset_of_range.
  - intros i Hi. unfold bitset_of.
    rewrite Z.land_spec, Z.testbit_ones_nonneg by lia. f_equal.
    destruct (Z.ltb_spec i size_t_bits).
    + rewrite Z.mod_pow2_bits_low by lia. by rewrite andb_true_r.
    + rewrite Z.mod_pow2_bits_high by (unfold size_t_bits in *; lia).
      by rewrite andb_false_r.
  - intros Hr Hr'. by apply bitset_of_small.
Qed.

Lemma initial_state_truncated_witness :
  ∃ h' s, construct 4 0%nat 21 ∅ = Done h' ∧ getState h' 0%nat = Done s ∧ s = 5.
Proof.
  destruct (initial_state_truncated 4 ∅ 0%nat 21) as (h' & s & Hrun & Hs & _);
    [reflexivity|].
  exists h', s. split; [done|]. split; [done|].
  vm_compute in Hrun. simplify_eq. vm_compute in Hs. by simplify_eq.
Defined.

(** X14: a component that was constructed and connected to nothing is
    destroyed without trace: the destructor is safe on empty lists and
    gives back the store as it was before the construction. *)
Theorem construct_then_destroy W (h : Heap) this initial_value :
  h !! this = None →
  ∃ h1, construct W this initial_value h = Done h1 ∧ destroy this h1 = Done h.
Proof.
  intros Hfresh. rewrite construct_fresh by done. eexists. split; [done|].
  unfold destroy.
  rewrite (deref_live _ _ (mkComponent (bitset_of W initial_value) [] []))
    by apply lookup_insert_eq.
  rewrite bind_Done_l. cbn [slotOutput for_each]. rewrite bind_Done_l.
  rewrite (deref_live _ _ (mkComponent (bitset_of W initial_value) [] []))
    by apply lookup_insert_eq.
  rewrite bind_Done_l. cbn [signalInput for_each]. rewrite bind_Done_l.
  by rewrite delete_insert_id.
Qed.

Lemma construct_then_destroy_witness :
  ∃ h1, construct 8 2%nat 9 heap_pair = Done h1 ∧ destroy 2%nat h1 = Done heap_pair.
Proof. apply (construct_then_destroy 8 heap_pair 2%nat 9). reflexivity. Defined.

(** X15: a copy is destroyed without trace: copy-constructing [D] from [A],
    with or without the outputs, and then destroying [D] gives back the
    store as it was, the edge lists of every neighbour in their old
    order. *)
Theorem copy_then_destroy v W (h : Heap) A D ca dup :
  well_formed h → h !! A = Some ca → h !! D = None →
  ∃ h1, copy_construct v W D A dup h = Done h1 ∧ destroy D h1 = Done h.
Proof.
  intros [Hnd Hsym] HA HD.
  destruct (copy_construct_spec v W D A dup h ca Hnd HA HD) as (h1 & Hrun & Hl).
  exists h1. split; [done|].
  pose proof (copy_construct_well_formed v W D A dup h h1 Hrun (conj Hnd Hsym))
    as [Hnd1 Hsym1].
  destruct (destroy_spec D h1 Hnd1 Hsym1) as (h2 & Hrun2 & Hl2).
  { rewrite Hl, lookup_insert_eq. by eexists. }
  rewrite Hrun2. f_equal. apply map_eq. intros p. rewrite Hl2.
  case_decide as Hp; [by subst|].
  rewrite Hl, lookup_insert_ne by done.
  destruct (h !! p) as [c|] eqn:Hc; [|done]. simpl. f_equal.
  assert (list_remove D (slotOutput c) = slotOutput c) as Ho.
  { apply list_remove_absent. intros Hin.
    destruct (Hnd p c D Hc) as [? ?]; [by right|congruence]. }
  assert (list_remove D (signalInput c) = signalInput c) as Hi.
  { apply list_remove_absent. intros Hin.
    destruct (Hnd p c D Hc) as [? ?]; [by left|congruence]. }
  destruct c as [st o i]. simpl in *.
  destruct dup; unfold purge, conn_outputs, conn_inputs; simpl;
    rewrite !decide_False by done; rewrite !list_remove_iter_push, Ho, Hi; done.
Qed.

Lemma copy_then_destroy_witness :
  ∃ h1, copy_construct FList 8 2%nat 0%nat true heap_pair = Done h1 ∧
    destroy 2%nat h1 = Done heap_pair.
Proof.
  apply (copy_then_destroy FList 8 heap_pair 0%nat 2%nat (mkComponent 1 [1%nat] [1%nat]));
    [apply heap_pair_sound|reflexivity..].
Defined.

(** X16: the connection constructor, on live components other than the new
    one: the new component starts from the zero state, its inputs and
    outputs are the two lists (in their order for the [std::list] variant,
    reversed for the [std::forward_list] variant), and every component
    gains the new one among its outputs once per entry in the input list
    and among its inputs once per entry in the output list. *)
Theorem connection_constructor v W (h : Heap) this inputList outputList :
  h !! this = None →
  (∀ x, x ∈ inputList ∨ x ∈ outputList → is_Some (h !! x)) →
  ∃ h', construct_io v W this inputList outputList h = Done h'
    ∧ getState h' this = Done 0
    ∧ getIputs h' this =
        Done (match v with DList => inputList | FList => reverse inputList end)
    ∧ getOutputs h' this =
        Done (match v with DList => outputList | FList => reverse outputList end)
    ∧ ∀ p c, h !! p = Some c →
        h' !! p = Some (mkComponent (state c)
          (Nat.iter (occurrences p inputList) (push v this) (slotOutput c))
          (Nat.iter (occurrences p outputList) (push v this) (signalInput c))).
Proof.
  intros Hfresh Hlive. unfold construct_io, addInputs, addOutputs.
  rewrite construct_fresh by done. rewrite bitset_of_0, bind_Done_l.
  set (h0 := <[this := mkComponent 0 [] []]> h).
  assert (∀ x, x ∈ inputList ∨ x ∈ outputList → x ≠ this) as Hne.
  { intros x Hx ->. destruct (Hlive this Hx) as [? ?]. congruence. }
  assert (∀ x, x ∈ inputList ∨ x ∈ outputList → is_Some (h0 !! x)) as Hlive0.
  { intros x Hx. unfold h0. rewrite lookup_insert_ne by (apply not_eq_sym; auto).
    auto. }
  destruct (for_each_addInput v this inputList h0) as (h1 & -> & Hl1);
    [unfold h0; rewrite lookup_insert_eq; by eexists|auto|].
  rewrite bind_Done_l.
  destruct (for_each_addOutput v this outputList h1) as (h2 & -> & Hl2).
  { rewrite Hl1, fmap_is_Some. unfold h0. rewrite lookup_insert_eq. by eexists. }
  { intros x Hx. rewrite Hl1, fmap_is_Some. auto. }
  exists h2. split; [done|].
  assert (occurrences this inputList = 0%nat) as Hin0.
  { apply occurrences_0. intros Hin. by apply (Hne this); [left|]. }
  assert (occurrences this outputList = 0%nat) as Hout0.
  { apply occurrences_0. intros Hin. by apply (Hne this); [right|]. }
  assert (h2 !! this = Some (mkComponent 0
            (match v with DList => outputList | FList => reverse outputList end)
            (match v with DList => inputList | FList => reverse inputList end)))
    as Hthis.
  { rewrite Hl2, Hl1. unfold h0. rewrite lookup_insert_eq. simpl.
    unfold conn_outputs, conn_inputs; simpl.
    rewrite !decide_True, Hin0, Hout0 by done. simpl. f_equal.
    destruct v; by rewrite ?push_all_DList, ?push_all_FList, ?app_nil_r. }
  unfold getState, getIputs, getOutputs. rewrite (deref_live _ _ _ Hthis).
  repeat split; try done.
  intros p c Hc. assert (p ≠ this) as Hp by congruence.
  rewrite Hl2, Hl1. unfold h0. rewrite lookup_insert_ne, Hc by done. simpl.
  unfold conn_outputs, conn_inputs; simpl. by rewrite !decide_False by done.
Qed.

Lemma connection_constructor_witness :
  ∃ h', construct_io FList 8 2%nat [0%nat; 1%nat] [0%nat] heap_two = Done h'
    ∧ getIputs h' 2%nat = Done [1%nat; 0%nat]
    ∧ getOutputs h' 2%nat = Done [0%nat].
Proof.
  destruct (connection_constructor FList 8 heap_two 2%nat [0%nat; 1%nat] [0%nat])
    as (h' & Hrun & _ & Hi & Ho & _).
  - reflexivity.
  - intros x [Hx|Hx].
    + apply elem_of_cons in Hx as [->|Hx]; [by eexists|].
      apply list_elem_of_singleton in Hx. subst x. by eexists.
    + apply list_elem_of_singleton in Hx. subst x. by eexists.
  - by exists h'.
Defined.

(** ** Repeating and reordering calls *)

(** X17: [tick] is idempotent: once a call of [tick] on a component has
    returned, a second call on the same component changes nothing and
    calls no [emit]. *)
Theorem tick_twice fuel fuel' this (h h' : Heap) t :
  well_formed h → tick fuel this h = Done (h', t) →
  tick (S fuel') this h' = Done (h', [EvTick this]).
Proof.
  intros Hwf Hrun.
  pose proof (tick_pass fuel this h h' t Hwf Hrun) as [Hg (_ & HT & _)].
  pose proof (grows_well_formed h h' Hg Hwf) as [Hnd' _].
  assert (is_Some (h' !! this)) as [c' Hc'].
  { apply (grows_live h h' this Hg). destruct fuel as [|fuel]; [done|].
    cbn [tick] in Hrun. unfold tick_with in Hrun.
    apply bind_Done in Hrun as (c & Hc%deref_Done & _). by eexists. }
  apply (tick_closed_noop fuel' this h' c' Hc').
  - intros p Hp. eapply Hnd'; eauto.
  - apply (closed_at_grows h h' _ this Hg). apply HT. left.
Qed.

Lemma tick_twice_witness :
  ∃ h' t, tick 3 0%nat heap_pair = Done (h', t) ∧
    tick 1 0%nat h' = Done (h', [EvTick 0%nat]).
Proof.
  destruct (tick 3 0%nat heap_pair) as [[h' t]| |] eqn:Hrun;
    [|vm_compute in Hrun; discriminate..].
  exists h', t. split; [done|].
  apply (tick_twice 3 0 0%nat heap_pair h' t); [apply heap_pair_sound|done].
Defined.

Lemma list_remove_comm x y l :
  list_remove x (list_remove y l) = list_remove y (list_remove x l).
Proof.
  unfold list_remove. rewrite !list_filter_filter. apply list_filter_iff.
  intros z. tauto.
Qed.

(** X18: the order of destruction does not matter: destroying two
    components of a well-formed store one after the other returns in
    either order and leaves the same store. *)
Theorem destroy_commutes (h : Heap) a b :
  well_formed h → a ≠ b → is_Some (h !! a) → is_Some (h !! b) →
  ∃ ha hb h', destroy a h = Done ha ∧ destroy b ha = Done h'
    ∧ destroy b h = Done hb ∧ destroy a hb = Done h'.
Proof.
  intros [Hnd Hsym] Hab Ha Hb.
  destruct (destroy_spec a h Hnd Hsym Ha) as (ha & Hra & Hla).
  destruct (destroy_spec b h Hnd Hsym Hb) as (hb & Hrb & Hlb).
  destruct (destroy_spec b ha) as (hab & Hrab & Hlab);
    [by eapply purged_no_dangling|by eapply purged_symmetric| |].
  { rewrite Hla, decide_False, fmap_is_Some by auto. done. }
  destruct (destroy_spec a hb) as (hba & Hrba & Hlba);
    [by eapply purged_no_dangling|by eapply purged_symmetric| |].
  { rewrite Hlb, decide_False, fmap_is_Some by auto. done. }
  assert (hba = hab) as ->.
  { apply map_eq. intros p. rewrite Hlba, Hlab, Hlb, Hla.
    repeat case_decide; try done.
    destruct (h !! p) as [c|]; [|done]. simpl. f_equal.
    unfold purge; simpl. f_equal; apply list_remove_comm. }
  by exists ha, hb, hab.
Qed.

Lemma destroy_commutes_witness :
  ∃ ha hb h', destroy 0%nat heap_chain = Done ha ∧ destroy 1%nat ha = Done h'
    ∧ destroy 1%nat heap_chain = Done hb ∧ destroy 0%nat hb = Done h'.
Proof.
  apply (destroy_commutes heap_chain 0%nat 1%nat);
    [apply heap_chain_sound|lia|by eexists..].
Defined.
